(** * A shallow embedding of the raytracer (main.go)

    The program computes on Go [float64] values.  The embedding is written
    once, over an interface [Float64] of the arithmetic the program uses, and
    read at two instances:

    - [float_Float64]: IEEE-754 binary64 (Rocq's primitive floats), the
      arithmetic the program really runs, each operation rounded on its own
      (no fused multiply-add, as on amd64); every definition evaluates on
      it;
    - [R_Float64]: the real numbers, the arithmetic the program is meant to
      approximate; the algebraic laws of the engine are proved on it.

    Division by zero and the square root of a negative number yield NaN or an
    infinity on binary64 and an arbitrary real on [R]; the theorems over [R]
    therefore carry the hypotheses (non-zero direction, positive radius,
    non-zero alpha) under which the program performs neither.

    A theorem over [R] is a statement about real arithmetic.  Where
    rounding changes what a run returns, the run is evaluated at the
    binary64 instance and set beside the real one. *)

From Stdlib Require Uint63.
From Stdlib Require Import Floats.PrimFloat Floats.FloatOps Floats.SpecFloat.
From Stdlib Require Import ZArith List Bool Lia.
From Stdlib Require Import Reals Lra Psatz RNsatz.
From Stdlib Require Import Permutation.
Import ListNotations.

(** ** The arithmetic interface *)

Class Float64 (F : Type) : Type := {
  fadd : F -> F -> F;
  fsub : F -> F -> F;
  fmul : F -> F -> F;
  fdiv : F -> F -> F;
  fopp : F -> F;
  fsqrt : F -> F;              (* math.Sqrt *)
  feqb : F -> F -> bool;       (* == *)
  fltb : F -> F -> bool;       (* <  *)
  fleb : F -> F -> bool;       (* <= *)
  fofZ : Z -> F;               (* float64(n), n an integer *)
  ftrunc : F -> Z              (* integer conversion: the fraction is discarded *)
}.

(** math.Cos, math.Sin and the constant [math.Pi / 180]. *)
Class Trig (F : Type) : Type := {
  fcos : F -> F;
  fsin : F -> F;
  fdeg : F
}.

Declare Scope f64_scope.
Delimit Scope f64_scope with f64.
Infix "+" := fadd : f64_scope.
Infix "-" := fsub : f64_scope.
Infix "*" := fmul : f64_scope.
Infix "/" := fdiv : f64_scope.
Notation "- a" := (fopp a) : f64_scope.
Infix "==" := feqb (at level 70, no associativity) : f64_scope.
Infix "<?" := fltb : f64_scope.
Infix "<=?" := fleb : f64_scope.

(** A decimal constant [n/d] of the source, e.g. [0.001] is [fconst 1 1000]. *)
Definition fconst {F} `{Float64 F} (n d : Z) : F := (fofZ n / fofZ d)%f64.

(** *** Real numbers *)

Definition Rltb (a b : R) : bool := if Rlt_dec a b then true else false.
Definition Rleb (a b : R) : bool := if Rle_dec a b then true else false.
Definition Reqb (a b : R) : bool := if Req_dec_T a b then true else false.

(** Truncation towards zero. *)
Definition Rtrunc (a : R) : Z :=
  if Rle_dec 0 a then Int_part a else (- Int_part (- a))%Z.

#[export] Instance R_Float64 : Float64 R := {
  fadd := Rplus; fsub := Rminus; fmul := Rmult; fdiv := Rdiv; fopp := Ropp;
  fsqrt := sqrt; feqb := Reqb; fltb := Rltb; fleb := Rleb;
  fofZ := IZR; ftrunc := Rtrunc
}.

#[export] Instance R_Trig : Trig R := {
  fcos := cos; fsin := sin; fdeg := (PI / 180)%R
}.

(** *** IEEE-754 binary64 *)

Definition float_ofZ (n : Z) : float :=
  match n with
  | Z0 => PrimFloat.zero
  | Zpos _ => PrimFloat.of_uint63 (Uint63.of_Z n)
  | Zneg p => PrimFloat.opp (PrimFloat.of_uint63 (Uint63.of_Z (Zpos p)))
  end.

(** The integer part of a finite binary64 value [(-1)^s * m * 2^e]. *)
Definition float_trunc (a : float) : Z :=
  match Prim2SF a with
  | S754_finite s m e =>
      let q := (if (0 <=? e)%Z then Z.shiftl (Zpos m) e
                else Z.shiftr (Zpos m) (- e))%Z in
      if s then (- q)%Z else q
  | _ => 0%Z
  end.

#[export] Instance float_Float64 : Float64 float := {
  fadd := PrimFloat.add; fsub := PrimFloat.sub; fmul := PrimFloat.mul;
  fdiv := PrimFloat.div; fopp := PrimFloat.opp; fsqrt := PrimFloat.sqrt;
  feqb := PrimFloat.eqb; fltb := PrimFloat.ltb; fleb := PrimFloat.leb;
  fofZ := float_ofZ; ftrunc := float_trunc
}.

(** ** Geometry *)

Record point (F : Type) : Type := mkPoint { x : F; y : F; z : F }.
Record direction (F : Type) : Type := mkDirection { dx : F; dy : F; dz : F }.
Record ray (F : Type) : Type := mkRay { src : point F; dir : direction F }.

Arguments mkPoint {F}. Arguments x {F}. Arguments y {F}. Arguments z {F}.
Arguments mkDirection {F}. Arguments dx {F}. Arguments dy {F}. Arguments dz {F}.
Arguments mkRay {F}. Arguments src {F}. Arguments dir {F}.

Section Geometry.
Context {F : Type} `{Float64 F}.
Local Open Scope f64_scope.

Definition tolerance : F := fconst 1 1000.

Definition direction_scale (d : direction F) (factor : F) : direction F :=
  mkDirection (factor * dx d) (factor * dy d) (factor * dz d).

Definition direction_flip (d : direction F) : direction F :=
  direction_scale d (fofZ (-1)).

Definition direction_add (d d2 : direction F) : direction F :=
  mkDirection (dx d + dx d2) (dy d + dy d2) (dz d + dz d2).

Definition point_to (p other : point F) : direction F :=
  mkDirection (x other - x p) (y other - y p) (z other - z p).

Definition norm2 (d : direction F) : F :=
  dx d * dx d + dy d * dy d + dz d * dz d.

Definition norm (d : direction F) : F := fsqrt (norm2 d).

(** [normalize] has a pointer receiver: it overwrites the caller's vector,
    here it returns the new value. *)
Definition normalize (d : direction F) : direction F :=
  let n := norm d in
  mkDirection (dx d / n) (dy d / n) (dz d / n).

Definition dot (d1 d2 : direction F) : F :=
  dx d1 * dx d2 + dy d1 * dy d2 + dz d1 * dz d2.

(** "rotate v 180 degrees around normal"; [normal] is passed by value, so
    normalising it is local to the call. *)
Definition rotateAround (v normal : direction F) : direction F :=
  let normal := normalize normal in
  let dotprod := dx normal * dx v + dy normal * dy v + dz normal * dz v in
  let diff := mkDirection (dx v - dotprod * dx normal)
                          (dy v - dotprod * dy normal)
                          (dz v - dotprod * dz normal) in
  mkDirection (dx v - fofZ 2 * dx diff)
              (dy v - fofZ 2 * dy diff)
              (dz v - fofZ 2 * dz diff).

Definition ray_scale (r : ray F) (factor : F) : point F :=
  mkPoint (x (src r) + factor * dx (dir r))
          (y (src r) + factor * dy (dir r))
          (z (src r) + factor * dz (dir r)).

Definition getRay (src0 dst : point F) : ray F :=
  mkRay src0 (point_to src0 dst).

Definition ray_flip (r : ray F) : ray F :=
  getRay (src r) (ray_scale r (fofZ (-1))).

Definition ray_shiftBy (r : ray F) (d : direction F) : ray F :=
  mkRay (src r) (direction_add (dir r) d).
End Geometry.

(** ** Colours

    [color.RGBA] of Go's image/color: four 8-bit channels.  Its [RGBA()]
    method widens each channel to 16 bits ([v |= v << 8]). *)

Record RGBA : Type := mkRGBA { cR : Z; cG : Z; cB : Z; cA : Z }.

Definition widen (v : Z) : Z := Z.lor v (Z.shiftl v 8).

Definition RGBA_RGBA (c : RGBA) : Z * Z * Z * Z :=
  (widen (cR c), widen (cG c), widen (cB c), widen (cA c)).

(** [uint8(v)] for a float [v]: the fraction is discarded.  Go leaves the
    result open when the integer part does not fit in 8 bits; the embedding
    keeps the low 8 bits. *)
Definition to_uint8 {F} `{Float64 F} (v : F) : Z := (ftrunc v mod 256)%Z.

(** ** Materials, balls and scenes *)

Record material (F : Type) : Type := mkMaterial {
  luminous : bool;     (* emits light *)
  color : RGBA;
  roughness : F        (* degree of scattering between 0-1 *)
}.

Record ball (F : Type) : Type := mkBall {
  center : point F;
  radius : F;
  mat : material F
}.

(** [objects] holds pointers to balls in the source; [ball_reflect] writes
    through that pointer, so the scene is threaded through [scene_getColor]. *)
Record scene (F : Type) : Type := mkScene {
  objects : list (ball F);
  background : RGBA
}.

Arguments mkMaterial {F}. Arguments luminous {F}. Arguments color {F}.
Arguments roughness {F}.
Arguments mkBall {F}. Arguments center {F}. Arguments radius {F}.
Arguments mat {F}.
Arguments mkScene {F}. Arguments objects {F}. Arguments background {F}.

Section Engine.
Context {F : Type} `{Float64 F} `{Trig F}.
Local Open Scope f64_scope.

Definition ball_intersect (b : ball F) (r : ray F) : option (point F) :=
  (* find intersection using quadratic formula *)
  let xx := x (src r) - x (center b) in
  let yy := y (src r) - y (center b) in
  let zz := z (src r) - z (center b) in
  let dx := dx (dir r) in
  let dy := dy (dir r) in
  let dz := dz (dir r) in
  let aa := dx * dx + dy * dy + dz * dz in
  let bb := fofZ 2 * (xx * dx + yy * dy + zz * dz) in
  let cc := xx * xx + yy * yy + zz * zz - radius b * radius b in
  let radical := bb * bb - fofZ 4 * aa * cc in
  if radical <? fofZ 0 then None            (* imaginary solutions *)
  else
    let factor := (- bb - fsqrt radical) / (fofZ 2 * aa) in
    if factor <? tolerance then None        (* inside ball already *)
    else Some (ray_scale r factor).

(** [for angle := 0; angle < 360; angle += 5]. *)
Fixpoint angleLoop (fuel : nat) (angle : Z) : list Z :=
  match fuel with
  | O => []
  | S fuel' =>
      if (angle <? 360)%Z then angle :: angleLoop fuel' (angle + 5)%Z else []
  end.

Definition angles : list Z := angleLoop 73 0.

(** [for radius := 0.01; radius <= limit; radius += 0.05]. *)
Fixpoint radiusLoop (fuel : nat) (radius limit : F) : list F :=
  match fuel with
  | O => []
  | S fuel' =>
      if radius <=? limit
      then radius :: radiusLoop fuel' (radius + fconst 5 100) limit
      else []
  end.

(** The limit is at most 5 (the roughness is clamped to 1 first), so the
    loop leaves by its guard well within this many rounds
    ([radiusLoop_fuel]). *)
Definition radiusFuel : nat := 128.

Definition clampRoughness (b : ball F) : ball F :=
  mkBall (center b) (radius b)
         (mkMaterial (luminous (mat b)) (color (mat b)) (fofZ 1)).

(** Two vectors orthogonal to [outgoingDir]: [n1dir] before it is
    normalised, and [n2dirTemp]. *)
Definition orthogonalPair (outgoingDir : direction F)
  : direction F * direction F :=
  if negb (dx outgoingDir == fofZ 0) then
    (mkDirection (- (dy outgoingDir + dz outgoingDir) / dx outgoingDir)
                 (fofZ 1) (fofZ 1),
     mkDirection (- (dy outgoingDir + fofZ 2 * dz outgoingDir) / dx outgoingDir)
                 (fofZ 1) (fofZ 2))
  else if negb (dy outgoingDir == fofZ 0) then
    (mkDirection (fofZ 1)
                 (- (dx outgoingDir + dz outgoingDir) / dy outgoingDir)
                 (fofZ 1),
     mkDirection (fofZ 2)
                 (- (fofZ 2 * dx outgoingDir + dz outgoingDir) / dy outgoingDir)
                 (fofZ 1))
  else (* outgoingDir.dz must be non-zero *)
    (mkDirection (fofZ 1) (fofZ 1)
                 (- (dx outgoingDir + dy outgoingDir) / dz outgoingDir),
     mkDirection (fofZ 1) (fofZ 2)
                 (- (dx outgoingDir + fofZ 2 * dy outgoingDir) / dz outgoingDir)).

(** The body of the two nested loops: the ray scattered at [radius], [angle]. *)
Definition scatter (intersection : point F) (outgoingDir n1dir n2dir : direction F)
           (radius : F) (angle : Z) : ray F :=
  let radians := fofZ angle * fdeg in
  let n1s := fcos radians in
  let n2s := fsin radians in
  let shiftDir := mkDirection
    ((radius * norm outgoingDir) * (n1s * dx n1dir + n2s * dx n2dir))
    ((radius * norm outgoingDir) * (n1s * dy n1dir + n2s * dy n2dir))
    ((radius * norm outgoingDir) * (n1s * dz n1dir + n2s * dz n2dir)) in
  let newDir := mkDirection (dx outgoingDir + dx shiftDir)
                            (dy outgoingDir + dy shiftDir)
                            (dz outgoingDir + dz shiftDir) in
  mkRay intersection newDir.

(** [reflect] returns the outgoing rays, their weights and the colour; the
    fourth component is the ball as the call leaves it (the receiver is a
    pointer and the roughness is clamped in place). *)
Definition ball_reflect (b : ball F) (r : ray F) (intersection : point F)
  : list (ray F) * list F * RGBA * ball F :=
  if negb (luminous (mat b)) then
    let normal := ray_flip (getRay intersection (center b)) in
    let outgoingDir := rotateAround (dir (ray_flip r)) (dir normal) in
    let outgoingRay := mkRay intersection outgoingDir in
    if fofZ 0 <? roughness (mat b) then
      (* generate a random sphere of vectors around outgoingRay *)
      let b := if fofZ 1 <? roughness (mat b) then clampRoughness b else b in
      (* find two vectors orthogonal to outgoing dir *)
      let '(n1dir, n2dirTemp) := orthogonalPair outgoingDir in
      let n1dir := normalize n1dir in
      (* make n2dirTemp orthogonal to n1dir *)
      let parallelComp := dot n1dir n2dirTemp in
      let n2dir := normalize
        (mkDirection (dx n2dirTemp - parallelComp * dx n1dir)
                     (dy n2dirTemp - parallelComp * dy n1dir)
                     (dz n2dirTemp - parallelComp * dz n1dir)) in
      let radii :=
        radiusLoop radiusFuel (fconst 1 100) (fofZ 5 * roughness (mat b)) in
      let fan := flat_map (fun radius =>
                   map (scatter intersection outgoingDir n1dir n2dir radius)
                       angles) radii in
      (outgoingRay :: fan,
       fofZ 1 :: map (fun _ => fconst 1 72) fan,
       color (mat b), b)
    else ([outgoingRay], [fofZ 1], color (mat b), b)
  else ([], [], color (mat b), b).

(** The scan of [getColor] over [s.objects]: the state is
    [(minDist, minI, ipnt)], [i] the index of the head of [objs]. *)
Fixpoint hitLoop (objs : list (ball F)) (i : Z) (r : ray F)
         (st : F * Z * point F) : F * Z * point F :=
  match objs with
  | [] => st
  | o :: rest =>
      let '(minDist, minI, ipnt) := st in
      hitLoop rest (i + 1)%Z r
        match ball_intersect o r with
        | Some intersection =>
            let dist := norm (point_to (src r) intersection) in
            if (minDist <? fofZ 0) || (dist <? minDist)
            then (dist, i, intersection)
            else st
        | None => st
        end
  end.

Definition findNearestHit (s : scene F) (r : ray F) : F * Z * point F :=
  hitLoop (objects s) 0%Z r
          (fofZ (-1), (-1)%Z, mkPoint (fofZ 0) (fofZ 0) (fofZ 0)).

Fixpoint setObject (objs : list (ball F)) (i : nat) (b : ball F)
  : list (ball F) :=
  match objs, i with
  | [], _ => []
  | _ :: rest, O => b :: rest
  | o :: rest, S i' => o :: setObject rest i' b
  end.

(** The accumulators of the shading loop:
    [(totalWeight, finalR, finalG, finalB)]. *)
Definition accum : Type := (F * F * F * F)%type.

(** One round of the shading loop, once the colour [nc] of the outgoing ray
    is known; [(r, g, b)] are the widened channels of the base colour. *)
Definition accumulate (rgb : Z * Z * Z) (acc : accum) (nc : RGBA) (weight : F)
  : accum :=
  let '(r, g, b) := rgb in
  let '(totalWeight, finalR, finalG, finalB) := acc in
  let '(nr, ng, nb, na) := RGBA_RGBA nc in
  (totalWeight + weight,
   finalR + fofZ nr / fofZ na * fofZ r * weight,
   finalG + fofZ ng / fofZ na * fofZ g * weight,
   finalB + fofZ nb / fofZ na * fofZ b * weight).

(** The shading loop over the outgoing rays, [getColor] being [rec]. *)
Fixpoint shadeLoop (rec : scene F -> ray F -> option (RGBA * scene F))
         (rgb : Z * Z * Z) (outgoing : list (ray F)) (weights : list F)
         (acc : accum) (s : scene F) : option (accum * scene F) :=
  match outgoing, weights with
  | [], _ => Some (acc, s)
  | _ :: _, [] => None                      (* weights[i] out of range *)
  | outgoingRay :: outgoing', weight :: weights' =>
      match rec s outgoingRay with
      | None => None
      | Some (nc, s') =>
          shadeLoop rec rgb outgoing' weights'
                    (accumulate rgb acc nc weight) s'
      end
  end.

(** The colour returned after the loop. *)
Definition finish (a : Z) (acc : accum) : RGBA :=
  let '(totalWeight, finalR, finalG, finalB) := acc in
  let finalR := finalR / totalWeight in
  let finalG := finalG / totalWeight in
  let finalB := finalB / totalWeight in
  mkRGBA (to_uint8 (finalR / fofZ a * fofZ 255))
         (to_uint8 (finalG / fofZ a * fofZ 255))
         (to_uint8 (finalB / fofZ a * fofZ 255))
         255.

(** The branch [minI != -1] of [getColor]: the ray is shaded on the ball
    [collidesWith] at index [minI], hit at [ipnt]; [rec] is [getColor]. *)
Definition shadeHit (rec : scene F -> ray F -> option (RGBA * scene F))
           (s : scene F) (r : ray F) (minI : nat) (collidesWith : ball F)
           (ipnt : point F) : option (RGBA * scene F) :=
  let '(outgoing, weights, cc, collidesWith') :=
    ball_reflect collidesWith r ipnt in
  let s := mkScene (setObject (objects s) minI collidesWith') (background s) in
  match outgoing with
  | [] => Some (cc, s)                       (* luminous *)
  | _ :: _ =>
      let '(r, g, b, a) := RGBA_RGBA cc in
      match shadeLoop rec (r, g, b) outgoing weights
                      (fofZ 0, fofZ 0, fofZ 0, fofZ 0) s with
      | None => None
      | Some (acc, s') => Some (finish a acc, s')
      end
  end.

(** [getColor] has no bound on its recursion; [fuel] bounds the depth of the
    calls and [None] is a run that needs more. *)
Fixpoint scene_getColor (fuel : nat) (s : scene F) (r : ray F)
  : option (RGBA * scene F) :=
  match fuel with
  | O => None
  | S fuel' =>
      let '(_, minI, ipnt) := findNearestHit s r in
      if negb (minI =? -1)%Z then
        match nth_error (objects s) (Z.to_nat minI) with
        | None => None
        | Some collidesWith =>
            shadeHit (scene_getColor fuel') s r (Z.to_nat minI)
                     collidesWith ipnt
        end
      else Some (background s, s)
  end.

(** The ray [render] casts through the point [(x, y, 1)] of the image plane. *)
Definition cameraRay (x0 y0 : F) : ray F :=
  getRay (mkPoint (fofZ 0) (fofZ 0) (fofZ 0)) (mkPoint x0 y0 (fofZ 1)).
End Engine.

(** The scene built by [main]. *)
Definition greenBall {F} `{Float64 F} : ball F :=
  mkBall (mkPoint (fofZ (-10)) (fofZ 0) (fofZ 50)) (fofZ 1)
         (mkMaterial false (mkRGBA 0 255 0 255) (fofZ 1)).

Definition whiteBall {F} `{Float64 F} : ball F :=
  mkBall (mkPoint (fofZ 30) (fofZ 0) (fofZ 40)) (fofZ 30)
         (mkMaterial true (mkRGBA 255 255 255 255) (fofZ 0)).

Definition mainScene {F} `{Float64 F} : scene F :=
  mkScene [greenBall; whiteBall] (mkRGBA 32 32 32 255).

(** ** Rays *)

(** C10, as stated, fails: the flipped ray does not start at
    origin - direction.  On the ray from (1,2,3) along (1,0,0) the point at
    parameter -1 is (0,2,3), and the flipped ray still starts at (1,2,3). *)
Lemma ray_flip_origin_counterexample :
  let r : ray float := (mkRay (mkPoint 1 2 3) (mkDirection 1 0 0))%float in
  ray_scale r (fofZ (-1)) = (mkPoint 0 2 3)%float
  /\ src (ray_flip r) = (mkPoint 1 2 3)%float
  /\ src (ray_flip r) <> ray_scale r (fofZ (-1)).
Proof.
  cbv zeta. split; [|split]; [vm_compute; reflexivity..|].
  intro E. apply (f_equal (fun q => PrimFloat.eqb (x q) 1)) in E.
  vm_compute in E. discriminate E.
Qed.

(** C10, amended: flipping a ray keeps its origin; the new direction is the
    vector from the origin to the point at parameter -1 (origin - direction),
    which over the reals is the negated direction. *)
Theorem ray_flip_spec :
  (forall (F : Type) (A : Float64 F) (r : ray F),
      src (ray_flip r) = src r
      /\ dir (ray_flip r) = point_to (src r) (ray_scale r (fofZ (-1))))
  /\ (forall r : ray R,
         dir (ray_flip r) = mkDirection (- dx (dir r)) (- dy (dir r)) (- dz (dir r))
         /\ dir (ray_flip r) = direction_flip (dir r))%R.
Proof.
  split.
  - intros F A r. split; reflexivity.
  - intros [[sx sy sz] [ddx ddy ddz]]. split.
    + cbv [ray_flip getRay point_to ray_scale src dir x y z dx dy dz].
      cbn. f_equal; ring.
    + cbv [ray_flip getRay point_to ray_scale direction_flip direction_scale
             src dir x y z dx dy dz].
      cbn. f_equal; ring.
Qed.

(** ** Reading the arithmetic at the real numbers *)

Lemma Rltb_true (a b : R) : Rltb a b = true <-> (a < b)%R.
Proof. unfold Rltb. destruct (Rlt_dec a b); split; try easy; lra. Qed.

Lemma Rltb_false (a b : R) : Rltb a b = false <-> (b <= a)%R.
Proof. unfold Rltb. destruct (Rlt_dec a b); split; try easy; lra. Qed.

Lemma Rleb_true (a b : R) : Rleb a b = true <-> (a <= b)%R.
Proof. unfold Rleb. destruct (Rle_dec a b); split; try easy; lra. Qed.

Lemma Rleb_false (a b : R) : Rleb a b = false <-> (b < a)%R.
Proof. unfold Rleb. destruct (Rle_dec a b); split; try easy; lra. Qed.

Lemma Reqb_true (a b : R) : Reqb a b = true <-> a = b.
Proof. unfold Reqb. destruct (Req_dec_T a b); split; easy. Qed.

Lemma Reqb_false (a b : R) : Reqb a b = false <-> a <> b.
Proof. unfold Reqb. destruct (Req_dec_T a b); split; easy. Qed.

(** Unfold the interface at [R]. *)
Ltac at_R :=
  cbv [fconst tolerance] in *;
  cbn [fadd fsub fmul fdiv fopp fsqrt feqb fltb fleb fofZ ftrunc
       fcos fsin fdeg R_Float64 R_Trig] in *.

Ltac geom :=
  cbv [norm norm2 dot point_to ray_scale getRay ray_flip direction_flip
       direction_scale direction_add normalize rotateAround] in *;
  cbn [src dir x y z dx dy dz center radius mat] in *;
  at_R.

Lemma sqrt_sq_abs (a s : R) : (0 <= s)%R -> (s * s = a)%R -> sqrt a = s.
Proof. intros Hs <-. now apply sqrt_square. Qed.

Lemma sqrt_mul_self (a : R) : (0 <= a)%R -> (sqrt a * sqrt a = a)%R.
Proof. intro Ha. now apply sqrt_sqrt. Qed.

Lemma norm2_nonneg (d : direction R) : (0 <= norm2 d)%R.
Proof. destruct d as [a b c]. geom. nra. Qed.

Lemma norm_nonneg (d : direction R) : (0 <= norm d)%R.
Proof. unfold norm. at_R. apply sqrt_pos. Qed.

Lemma norm_sq (d : direction R) : (norm d * norm d = norm2 d)%R.
Proof. unfold norm. at_R. apply sqrt_mul_self, norm2_nonneg. Qed.

Lemma norm_pos (d : direction R) : norm2 d <> 0%R -> (0 < norm d)%R.
Proof.
  intro Hd. pose proof (norm_nonneg d). pose proof (norm_sq d).
  pose proof (norm2_nonneg d). nra.
Qed.

(** ** Intersection *)

(** The quadratic of section 4.2 of the specification, in its words:
    [originOffset = rayOrigin - sphereCenter], [a = |dir|^2],
    [b = 2 (originOffset . dir)], [c = |originOffset|^2 - radius^2]. *)
Definition originOffset (b : ball R) (r : ray R) : direction R :=
  point_to (center b) (src r).
Definition quad_a (r : ray R) : R := norm2 (dir r).
Definition quad_b (b : ball R) (r : ray R) : R :=
  (2 * dot (originOffset b r) (dir r))%R.
Definition quad_c (b : ball R) (r : ray R) : R :=
  (norm2 (originOffset b r) - radius b * radius b)%R.
Definition discriminant (b : ball R) (r : ray R) : R :=
  (quad_b b r * quad_b b r - 4 * quad_a r * quad_c b r)%R.
Definition smaller_root (b : ball R) (r : ray R) : R :=
  ((- quad_b b r - sqrt (discriminant b r)) / (2 * quad_a r))%R.

(** [p] lies on the surface of [b]. *)
Definition on_sphere (b : ball R) (p : point R) : Prop :=
  norm2 (point_to (center b) p) = (radius b * radius b)%R.

Lemma intersect_unfold (b : ball R) (r : ray R) :
  ball_intersect b r =
  if Rltb (discriminant b r) 0 then None
  else if Rltb (smaller_root b r) (1 / 1000) then None
       else Some (ray_scale r (smaller_root b r)).
Proof.
  destruct b as [[cx cy cz] rad m], r as [[sx sy sz] [ddx ddy ddz]].
  unfold ball_intersect, smaller_root, discriminant, quad_a, quad_b, quad_c,
    originOffset.
  geom. reflexivity.
Qed.

Lemma quadratic_at (b : ball R) (r : ray R) (t : R) :
  (norm2 (point_to (center b) (ray_scale r t)) - radius b * radius b
   = quad_a r * t * t + quad_b b r * t + quad_c b r)%R.
Proof.
  unfold quad_a, quad_b, quad_c, originOffset.
  destruct b as [[cx cy cz] rad m], r as [[sx sy sz] [ddx ddy ddz]].
  geom. ring.
Qed.

Lemma smaller_root_is_root (b : ball R) (r : ray R) :
  quad_a r <> 0%R -> (0 <= discriminant b r)%R ->
  (quad_a r * smaller_root b r * smaller_root b r
   + quad_b b r * smaller_root b r + quad_c b r = 0)%R.
Proof.
  intros Ha Hd. unfold smaller_root.
  pose proof (sqrt_mul_self _ Hd) as Hs.
  set (s := sqrt (discriminant b r)) in *.
  unfold discriminant in Hs.
  set (A := quad_a r) in *. set (B := quad_b b r) in *.
  set (C := quad_c b r) in *.
  assert (E : (A * ((- B - s) / (2 * A)) * ((- B - s) / (2 * A))
               + B * ((- B - s) / (2 * A)) + C
               = (s * s - (B * B - 4 * A * C)) / (4 * A))%R) by (field; exact Ha).
  rewrite E, Hs. field. exact Ha.
Qed.

Lemma smaller_root_least (b : ball R) (r : ray R) (t : R) :
  quad_a r <> 0%R -> (0 <= discriminant b r)%R ->
  (quad_a r * t * t + quad_b b r * t + quad_c b r = 0)%R ->
  (smaller_root b r <= t)%R.
Proof.
  intros Ha Hd Ht. unfold smaller_root.
  pose proof (sqrt_mul_self _ Hd) as Hs.
  pose proof (sqrt_pos (discriminant b r)) as Hs0.
  set (s := sqrt (discriminant b r)) in *.
  unfold discriminant in Hs.
  pose proof (norm2_nonneg (dir r)) as Ha0. fold (quad_a r) in Ha0.
  set (A := quad_a r) in *. set (B := quad_b b r) in *.
  set (C := quad_c b r) in *.
  assert (HA : (0 < A)%R) by lra.
  apply Rmult_le_reg_r with (2 * A)%R; [lra|].
  replace ((- B - s) / (2 * A) * (2 * A))%R with (- B - s)%R by (field; lra).
  assert (Hsq : ((2 * A * t + B) * (2 * A * t + B) = s * s)%R) by nra.
  nra.
Qed.

(** A ray aimed at the centre of the ball: the entry parameter and the
    distance of the entry point from the origin of the ray. *)
Lemma aimed_at_center (b : ball R) (r : ray R) (k : R) :
  (0 < k)%R -> (0 <= radius b)%R ->
  dir r = direction_scale (point_to (src r) (center b)) k ->
  (radius b < norm (point_to (src r) (center b)))%R ->
  (0 <= discriminant b r)%R
  /\ norm (dir r) = (k * norm (point_to (src r) (center b)))%R
  /\ smaller_root b r
     = ((norm (point_to (src r) (center b)) - radius b) / norm (dir r))%R
  /\ norm (point_to (src r) (ray_scale r (smaller_root b r)))
     = (norm (point_to (src r) (center b)) - radius b)%R.
Proof.
  intros Hk Hr Hdir HD.
  pose proof (norm_sq (point_to (src r) (center b))) as HDD.
  pose proof (norm_nonneg (point_to (src r) (center b))) as HD0.
  destruct b as [[cx cy cz] rad m], r as [[sx sy sz] d].
  cbn [dir src center radius] in *. subst d.
  remember (norm (point_to (mkPoint sx sy sz) (mkPoint cx cy cz))) as D eqn:ED.
  clear ED.
  assert (Hdisc : discriminant (mkBall (mkPoint cx cy cz) rad m)
            (mkRay (mkPoint sx sy sz)
               (direction_scale
                  (point_to (mkPoint sx sy sz) (mkPoint cx cy cz)) k))
          = ((2 * k * D * rad) * (2 * k * D * rad))%R).
  { unfold discriminant, quad_a, quad_b, quad_c, originOffset. geom.
    replace ((2 * k * D * rad) * (2 * k * D * rad))%R
      with (4 * (k * k) * (rad * rad) * (D * D))%R by ring.
    rewrite HDD. ring. }
  assert (Hnorm : norm (direction_scale
                    (point_to (mkPoint sx sy sz) (mkPoint cx cy cz)) k)
                  = (k * D)%R).
  { unfold norm. at_R. apply sqrt_sq_abs; [nra|].
    replace (k * D * (k * D))%R with (k * k * (D * D))%R by ring.
    rewrite HDD. geom. ring. }
  assert (Hroot : smaller_root (mkBall (mkPoint cx cy cz) rad m)
            (mkRay (mkPoint sx sy sz)
               (direction_scale
                  (point_to (mkPoint sx sy sz) (mkPoint cx cy cz)) k))
          = ((D - rad) / (k * D))%R).
  { unfold smaller_root. rewrite Hdisc.
    assert (H0 : (0 <= 2 * k * D * rad)%R).
    { apply Rmult_le_pos; [|exact Hr]. apply Rmult_le_pos; lra. }
    rewrite (sqrt_sq_abs _ (2 * k * D * rad)%R H0 eq_refl).
    unfold quad_a, quad_b, originOffset. geom.
    replace ((sx - cx) * (k * (cx - sx)) + (sy - cy) * (k * (cy - sy))
             + (sz - cz) * (k * (cz - sz)))%R with (- k * (D * D))%R
      by (rewrite HDD; ring).
    replace (k * (cx - sx) * (k * (cx - sx)) + k * (cy - sy) * (k * (cy - sy))
             + k * (cz - sz) * (k * (cz - sz)))%R with (k * k * (D * D))%R
      by (rewrite HDD; ring).
    field. split; lra. }
  split; [rewrite Hdisc; nra|]. split; [exact Hnorm|].
  split; [rewrite Hroot, Hnorm; reflexivity|].
  rewrite Hroot. set (t := ((D - rad) / (k * D))%R).
  assert (Ht : (t * (k * D) = D - rad)%R) by (unfold t; field; split; lra).
  unfold norm. at_R. apply sqrt_sq_abs; [lra|].
  rewrite <- Ht.
  replace (t * (k * D) * (t * (k * D)))%R with (t * t * (k * k) * (D * D))%R
    by ring.
  rewrite HDD. geom. ring.
Qed.

Lemma norm_gt_sq (d : direction R) (a : R) :
  (0 <= a)%R -> (a < norm d)%R -> (a * a < norm2 d)%R.
Proof. intros Ha Hlt. rewrite <- norm_sq. nra. Qed.

Lemma norm_lt_sq (d : direction R) (a : R) :
  (norm d < a)%R -> (norm2 d < a * a)%R.
Proof. intros Hlt. pose proof (norm_nonneg d). rewrite <- norm_sq. nra. Qed.

Lemma on_sphere_root (b : ball R) (r : ray R) (t : R) :
  on_sphere b (ray_scale r t) <->
  (quad_a r * t * t + quad_b b r * t + quad_c b r = 0)%R.
Proof.
  unfold on_sphere. pose proof (quadratic_at b r t). split; intro; lra.
Qed.

Lemma intersect_none_disc (b : ball R) (r : ray R) :
  (discriminant b r < 0)%R -> ball_intersect b r = None.
Proof.
  intro Hd. rewrite intersect_unfold. apply Rltb_true in Hd. now rewrite Hd.
Qed.

Lemma intersect_none_low (b : ball R) (r : ray R) :
  (smaller_root b r < tolerance)%R -> ball_intersect b r = None.
Proof.
  intro Ht. rewrite intersect_unfold.
  destruct (Rltb (discriminant b r) 0); [reflexivity|].
  at_R. apply Rltb_true in Ht. now rewrite Ht.
Qed.

Lemma intersect_some (b : ball R) (r : ray R) :
  (0 <= discriminant b r)%R -> (tolerance <= smaller_root b r)%R ->
  ball_intersect b r = Some (ray_scale r (smaller_root b r)).
Proof.
  intros Hd Ht. rewrite intersect_unfold.
  apply Rltb_false in Hd. rewrite Hd.
  at_R. apply Rltb_false in Ht. now rewrite Ht.
Qed.

(** C2, as stated, fails: the ray from (0,0,-1025/1024) towards the centre
    (0,0,0) of the unit ball starts at distance 1025/1024 > 1 and reports no
    hit, in binary64 and in real arithmetic alike: the entry parameter
    1/1025 is below the tolerance. *)
Lemma intersect_aimed_counterexample :
  (let b : ball float :=
     (mkBall (mkPoint 0 0 0) 1 (mkMaterial false (mkRGBA 0 0 0 255) 0))%float in
   let r : ray float := getRay (mkPoint 0 0 (-1.0009765625))%float (center b) in
   PrimFloat.ltb (radius b) (norm (point_to (src r) (center b))) = true
   /\ ball_intersect b r = None)
  /\
  (let b : ball R :=
     (mkBall (mkPoint 0 0 0) 1 (mkMaterial false (mkRGBA 0 0 0 255) 0))%R in
   let r : ray R := getRay (mkPoint 0 0 (- (1025 / 1024)))%R (center b) in
   (radius b < norm (point_to (src r) (center b)))%R
   /\ ball_intersect b r = None).
Proof.
  split.
  - cbv zeta. split; vm_compute; reflexivity.
  - intros b r.
    assert (HD : norm (point_to (src r) (center b)) = (1025 / 1024)%R).
    { unfold r, b. geom. apply sqrt_sq_abs; lra. }
    assert (Hr : (radius b < norm (point_to (src r) (center b)))%R).
    { rewrite HD. unfold b. cbn. lra. }
    split; [exact Hr|].
    destruct (aimed_at_center b r 1) as (Hd & Hn & Hroot & _).
    + lra.
    + unfold b. cbn. lra.
    + unfold r, b. geom. f_equal; ring.
    + exact Hr.
    + rewrite intersect_unfold.
      destruct (Rltb (discriminant b r) 0); [reflexivity|].
      replace (Rltb (smaller_root b r) (1 / 1000)) with true; [reflexivity|].
      symmetry. apply Rltb_true. rewrite Hroot, Hn, HD. unfold b. cbn. lra.
Qed.

(** C2, amended.  Over the reals (the arithmetic of float64 read as exact),
    for a ray of non-zero direction, [intersect] solves the
    quadratic of the specification: it reports no intersection when the
    discriminant is negative or the smaller root is below the tolerance
    0.001, and otherwise returns the point of the ray at the smaller root,
    the first point of the line on the sphere.  Consequently: a ray aimed at
    the centre from distance D > radius hits at distance D - radius exactly
    when its entry parameter (D - radius)/|dir| is at least the tolerance
    (and reports no hit otherwise); a ray whose line stays farther than the
    radius from the centre misses; a ray that starts inside the ball, or
    that meets the sphere only at parameters below the tolerance, reports
    no hit. *)
Theorem intersect_spec (b : ball R) (r : ray R) :
  norm2 (dir r) <> 0%R ->
  ((discriminant b r < 0)%R -> ball_intersect b r = None)
  /\ ((0 <= discriminant b r)%R -> (smaller_root b r < tolerance)%R ->
      ball_intersect b r = None)
  /\ ((0 <= discriminant b r)%R -> (tolerance <= smaller_root b r)%R ->
      ball_intersect b r = Some (ray_scale r (smaller_root b r))
      /\ on_sphere b (ray_scale r (smaller_root b r))
      /\ forall t, on_sphere b (ray_scale r t) -> (smaller_root b r <= t)%R)
  /\ (forall k : R,
        (0 < k)%R ->
        dir r = direction_scale (point_to (src r) (center b)) k ->
        (0 <= radius b)%R ->
        (radius b < norm (point_to (src r) (center b)))%R ->
        ((tolerance
          <= (norm (point_to (src r) (center b)) - radius b) / norm (dir r))%R ->
         exists p, ball_intersect b r = Some p
                   /\ norm (point_to (src r) p)
                      = (norm (point_to (src r) (center b)) - radius b)%R)
        /\ (((norm (point_to (src r) (center b)) - radius b) / norm (dir r)
             < tolerance)%R ->
            ball_intersect b r = None))
  /\ ((0 <= radius b)%R ->
      (forall t, (radius b < norm (point_to (center b) (ray_scale r t)))%R) ->
      ball_intersect b r = None)
  /\ ((norm (point_to (center b) (src r)) < radius b)%R ->
      ball_intersect b r = None)
  /\ ((forall t, on_sphere b (ray_scale r t) -> (t < tolerance)%R) ->
      ball_intersect b r = None).
Proof.
  intro Ha. fold (quad_a r) in Ha.
  pose proof (intersect_none_disc b r) as Hneg.
  pose proof (intersect_none_low b r) as Hlow.
  pose proof (intersect_some b r) as Hhit.
  split; [exact Hneg|]. split; [intros _; exact Hlow|].
  split.
  { intros Hd Ht. split; [now apply Hhit|]. split.
    - apply on_sphere_root. now apply smaller_root_is_root.
    - intros t Hon. apply smaller_root_least; trivial.
      now apply on_sphere_root. }
  split.
  { intros k Hk Hdir Hr HD.
    destruct (aimed_at_center b r k Hk Hr Hdir HD) as (Hd & Hn & Hroot & Hdist).
    rewrite <- Hroot. split.
    - intro Ht. exists (ray_scale r (smaller_root b r)). split; [|exact Hdist].
      now apply Hhit.
    - exact Hlow. }
  split.
  { intros Hr Hfar. apply Hneg.
    specialize (Hfar (- quad_b b r / (2 * quad_a r))%R).
    apply norm_gt_sq in Hfar; [|exact Hr].
    pose proof (quadratic_at b r (- quad_b b r / (2 * quad_a r))%R) as Hq.
    pose proof (norm2_nonneg (dir r)) as Ha0. fold (quad_a r) in Ha0.
    unfold discriminant.
    set (A := quad_a r) in *. set (B := quad_b b r) in *.
    set (C := quad_c b r) in *.
    assert (E : (A * (- B / (2 * A)) * (- B / (2 * A)) + B * (- B / (2 * A)) + C
                 = (4 * A * C - B * B) / (4 * A))%R) by (field; exact Ha).
    rewrite E in Hq.
    assert (Hpos : (0 < (4 * A * C - B * B) / (4 * A))%R) by lra.
    assert (HA : (0 < 4 * A)%R) by lra.
    apply (Rmult_lt_compat_r (4 * A)%R) in Hpos; [|exact HA].
    replace ((4 * A * C - B * B) / (4 * A) * (4 * A))%R
      with (4 * A * C - B * B)%R in Hpos by (field; exact Ha).
    lra. }
  split.
  { intro Hin. apply Hlow. at_R.
    apply norm_lt_sq in Hin. fold (originOffset b r) in Hin.
    assert (HC : (quad_c b r < 0)%R) by (unfold quad_c; lra).
    pose proof (norm2_nonneg (dir r)) as Ha0. fold (quad_a r) in Ha0.
    assert (Hd : (0 <= discriminant b r)%R) by (unfold discriminant; nra).
    pose proof (sqrt_mul_self _ Hd) as Hs.
    pose proof (sqrt_pos (discriminant b r)) as Hs0.
    unfold smaller_root.
    set (s := sqrt (discriminant b r)) in *. unfold discriminant in Hs.
    set (A := quad_a r) in *. set (B := quad_b b r) in *.
    set (C := quad_c b r) in *.
    assert (HA : (0 < A)%R) by lra.
    assert (Hnum : (- B - s < 0)%R) by nra.
    assert (Hq : ((- B - s) / (2 * A) < 0)%R).
    { apply Rmult_lt_reg_r with (2 * A)%R; [lra|].
      replace ((- B - s) / (2 * A) * (2 * A))%R with (- B - s)%R
        by (field; lra).
      lra. }
    lra. }
  { intro Honly.
    destruct (Rlt_le_dec (discriminant b r) 0) as [Hd|Hd]; [now apply Hneg|].
    apply Hlow, Honly. apply on_sphere_root. now apply smaller_root_is_root. }
Qed.

Lemma intersect_spec_witness :
  let b : ball R :=
    (mkBall (mkPoint 0 0 0) 1 (mkMaterial false (mkRGBA 0 0 0 255) 0))%R in
  let r : ray R := (mkRay (mkPoint 0 0 (-3)) (mkDirection 0 0 1))%R in
  norm2 (dir r) <> 0%R
  /\ exists p, ball_intersect b r = Some p
               /\ norm (point_to (src r) p) = 2%R.
Proof.
  intros b r.
  assert (Hd : norm2 (dir r) <> 0%R) by (unfold r; geom; lra).
  split; [exact Hd|].
  destruct (intersect_spec b r Hd) as (_ & _ & _ & Haim & _).
  assert (HD : norm (point_to (src r) (center b)) = 3%R).
  { unfold r, b. geom. apply sqrt_sq_abs; lra. }
  assert (Hn : norm (dir r) = 1%R).
  { unfold r. geom. apply sqrt_sq_abs; lra. }
  destruct (Haim (1 / 3)%R) as [Hhit _].
  - lra.
  - unfold r, b. geom. f_equal; lra.
  - unfold b. cbn. lra.
  - rewrite HD. unfold b. cbn. lra.
  - destruct Hhit as (p & Hp & Hdist).
    + rewrite HD, Hn. unfold b. at_R. cbn. lra.
    + exists p. split; [exact Hp|]. rewrite Hdist, HD. unfold b. cbn. lra.
Defined.

Lemma intersect_Some_inv (b : ball R) (r : ray R) (p : point R) :
  ball_intersect b r = Some p ->
  (0 <= discriminant b r)%R /\ (tolerance <= smaller_root b r)%R
  /\ p = ray_scale r (smaller_root b r).
Proof.
  rewrite intersect_unfold. at_R.
  destruct (Rltb (discriminant b r) 0) eqn:Hd; [discriminate|].
  destruct (Rltb (smaller_root b r) (1 / 1000)) eqn:Ht; [discriminate|].
  intro E. injection E as <-.
  apply Rltb_false in Hd, Ht. auto.
Qed.

(** A hit lies on the sphere. *)
Lemma intersect_on_sphere (b : ball R) (r : ray R) (p : point R) :
  norm2 (dir r) <> 0%R -> ball_intersect b r = Some p -> on_sphere b p.
Proof.
  intros Ha Hp. apply intersect_Some_inv in Hp as (Hd & _ & ->).
  apply on_sphere_root. now apply smaller_root_is_root.
Qed.

(** ** Reflection *)

(** The mirror image of the direction [d] in the plane of unit normal [n]:
    [d - 2 (d . n) n]. *)
Definition mirror (d n : direction R) : direction R :=
  mkDirection (dx d - 2 * dot d n * dx n)%R
              (dy d - 2 * dot d n * dy n)%R
              (dz d - 2 * dot d n * dz n)%R.

Lemma ray_flip_dir (r : ray R) : dir (ray_flip r) = direction_flip (dir r).
Proof. destruct r as [[sx sy sz] [a b c]]. geom. f_equal; ring. Qed.

Lemma normal_dir (c p : point R) :
  dir (ray_flip (getRay p c)) = point_to c p.
Proof. destruct c as [cx cy cz], p as [px py pz]. geom. f_equal; ring. Qed.

Lemma rotateAround_mirror (d nrm : direction R) :
  rotateAround (direction_flip d) nrm = mirror d (normalize nrm).
Proof.
  unfold rotateAround, mirror, dot.
  destruct (normalize nrm) as [nx ny nz], d as [a b c].
  cbv [direction_flip direction_scale]. cbn [dx dy dz]. at_R.
  f_equal; ring.
Qed.

Lemma normalize_unit (w : direction R) :
  norm2 w <> 0%R -> dot (normalize w) (normalize w) = 1%R.
Proof.
  intro Hw. pose proof (norm_pos w Hw) as HN. pose proof (norm_sq w) as HNN.
  unfold normalize, dot. cbn [dx dy dz]. at_R.
  set (N := norm w) in *.
  replace (dx w / N * (dx w / N) + dy w / N * (dy w / N)
           + dz w / N * (dz w / N))%R with (norm2 w / (N * N))%R.
  - rewrite HNN. field. exact Hw.
  - unfold norm2. at_R. field. lra.
Qed.

Lemma mirror_dot (d n : direction R) :
  dot n n = 1%R -> dot (mirror d n) n = (- dot d n)%R.
Proof.
  intro Hn. destruct d as [a b c], n as [nx ny nz].
  unfold mirror, dot in *. cbn [dx dy dz] in *. at_R.
  replace ((a - 2 * (a * nx + b * ny + c * nz) * nx) * nx
           + (b - 2 * (a * nx + b * ny + c * nz) * ny) * ny
           + (c - 2 * (a * nx + b * ny + c * nz) * nz) * nz)%R
    with ((a * nx + b * ny + c * nz)
          - 2 * (a * nx + b * ny + c * nz) * (nx * nx + ny * ny + nz * nz))%R
    by ring.
  rewrite Hn. ring.
Qed.

Lemma mirror_norm2 (d n : direction R) :
  dot n n = 1%R -> norm2 (mirror d n) = norm2 d.
Proof.
  intro Hn. destruct d as [a b c], n as [nx ny nz].
  unfold mirror, dot, norm2 in *. cbn [dx dy dz] in *. at_R.
  set (k := (a * nx + b * ny + c * nz)%R) in *.
  replace ((a - 2 * k * nx) * (a - 2 * k * nx)
           + (b - 2 * k * ny) * (b - 2 * k * ny)
           + (c - 2 * k * nz) * (c - 2 * k * nz))%R
    with (a * a + b * b + c * c - 4 * k * (a * nx + b * ny + c * nz)
          + 4 * k * k * (nx * nx + ny * ny + nz * nz))%R by ring.
  rewrite Hn. fold k. ring.
Qed.

(** The ideal reflected direction computed by [reflect]. *)
Lemma outgoingDir_mirror (b : ball R) (r : ray R) (p : point R) :
  rotateAround (dir (ray_flip r)) (dir (ray_flip (getRay p (center b))))
  = mirror (dir r) (normalize (point_to (center b) p)).
Proof. now rewrite ray_flip_dir, normal_dir, rotateAround_mirror. Qed.

(** [reflect] on a non-luminous material of roughness 0. *)
Lemma reflect_smooth (b : ball R) (r : ray R) (p : point R) :
  luminous (mat b) = false -> roughness (mat b) = 0%R ->
  ball_reflect b r p
  = ([mkRay p (mirror (dir r) (normalize (point_to (center b) p)))],
     [1%R], color (mat b), b).
Proof.
  intros Hlum Hrough. unfold ball_reflect. rewrite Hlum, Hrough.
  cbn [negb]. at_R.
  replace (Rltb 0 0) with false by (symmetry; apply Rltb_false; lra).
  now rewrite outgoingDir_mirror.
Qed.

(** A ray that starts on the sphere does not hit it: its entry parameter
    is not positive. *)
Lemma on_sphere_src_miss (b : ball R) (r : ray R) :
  on_sphere b (src r) -> norm2 (dir r) <> 0%R -> ball_intersect b r = None.
Proof.
  intros Hon Ha. apply intersect_none_low. at_R.
  assert (HC : quad_c b r = 0%R).
  { unfold quad_c, originOffset. unfold on_sphere in Hon. lra. }
  pose proof (norm2_nonneg (dir r)) as Ha0.
  fold (quad_a r) in Ha, Ha0.
  assert (Hd : (0 <= discriminant b r)%R) by (unfold discriminant; nra).
  pose proof (sqrt_mul_self _ Hd) as Hs.
  pose proof (sqrt_pos (discriminant b r)) as Hs0.
  unfold smaller_root.
  set (s := sqrt (discriminant b r)) in *. unfold discriminant in Hs.
  set (A := quad_a r) in *. set (B := quad_b b r) in *.
  set (C := quad_c b r) in *.
  assert (HA : (0 < A)%R) by lra.
  assert (Hnum : (- B - s <= 0)%R) by nra.
  assert (Hq : ((- B - s) / (2 * A) <= 0)%R).
  { apply Rmult_le_reg_r with (2 * A)%R; [lra|].
    replace ((- B - s) / (2 * A) * (2 * A))%R with (- B - s)%R
      by (field; lra).
    lra. }
  lra.
Qed.

(** C1, amended.  Over the reals (the arithmetic of float64 read as exact):
    on a non-luminous ball of roughness 0 and positive radius, a ray of
    non-zero direction that hits at [p] is reflected into exactly one
    ray: it starts at [p], has weight 1, and its direction is the mirror
    image [d - 2 (d . n) n] of the incoming direction [d] about the unit
    outward normal [n] at [p]; hence [out . n = - (d . n)] and
    [|out| = |d|]: the angles of incidence and reflection agree.  (In
    binary64 the direction is obtained through [r.flip()], that is
    [(src - dir) - src], and can differ from the mirror image.) *)
Theorem reflect_mirror (b : ball R) (r : ray R) (p : point R) :
  luminous (mat b) = false ->
  roughness (mat b) = 0%R ->
  (0 < radius b)%R ->
  norm2 (dir r) <> 0%R ->
  ball_intersect b r = Some p ->
  let n := normalize (point_to (center b) p) in
  let out := mirror (dir r) n in
  ball_reflect b r p = ([mkRay p out], [1%R], color (mat b), b)
  /\ n = direction_scale (point_to (center b) p) (1 / radius b)%R
  /\ dot n n = 1%R
  /\ dot out n = (- dot (dir r) n)%R
  /\ norm out = norm (dir r).
Proof.
  intros Hlum Hrough Hrad Hdir Hhit n out.
  pose proof (intersect_on_sphere b r p Hdir Hhit) as Hon.
  unfold on_sphere in Hon.
  assert (Hw : norm2 (point_to (center b) p) <> 0%R) by nra.
  assert (Hn : dot n n = 1%R) by (now apply normalize_unit).
  split; [now apply reflect_smooth|].
  split.
  { unfold n, normalize, direction_scale.
    replace (norm (point_to (center b) p)) with (radius b).
    - at_R. f_equal; field; lra.
    - symmetry. unfold norm. at_R. apply sqrt_sq_abs; [lra|]. now rewrite Hon. }
  split; [exact Hn|]. split; [now apply mirror_dot|].
  unfold norm. f_equal. now apply mirror_norm2.
Qed.

(** A concrete configuration over [R]: the unit ball at the origin, of a
    given material, and the ray from (0,0,-3) along the z axis, which enters
    the ball at (0,0,-1). *)
Definition unitBall (m : material R) : ball R :=
  mkBall (mkPoint 0 0 0)%R 1%R m.
Definition zRay : ray R := (mkRay (mkPoint 0 0 (-3)) (mkDirection 0 0 1))%R.
Definition zHit : point R := (mkPoint 0 0 (-1))%R.
Definition matte (rough : R) : material R :=
  mkMaterial false (mkRGBA 200 100 50 255) rough.

Lemma zRay_dir : norm2 (dir zRay) <> 0%R.
Proof. unfold zRay. geom. lra. Qed.

Lemma zRay_hit (m : material R) : ball_intersect (unitBall m) zRay = Some zHit.
Proof.
  assert (Hd : discriminant (unitBall m) zRay = (2 * 2)%R).
  { unfold discriminant, quad_a, quad_b, quad_c, originOffset, unitBall, zRay.
    geom. ring. }
  assert (Hs : smaller_root (unitBall m) zRay = 2%R).
  { unfold smaller_root. rewrite Hd, sqrt_square by lra.
    unfold quad_a, quad_b, originOffset, unitBall, zRay. geom. field. }
  rewrite intersect_unfold, Hs, Hd.
  replace (Rltb (2 * 2) 0) with false by (symmetry; apply Rltb_false; lra).
  replace (Rltb 2 (1 / 1000)) with false by (symmetry; apply Rltb_false; lra).
  unfold zRay, zHit. geom. do 2 f_equal; ring.
Qed.

Lemma reflect_mirror_witness :
  luminous (mat (unitBall (matte 0))) = false
  /\ roughness (mat (unitBall (matte 0))) = 0%R
  /\ (0 < radius (unitBall (matte 0)))%R
  /\ norm2 (dir zRay) <> 0%R
  /\ ball_intersect (unitBall (matte 0)) zRay = Some zHit
  /\ ball_reflect (unitBall (matte 0)) zRay zHit
     = ([mkRay zHit
           (mirror (dir zRay)
                   (normalize (point_to (center (unitBall (matte 0))) zHit)))],
        [1%R], mkRGBA 200 100 50 255, unitBall (matte 0)).
Proof.
  assert (H1 : luminous (mat (unitBall (matte 0))) = false) by reflexivity.
  assert (H2 : roughness (mat (unitBall (matte 0))) = 0%R) by reflexivity.
  assert (H3 : (0 < radius (unitBall (matte 0)))%R) by (cbn; lra).
  repeat (split; [first [exact H1 | exact H2 | exact H3 | exact zRay_dir
                        | apply zRay_hit]|]).
  exact (proj1 (reflect_mirror (unitBall (matte 0)) zRay zHit
                               H1 H2 H3 zRay_dir (zRay_hit _))).
Defined.

(** ** Shading: facts that hold in every arithmetic *)

Section Shading.
Context {F : Type} `{Float64 F} `{Trig F}.

Lemma hitLoop_miss (objs : list (ball F)) (i : Z) (r : ray F)
      (st : F * Z * point F) :
  (forall o, In o objs -> ball_intersect o r = None) ->
  hitLoop objs i r st = st.
Proof.
  revert i st. induction objs as [|o rest IH]; intros i st Hmiss.
  - reflexivity.
  - cbn [hitLoop]. destruct st as [[minDist minI] ipnt].
    rewrite (Hmiss o) by (left; reflexivity).
    apply IH. intros o' Ho'. apply Hmiss. right. exact Ho'.
Qed.

Lemma setObject_same (objs : list (ball F)) (i : nat) (o : ball F) :
  nth_error objs i = Some o -> setObject objs i o = objs.
Proof.
  revert i. induction objs as [|o' rest IH]; intros [|i] Hi; cbn in *;
    try discriminate.
  - now injection Hi as ->.
  - f_equal. now apply IH.
Qed.

Lemma reflect_luminous (b : ball F) (r : ray F) (p : point F) :
  luminous (mat b) = true ->
  ball_reflect b r p = ([], [], color (mat b), b).
Proof. intro Hlum. unfold ball_reflect. now rewrite Hlum. Qed.

(** The ball as [reflect] leaves it. *)
Lemma reflect_ball (b : ball F) (r : ray F) (p : point F) :
  snd (ball_reflect b r p)
  = if negb (luminous (mat b))
       && fltb (fofZ 0) (roughness (mat b))
       && fltb (fofZ 1) (roughness (mat b))
    then clampRoughness b else b.
Proof.
  unfold ball_reflect.
  destruct (luminous (mat b)); cbn [negb andb]; [reflexivity|].
  destruct (fltb (fofZ 0) (roughness (mat b))); cbn [andb]; [|reflexivity].
  destruct (orthogonalPair _) as [n1dir n2dirTemp].
  destruct (fltb (fofZ 1) (roughness (mat b))); reflexivity.
Qed.

Lemma reflect_color (b : ball F) (r : ray F) (p : point F) :
  snd (fst (ball_reflect b r p)) = color (mat b).
Proof.
  unfold ball_reflect.
  destruct (luminous (mat b)); cbn [negb]; [reflexivity|].
  destruct (fltb (fofZ 0) (roughness (mat b))); [|reflexivity].
  destruct (orthogonalPair _) as [n1dir n2dirTemp].
  destruct (fltb (fofZ 1) (roughness (mat b))); reflexivity.
Qed.

Lemma getColor_miss (s : scene F) (r : ray F) (fuel : nat) :
  (forall o, In o (objects s) -> ball_intersect o r = None) ->
  scene_getColor (S fuel) s r = Some (background s, s).
Proof.
  intro Hmiss. cbn [scene_getColor]. unfold findNearestHit.
  rewrite hitLoop_miss by exact Hmiss. reflexivity.
Qed.

Lemma getColor_hit (s : scene F) (r : ray F) (fuel : nat) (o : ball F)
      (minDist : F) (minI : Z) (ipnt : point F) :
  findNearestHit s r = (minDist, minI, ipnt) ->
  minI <> (-1)%Z ->
  nth_error (objects s) (Z.to_nat minI) = Some o ->
  scene_getColor (S fuel) s r
  = shadeHit (scene_getColor fuel) s r (Z.to_nat minI) o ipnt.
Proof.
  intros Hhit Hi Ho. cbn [scene_getColor]. rewrite Hhit.
  apply Z.eqb_neq in Hi. rewrite Hi. cbn [negb]. now rewrite Ho.
Qed.

Lemma getColor_luminous (s : scene F) (r : ray F) (fuel : nat) (o : ball F)
      (minDist : F) (minI : Z) (ipnt : point F) :
  findNearestHit s r = (minDist, minI, ipnt) ->
  minI <> (-1)%Z ->
  nth_error (objects s) (Z.to_nat minI) = Some o ->
  luminous (mat o) = true ->
  scene_getColor (S fuel) s r = Some (color (mat o), s).
Proof.
  intros Hhit Hi Ho Hlum. cbn [scene_getColor]. rewrite Hhit.
  apply Z.eqb_neq in Hi. rewrite Hi. cbn [negb]. rewrite Ho.
  unfold shadeHit. rewrite (reflect_luminous o r ipnt Hlum).
  rewrite (setObject_same _ _ _ Ho). now destruct s.
Qed.
End Shading.

(** C7.  A ray that intersects no shape of the scene is shaded with the
    background colour (and leaves the scene as it was); in the scene of
    [main] that colour is (32,32,32,255). *)
Theorem miss_background (F : Type) (A : Float64 F) (T : Trig F)
        (s : scene F) (r : ray F) (fuel : nat) :
  (forall o, In o (objects s) -> ball_intersect o r = None) ->
  scene_getColor (S fuel) s r = Some (background s, s)
  /\ (s = mainScene ->
      scene_getColor (S fuel) s r = Some (mkRGBA 32 32 32 255, mainScene)).
Proof.
  intro Hmiss. split.
  - now apply getColor_miss.
  - intros ->. now apply getColor_miss.
Qed.

(** C6.  When the nearest hit of a ray is on a luminous ball, [reflect]
    returns no outgoing ray and the colour of the material, and [getColor]
    returns that colour at once: one level of calls is enough, no ray is
    shaded recursively.  In the scene of [main] the only luminous ball is the
    white one, so such a ray is shaded (255,255,255,255). *)
Theorem luminous_hit (F : Type) (A : Float64 F) (T : Trig F)
        (s : scene F) (r : ray F) (o : ball F)
        (minDist : F) (minI : Z) (ipnt : point F) :
  findNearestHit s r = (minDist, minI, ipnt) ->
  minI <> (-1)%Z ->
  nth_error (objects s) (Z.to_nat minI) = Some o ->
  luminous (mat o) = true ->
  ball_reflect o r ipnt = ([], [], color (mat o), o)
  /\ scene_getColor 1 s r = Some (color (mat o), s)
  /\ (forall fuel, scene_getColor (S fuel) s r = Some (color (mat o), s))
  /\ (s = mainScene ->
      forall fuel,
        scene_getColor (S fuel) s r = Some (mkRGBA 255 255 255 255, mainScene)).
Proof.
  intros Hhit Hi Ho Hlum.
  split; [now apply reflect_luminous|].
  split; [now apply (getColor_luminous s r 0 o minDist minI ipnt)|].
  split; [intro fuel; now apply (getColor_luminous s r fuel o minDist minI ipnt)|].
  intros -> fuel.
  rewrite (getColor_luminous mainScene r fuel o minDist minI ipnt Hhit Hi Ho Hlum).
  cbn [mainScene objects] in Ho.
  destruct (Z.to_nat minI) as [|[|n]]; cbn in Ho.
  - injection Ho as <-. discriminate Hlum.
  - injection Ho as <-. reflexivity.
  - now destruct n.
Qed.

(** *** Two camera rays in the scene of [main], over [R] *)

(** The ray through (-1/4, 0, 1) passes to the left of the white ball and to
    the right of the green one. *)
Lemma mainScene_miss (o : ball R) :
  In o (objects mainScene) ->
  ball_intersect o (cameraRay (- (1 / 4)) 0)%R = None.
Proof.
  intros [<-|[<-|[]]]; apply intersect_none_disc;
    unfold discriminant, quad_a, quad_b, quad_c, originOffset,
      greenBall, whiteBall, cameraRay; geom; lra.
Qed.

Lemma miss_background_witness :
  (forall o : ball R, In o (objects mainScene) ->
                      ball_intersect o (cameraRay (- (1 / 4)) 0)%R = None)
  /\ scene_getColor 1 mainScene (cameraRay (- (1 / 4)) 0)%R
     = Some (mkRGBA 32 32 32 255, mainScene).
Proof.
  split; [exact mainScene_miss|].
  exact (proj2 (miss_background R _ _ mainScene (cameraRay (- (1 / 4)) 0)%R 0
                                mainScene_miss) eq_refl).
Defined.

(** The same ray in binary64, whatever [math.Cos] and [math.Sin] compute. *)
Example mainScene_miss_f64 (T : Trig float) :
  scene_getColor 1 mainScene (cameraRay (-0.25) 0)%float
  = Some (mkRGBA 32 32 32 255, mainScene).
Proof. vm_compute. reflexivity. Qed.

(** The ray through (1/4, 0, 1) misses the green ball and enters the white
    one. *)
Definition whiteRay : ray R := cameraRay (1 / 4)%R 0%R.
Definition whiteHit : point R :=
  ray_scale whiteRay (smaller_root whiteBall whiteRay).

Lemma whiteRay_green : ball_intersect greenBall whiteRay = None.
Proof.
  apply intersect_none_disc.
  unfold discriminant, quad_a, quad_b, quad_c, originOffset, greenBall,
    whiteRay, cameraRay; geom; lra.
Qed.

Lemma whiteRay_white : ball_intersect whiteBall whiteRay = Some whiteHit.
Proof.
  assert (Hd : discriminant whiteBall whiteRay = 2225%R).
  { unfold discriminant, quad_a, quad_b, quad_c, originOffset, whiteBall,
      whiteRay, cameraRay; geom; lra. }
  apply intersect_some; [rewrite Hd; lra|].
  unfold smaller_root. rewrite Hd.
  assert (Hs : (sqrt 2225 <= 48)%R).
  { rewrite <- (sqrt_square 48) by lra. apply sqrt_le_1_alt. lra. }
  assert (HB : quad_b whiteBall whiteRay = (- 95)%R).
  { unfold quad_b, originOffset, whiteBall, whiteRay, cameraRay; geom; lra. }
  assert (HA : (2 * quad_a whiteRay = 17 / 8)%R).
  { unfold quad_a, whiteRay, cameraRay; geom; lra. }
  rewrite HB, HA. at_R. lra.
Qed.

Lemma whiteRay_nearest :
  findNearestHit mainScene whiteRay
  = (norm (point_to (src whiteRay) whiteHit), 1%Z, whiteHit).
Proof.
  unfold findNearestHit. cbn [mainScene objects hitLoop].
  rewrite whiteRay_green, whiteRay_white. at_R.
  replace (Rltb (-1) 0) with true by (symmetry; apply Rltb_true; lra).
  reflexivity.
Qed.

Lemma luminous_hit_witness :
  findNearestHit mainScene whiteRay
  = (norm (point_to (src whiteRay) whiteHit), 1%Z, whiteHit)
  /\ 1%Z <> (-1)%Z
  /\ nth_error (objects (@mainScene R _)) (Z.to_nat 1) = Some whiteBall
  /\ luminous (mat (@whiteBall R _)) = true
  /\ ball_reflect whiteBall whiteRay whiteHit
     = ([], [], mkRGBA 255 255 255 255, whiteBall)
  /\ scene_getColor 1 mainScene whiteRay
     = Some (mkRGBA 255 255 255 255, mainScene).
Proof.
  assert (H1 : 1%Z <> (-1)%Z) by discriminate.
  assert (H2 : nth_error (objects (@mainScene R _)) (Z.to_nat 1)
               = Some whiteBall) by reflexivity.
  assert (H3 : luminous (mat (@whiteBall R _)) = true) by reflexivity.
  pose proof (luminous_hit R _ _ mainScene whiteRay whiteBall _ _ _
                           whiteRay_nearest H1 H2 H3) as (Hr & Hc & _).
  repeat (split; [first [exact whiteRay_nearest | exact H1 | exact H2
                        | exact H3 | exact Hr]|]).
  exact Hc.
Defined.

(** The same ray in binary64. *)
Example mainScene_luminous_f64 (T : Trig float) :
  snd (fst (findNearestHit mainScene (cameraRay 0.25 0)%float)) = 1%Z
  /\ scene_getColor 1 mainScene (cameraRay 0.25 0)%float
     = Some (mkRGBA 255 255 255 255, mainScene).
Proof. split; vm_compute; reflexivity. Qed.

(** ** The nearest hit *)

(** Distance from the origin of the ray to a point. *)
Definition hitDist (r : ray R) (p : point R) : R := norm (point_to (src r) p).

(** What the scan has found after the balls [seen]: nothing, with
    [minDist] still negative, or the first of the nearest hits. *)
Definition scanned (seen : list (ball R)) (r : ray R)
           (st : R * Z * point R) : Prop :=
  let '(minDist, minI, ipnt) := st in
  (minI = (-1)%Z /\ (minDist < 0)%R
   /\ forall o, In o seen -> ball_intersect o r = None)
  \/ (exists (k : nat) (o : ball R),
        minI = Z.of_nat k
        /\ nth_error seen k = Some o
        /\ ball_intersect o r = Some ipnt
        /\ minDist = hitDist r ipnt
        /\ forall (j : nat) (o' : ball R) (p' : point R),
             nth_error seen j = Some o' -> ball_intersect o' r = Some p' ->
             (minDist <= hitDist r p')%R
             /\ ((j < k)%nat -> (minDist < hitDist r p')%R)).

Lemma hitDist_nonneg (r : ray R) (p : point R) : (0 <= hitDist r p)%R.
Proof. apply norm_nonneg. Qed.

Lemma nth_error_snoc (A : Type) (l : list A) (a : A) (j : nat) (b : A) :
  nth_error (l ++ [a]) j = Some b ->
  ((j < length l)%nat /\ nth_error l j = Some b) \/ (j = length l /\ b = a).
Proof.
  intro Hj. destruct (Nat.lt_ge_cases j (length l)) as [Hlt|Hge].
  - left. split; [exact Hlt|]. now rewrite nth_error_app1 in Hj.
  - right. rewrite nth_error_app2 in Hj by exact Hge.
    destruct (j - length l)%nat as [|n] eqn:E; cbn in Hj.
    + injection Hj as <-. split; [lia|reflexivity].
    + now destruct n.
Qed.

(** One round of the scan keeps [scanned]. *)
Lemma scanned_step (seen : list (ball R)) (o : ball R) (r : ray R)
      (minDist : R) (minI : Z) (ipnt : point R) :
  scanned seen r (minDist, minI, ipnt) ->
  scanned (seen ++ [o]) r
    match ball_intersect o r with
    | Some intersection =>
        let dist := norm (point_to (src r) intersection) in
        if (fltb minDist (fofZ 0) || fltb dist minDist)%bool
        then (dist, Z.of_nat (length seen), intersection)
        else (minDist, minI, ipnt)
    | None => (minDist, minI, ipnt)
    end.
Proof.
  intro Inv. destruct (ball_intersect o r) as [p|] eqn:Ho.
  - cbv zeta. fold (hitDist r p). at_R.
    pose proof (hitDist_nonneg r p) as Hp0.
    assert (New : forall j o' p',
               (forall j' o'' p'', nth_error seen j' = Some o'' ->
                                   ball_intersect o'' r = Some p'' ->
                                   (hitDist r p < hitDist r p'')%R) ->
               nth_error (seen ++ [o]) j = Some o' ->
               ball_intersect o' r = Some p' ->
               (hitDist r p <= hitDist r p')%R
               /\ ((j < length seen)%nat -> (hitDist r p < hitDist r p')%R)).
    { intros j o' p' Hbefore Hj Hhit.
      apply nth_error_snoc in Hj as [[Hlt Hj]|[-> ->]].
      - pose proof (Hbefore j o' p' Hj Hhit). split; [lra|tauto].
      - rewrite Ho in Hhit. injection Hhit as <-. split; [lra|lia]. }
    assert (Here : nth_error (seen ++ [o]) (length seen) = Some o).
    { rewrite nth_error_app2 by lia. now rewrite Nat.sub_diag. }
    destruct Inv as [(-> & Hneg & Hmiss)|(k & ok & -> & Hk & Hok & -> & Hmin)].
    + replace (Rltb minDist 0) with true by (symmetry; now apply Rltb_true).
      cbn [orb]. right. exists (length seen), o.
      repeat (split; [first [reflexivity | assumption]|]).
      intros j o' p'. apply New. intros j' o'' p'' Hj' Hhit'.
      apply nth_error_In in Hj'. rewrite (Hmiss _ Hj') in Hhit'. discriminate.
    + pose proof (hitDist_nonneg r ipnt) as Hi0.
      replace (Rltb (hitDist r ipnt) 0) with false
        by (symmetry; now apply Rltb_false).
      cbn [orb]. destruct (Rltb (hitDist r p) (hitDist r ipnt)) eqn:Hcmp.
      * apply Rltb_true in Hcmp. right. exists (length seen), o.
        repeat (split; [first [reflexivity | assumption]|]).
        intros j o' p'. apply New. intros j' o'' p'' Hj' Hhit'.
        destruct (Hmin j' o'' p'' Hj' Hhit') as [Hle _]. lra.
      * apply Rltb_false in Hcmp. right. exists k, ok.
        assert (Hklt : (k < length seen)%nat)
          by (apply nth_error_Some; congruence).
        split; [reflexivity|].
        split; [now rewrite nth_error_app1|].
        split; [exact Hok|]. split; [reflexivity|].
        intros j o' p' Hj Hhit.
        apply nth_error_snoc in Hj as [[Hlt Hj]|[-> ->]].
        -- now apply (Hmin j o' p').
        -- rewrite Ho in Hhit. injection Hhit as <-. split; [lra|lia].
  - destruct Inv as [(-> & Hneg & Hmiss)|(k & ok & -> & Hk & Hok & -> & Hmin)].
    + left. repeat split; trivial. intros o' Ho'.
      apply in_app_or in Ho' as [Ho'|[<-|[]]]; auto.
    + right. exists k, ok.
      assert (Hklt : (k < length seen)%nat)
        by (apply nth_error_Some; congruence).
      split; [reflexivity|].
      split; [now rewrite nth_error_app1|].
      split; [exact Hok|]. split; [reflexivity|].
      intros j o' p' Hj Hhit.
      apply nth_error_snoc in Hj as [[Hlt Hj]|[-> ->]].
      * now apply (Hmin j o' p').
      * rewrite Ho in Hhit. discriminate.
Qed.

Lemma hitLoop_scanned (objs seen : list (ball R)) (r : ray R)
      (st : R * Z * point R) :
  scanned seen r st ->
  scanned (seen ++ objs) r (hitLoop objs (Z.of_nat (length seen)) r st).
Proof.
  revert seen st. induction objs as [|o rest IH]; intros seen st Inv.
  - rewrite app_nil_r. exact Inv.
  - cbn [hitLoop]. destruct st as [[minDist minI] ipnt].
    replace (seen ++ o :: rest) with ((seen ++ [o]) ++ rest)
      by (now rewrite <- app_assoc).
    replace (Z.of_nat (length seen) + 1)%Z
      with (Z.of_nat (length (seen ++ [o])))
      by (rewrite length_app; cbn; lia).
    apply IH. now apply scanned_step.
Qed.

Lemma findNearestHit_scanned (s : scene R) (r : ray R) :
  scanned (objects s) r (findNearestHit s r).
Proof.
  unfold findNearestHit. apply (hitLoop_scanned (objects s) [] r).
  left. at_R. repeat split; [lra|]. intros o [].
Qed.

(** C5, amended.  Over the reals (the arithmetic of float64 read as
    exact): the scan of [getColor] visits every shape in order and computes
    its intersection with the ray.  It ends with [minI = -1] exactly when no
    shape is hit; otherwise [minI] is the index of a shape hit at [ipnt], at
    distance [minDist] from the origin of the ray, no hit of any shape is
    nearer, and every hit of an earlier shape is strictly farther (on an
    exact tie the first shape wins).  Shading proceeds with that shape and
    that point.  The distance is the Euclidean one: the square root of the
    sum of the squared coordinate differences. *)
Theorem nearest_hit (s : scene R) (r : ray R) :
  let '(minDist, minI, ipnt) := findNearestHit s r in
  ((forall o, In o (objects s) -> ball_intersect o r = None)
   <-> minI = (-1)%Z)
  /\ (minI <> (-1)%Z ->
      exists (k : nat) (o : ball R),
        minI = Z.of_nat k
        /\ nth_error (objects s) k = Some o
        /\ ball_intersect o r = Some ipnt
        /\ minDist = hitDist r ipnt
        /\ (forall (j : nat) (o' : ball R) (p' : point R),
              nth_error (objects s) j = Some o' ->
              ball_intersect o' r = Some p' ->
              (minDist <= hitDist r p')%R
              /\ ((j < k)%nat -> (minDist < hitDist r p')%R))
        /\ forall fuel,
             scene_getColor (S fuel) s r
             = shadeHit (scene_getColor fuel) s r k o ipnt)
  /\ (forall p : point R,
        hitDist r p
        = sqrt ((x p - x (src r)) * (x p - x (src r))
                + (y p - y (src r)) * (y p - y (src r))
                + (z p - z (src r)) * (z p - z (src r)))%R).
Proof.
  pose proof (findNearestHit_scanned s r) as Inv.
  destruct (findNearestHit s r) as [[minDist minI] ipnt] eqn:E.
  assert (Hdist : forall p : point R,
             hitDist r p
             = sqrt ((x p - x (src r)) * (x p - x (src r))
                     + (y p - y (src r)) * (y p - y (src r))
                     + (z p - z (src r)) * (z p - z (src r)))%R)
    by (intro p; reflexivity).
  destruct Inv as [(-> & Hneg & Hmiss)|(k & o & -> & Hk & Ho & -> & Hmin)].
  - split; [tauto|]. split; [|exact Hdist]. intro Hne. now elim Hne.
  - split; [|split; [|exact Hdist]].
    + split.
      * intro Hmiss. apply nth_error_In in Hk.
        rewrite (Hmiss o Hk) in Ho. discriminate.
      * lia.
    + intros _. exists k, o.
      repeat (split; [first [reflexivity | assumption]|]).
      intro fuel. cbn [scene_getColor]. rewrite E.
      replace (Z.of_nat k =? -1)%Z with false by (symmetry; apply Z.eqb_neq; lia).
      cbn [negb]. now rewrite Nat2Z.id, Hk.
Qed.

(** Two equal balls in binary64: the ray hits both at the same distance and
    the scan keeps the first. *)
Example nearest_tie_f64 :
  let b : ball float :=
    (mkBall (mkPoint 0 0 5) 1 (mkMaterial true (mkRGBA 9 9 9 255) 0))%float in
  findNearestHit (mkScene [b; b] (mkRGBA 0 0 0 255)) (cameraRay 0 0)%float
  = (4, 0%Z, mkPoint 0 0 4)%float.
Proof. vm_compute. reflexivity. Qed.

(** ** What shading writes *)

Section Frame.
Context {F : Type} `{Float64 F} `{Trig F}.

(** [b'] is [b], or [b] with its roughness, which exceeded 1 on a
    non-luminous material, overwritten by 1. *)
Definition clampedFrom (b b' : ball F) : Prop :=
  b' = b
  \/ (b' = clampRoughness b
      /\ luminous (mat b) = false
      /\ fltb (fofZ 1) (roughness (mat b)) = true).

(** The scene [s'] is [s] up to such overwrites. *)
Definition evolves (s s' : scene F) : Prop :=
  background s' = background s
  /\ Forall2 clampedFrom (objects s) (objects s').

Lemma clampedFrom_refl (b : ball F) : clampedFrom b b.
Proof. now left. Qed.

Lemma clampedFrom_trans (b b' b'' : ball F) :
  clampedFrom b b' -> clampedFrom b' b'' -> clampedFrom b b''.
Proof.
  intros [->|(-> & Hl & Hr)] [->|(-> & Hl' & Hr')].
  - now left.
  - right. auto.
  - right. auto.
  - right. auto.
Qed.

Lemma evolves_refl (s : scene F) : evolves s s.
Proof.
  split; [reflexivity|].
  induction (objects s); constructor; auto using clampedFrom_refl.
Qed.

Lemma evolves_trans (s s' s'' : scene F) :
  evolves s s' -> evolves s' s'' -> evolves s s''.
Proof.
  intros [Hb H1] [Hb' H2]. split; [congruence|].
  revert H2. generalize (objects s''). induction H1 as [|b b' l l' Hc _ IH];
    intros l'' H2; inversion H2; subst; constructor.
  - eapply clampedFrom_trans; eassumption.
  - now apply IH.
Qed.

Lemma reflect_clampedFrom (b : ball F) (r : ray F) (p : point F) :
  clampedFrom b (snd (ball_reflect b r p)).
Proof.
  rewrite reflect_ball.
  destruct (luminous (mat b)) eqn:Hl; cbn [negb andb]; [now left|].
  destruct (fltb (fofZ 0) (roughness (mat b))); cbn [andb]; [|now left].
  destruct (fltb (fofZ 1) (roughness (mat b))) eqn:Hr; [|now left].
  right. auto.
Qed.

Lemma setObject_clampedFrom (objs : list (ball F)) (i : nat) (o o' : ball F) :
  nth_error objs i = Some o -> clampedFrom o o' ->
  Forall2 clampedFrom objs (setObject objs i o').
Proof.
  revert i. induction objs as [|b rest IH]; intros [|i] Hi Hc; cbn in *;
    try discriminate.
  - injection Hi as ->. constructor; [exact Hc|].
    clear. induction rest; constructor; auto using clampedFrom_refl.
  - constructor; [apply clampedFrom_refl|]. now apply IH.
Qed.

Lemma shadeLoop_evolves
      (rec : scene F -> ray F -> option (RGBA * scene F)) :
  (forall s r c s', rec s r = Some (c, s') -> evolves s s') ->
  forall rgb outgoing weights acc s acc' s',
    shadeLoop rec rgb outgoing weights acc s = Some (acc', s') ->
    evolves s s'.
Proof.
  intros Hrec rgb outgoing.
  induction outgoing as [|o outgoing IH]; intros weights acc s acc' s' Hrun.
  - cbn in Hrun. injection Hrun as _ <-. apply evolves_refl.
  - destruct weights as [|w weights]; cbn in Hrun; [discriminate|].
    destruct (rec s o) as [[nc s1]|] eqn:Ho; [|discriminate].
    eapply evolves_trans; [eapply Hrec; eassumption|].
    eapply IH; eassumption.
Qed.

Lemma shadeHit_evolves
      (rec : scene F -> ray F -> option (RGBA * scene F)) :
  (forall s r c s', rec s r = Some (c, s') -> evolves s s') ->
  forall s r minI o ipnt c s',
    nth_error (objects s) minI = Some o ->
    shadeHit rec s r minI o ipnt = Some (c, s') ->
    evolves s s'.
Proof.
  intros Hrec s r minI o ipnt c s' Ho Hrun. unfold shadeHit in Hrun.
  pose proof (reflect_clampedFrom o r ipnt) as Hc.
  destruct (ball_reflect o r ipnt) as [[[outgoing weights] cc] o'].
  cbn [snd] in Hc.
  assert (H1 : evolves s (mkScene (setObject (objects s) minI o')
                                  (background s))).
  { split; [reflexivity|]. cbn [objects].
    now apply setObject_clampedFrom with o. }
  destruct outgoing as [|o1 outgoing].
  - injection Hrun as _ <-. exact H1.
  - destruct (RGBA_RGBA cc) as [[[cr cg] cb] ca].
    destruct (shadeLoop _ _ _ _ _ _) as [[acc s2]|] eqn:Hloop; [|discriminate].
    injection Hrun as _ <-.
    eapply evolves_trans; [exact H1|].
    eapply shadeLoop_evolves; eassumption.
Qed.

Lemma getColor_evolves (fuel : nat) :
  forall (s : scene F) (r : ray F) (c : RGBA) (s' : scene F),
    scene_getColor fuel s r = Some (c, s') -> evolves s s'.
Proof.
  induction fuel as [|fuel IH]; intros s r c s' Hrun; [discriminate|].
  cbn [scene_getColor] in Hrun.
  destruct (findNearestHit s r) as [[minDist minI] ipnt].
  destruct (negb (minI =? -1)%Z).
  - destruct (nth_error (objects s) (Z.to_nat minI)) as [o|] eqn:Ho;
      [|discriminate].
    eapply shadeHit_evolves; eassumption.
  - injection Hrun as _ <-. apply evolves_refl.
Qed.
End Frame.

(** C8, amended.  [reflect] never changes the centre, the radius, the
    luminous flag or the colour of its ball, and changes the stored
    roughness only on a non-luminous material whose roughness exceeds 1,
    where it overwrites it by 1.  Shading a ray changes nothing else: the
    background is kept and every ball of the scene is kept up to that
    overwrite. *)
Theorem reflect_frame (F : Type) (A : Float64 F) (T : Trig F) :
  (forall (b : ball F) (r : ray F) (p : point F),
      let b' := snd (ball_reflect b r p) in
      center b' = center b
      /\ radius b' = radius b
      /\ luminous (mat b') = luminous (mat b)
      /\ color (mat b') = color (mat b)
      /\ roughness (mat b')
         = (if negb (luminous (mat b))
               && fltb (fofZ 0) (roughness (mat b))
               && fltb (fofZ 1) (roughness (mat b))
            then fofZ 1 else roughness (mat b)))
  /\ (forall (fuel : nat) (s : scene F) (r : ray F) (c : RGBA) (s' : scene F),
         scene_getColor fuel s r = Some (c, s') ->
         background s' = background s
         /\ Forall2 clampedFrom (objects s) (objects s')).
Proof.
  split.
  - intros b r p b'. unfold b'. rewrite reflect_ball.
    destruct (negb (luminous (mat b)) && fltb (fofZ 0) (roughness (mat b))
              && fltb (fofZ 1) (roughness (mat b)))%bool;
      repeat split; reflexivity.
  - intros fuel s r c s' Hrun. exact (getColor_evolves fuel s r c s' Hrun).
Qed.

(** ** Weights *)

Definition totalWeight {F : Type} (acc : F * F * F * F) : F :=
  fst (fst (fst acc)).

Lemma shadeLoop_totalWeight (F : Type) (A : Float64 F)
      (rec : scene F -> ray F -> option (RGBA * scene F)) rgb :
  forall outgoing weights acc s acc' s',
    length weights = length outgoing ->
    shadeLoop rec rgb outgoing weights acc s = Some (acc', s') ->
    totalWeight acc' = fold_left fadd weights (totalWeight acc).
Proof.
  induction outgoing as [|o outgoing IH]; intros weights acc s acc' s' Hlen Hrun.
  - destruct weights; [|discriminate]. cbn in Hrun. now injection Hrun as <- _.
  - destruct weights as [|w weights]; cbn in Hrun; [discriminate|].
    destruct (rec s o) as [[nc s1]|]; [|discriminate].
    apply IH in Hrun; [|cbn in Hlen; lia]. rewrite Hrun. cbn [fold_left].
    f_equal. unfold accumulate.
    destruct rgb as [[cr cg] cb], acc as [[[tw fr] fg] fb],
      (RGBA_RGBA nc) as [[[nr ng] nb] na].
    reflexivity.
Qed.

Lemma fold_Rplus_ge (ws : list R) (a : R) :
  Forall (fun w => 0 <= w)%R ws -> (a <= fold_left Rplus ws a)%R.
Proof.
  intro Hws. revert a. induction Hws as [|w ws Hw _ IH]; intro a; cbn.
  - lra.
  - specialize (IH (a + w)%R). lra.
Qed.

Lemma reflect_weights (b : ball R) (r : ray R) (p : point R) :
  let '(outgoing, weights, _, _) := ball_reflect b r p in
  length weights = length outgoing
  /\ Forall (fun w => 0 <= w)%R weights
  /\ (outgoing <> [] -> exists ws, weights = 1%R :: ws).
Proof.
  unfold ball_reflect.
  destruct (luminous (mat b)); cbn [negb].
  - repeat split; [constructor|]. intro Hne. now elim Hne.
  - destruct (fltb (fofZ 0) (roughness (mat b))).
    + destruct (orthogonalPair _) as [n1dir n2dirTemp].
      split; [cbn [length]; now rewrite length_map|]. split.
      * constructor; [at_R; lra|]. apply Forall_map, Forall_forall.
        intros x0 _. at_R. lra.
      * intros _. eexists. reflexivity.
    + repeat split.
      * constructor; [at_R; lra|constructor].
      * intros _. eexists. reflexivity.
Qed.

(** C9.  Every weight returned by [reflect] is non-negative (there is one
    weight per outgoing ray), and when there is an outgoing ray the weights
    sum to a positive total, the first being 1; that sum is the
    [totalWeight] by which [getColor] divides after its loop, so it never
    divides by zero. *)
Theorem weights_positive (b : ball R) (r : ray R) (p : point R) :
  let '(outgoing, weights, _, _) := ball_reflect b r p in
  length weights = length outgoing
  /\ Forall (fun w => 0 <= w)%R weights
  /\ (outgoing <> [] ->
      (1 <= fold_left Rplus weights 0)%R
      /\ forall rec rgb s acc s',
           shadeLoop rec rgb outgoing weights (0, 0, 0, 0)%R s = Some (acc, s') ->
           totalWeight acc = fold_left Rplus weights 0%R
           /\ (0 < totalWeight acc)%R).
Proof.
  pose proof (reflect_weights b r p) as Hw.
  destruct (ball_reflect b r p) as [[[outgoing weights] cc] b'].
  destruct Hw as (Hlen & Hpos & Hone).
  split; [exact Hlen|]. split; [exact Hpos|].
  intro Hne. destruct (Hone Hne) as [ws ->].
  assert (Hsum : (1 <= fold_left Rplus (1 :: ws) 0)%R).
  { cbn [fold_left]. inversion Hpos; subst.
    pose proof (fold_Rplus_ge ws (0 + 1)%R ltac:(assumption)). lra. }
  split; [exact Hsum|].
  intros rec rgb s acc s' Hrun.
  pose proof (shadeLoop_totalWeight R _ rec rgb _ _ _ _ _ _ Hlen Hrun) as Htw.
  cbn [totalWeight fst] in Htw. at_R. split; [exact Htw|]. rewrite Htw. lra.
Qed.

(** ** The scattering fan *)

(** The radius loop over [R]: with enough rounds for its guard to fail, it
    yields the radii [a + 0.05 k] that do not exceed the limit. *)
Lemma radiusLoop_R (fuel : nat) :
  forall a limit : R,
    (limit < a + 5 / 100 * INR fuel)%R ->
    exists K : nat,
      (K <= fuel)%nat
      /\ radiusLoop fuel a limit
         = map (fun k => (a + 5 / 100 * INR k)%R) (seq 0 K)
      /\ forall k : nat, (k < K)%nat <-> (a + 5 / 100 * INR k <= limit)%R.
Proof.
  induction fuel as [|fuel IH]; intros a limit Hfuel.
  - exists 0%nat. cbn in Hfuel. repeat split; [lia| |].
    + intro Hk. lia.
    + intro Hk. pose proof (pos_INR k). lra.
  - cbn [radiusLoop]. at_R. destruct (Rleb a limit) eqn:Ha.
    + apply Rleb_true in Ha.
      destruct (IH (a + 5 / 100)%R limit) as (K & HK & Hlist & Hiff).
      { rewrite S_INR in Hfuel. lra. }
      exists (S K). split; [lia|]. split.
      * rewrite Hlist. cbn [seq map]. f_equal; [cbn; lra|].
        rewrite <- seq_shift, map_map. apply map_ext.
        intro k. rewrite S_INR. lra.
      * intros [|k].
        -- split; [intros _; cbn; lra|lia].
        -- rewrite S_INR. specialize (Hiff k). split.
           ++ intro Hk. assert (Hk' : (k < K)%nat) by lia.
              apply Hiff in Hk'. lra.
           ++ intro Hk. assert (Hk' : (k < K)%nat) by (apply Hiff; lra). lia.
    + apply Rleb_false in Ha. exists 0%nat. repeat split; [lia| |].
      * intro Hk. lia.
      * intro Hk. pose proof (pos_INR k). lra.
Qed.

(** So does the loop of [reflect], whose limit is at most 5: its fuel is
    never what stops it. *)
Lemma radiusLoop_fuel (limit : R) :
  (limit <= 5)%R ->
  exists K : nat,
    (K < radiusFuel)%nat
    /\ radiusLoop radiusFuel (fconst 1 100) limit
       = map (fun k => (1 / 100 + 5 / 100 * INR k)%R) (seq 0 K)
    /\ forall k : nat, (k < K)%nat <-> (1 / 100 + 5 / 100 * INR k <= limit)%R.
Proof.
  intro Hlim. at_R.
  destruct (radiusLoop_R radiusFuel (1 / 100)%R limit) as (K & HK & Hl & Hiff).
  { unfold radiusFuel. rewrite INR_IZR_INZ. cbn. lra. }
  exists K. repeat split; try apply Hiff; [|exact Hl].
  destruct (Nat.eq_dec K radiusFuel) as [->|Hne]; [|lia].
  assert (Hk : (127 < radiusFuel)%nat) by (unfold radiusFuel; lia).
  apply Hiff in Hk. rewrite INR_IZR_INZ in Hk. cbn in Hk. lra.
Qed.

Lemma angles_eq : angles = map (fun j => (5 * Z.of_nat j)%Z) (seq 0 72).
Proof. reflexivity. Qed.

Lemma sumsq_zero (a b c : R) :
  (a * a + b * b + c * c = 0)%R -> a = 0%R /\ b = 0%R /\ c = 0%R.
Proof. intro Hz. repeat split; nra. Qed.

Lemma norm2_nonzero_cases (d : direction R) :
  norm2 d <> 0%R -> dx d <> 0%R \/ dy d <> 0%R \/ dz d <> 0%R.
Proof.
  destruct d as [a b c]. unfold norm2. cbn [dx dy dz]. at_R. intro Hd.
  destruct (Req_dec_T a 0) as [->|Ha]; [|now left].
  destruct (Req_dec_T b 0) as [->|Hb]; [|now right; left].
  right; right. intros ->. apply Hd. ring.
Qed.

(** The two vectors built by [orthogonalPair] are orthogonal to the
    direction they are built from, the first is not zero and the second is
    no multiple of the first. *)
Lemma orthogonalPair_spec (out : direction R) :
  norm2 out <> 0%R ->
  let '(n1raw, t) := orthogonalPair out in
  dot n1raw out = 0%R
  /\ dot t out = 0%R
  /\ norm2 n1raw <> 0%R
  /\ forall l : R,
       norm2 (mkDirection (dx t - l * dx n1raw) (dy t - l * dy n1raw)
                          (dz t - l * dz n1raw))%R <> 0%R.
Proof.
  intro Hout. apply norm2_nonzero_cases in Hout.
  destruct out as [a b c]. unfold orthogonalPair. cbn [dx dy dz] in *. at_R.
  destruct (Reqb a 0) eqn:Ha; cbn [negb].
  - apply Reqb_true in Ha. subst a.
    destruct (Reqb b 0) eqn:Hb; cbn [negb].
    + apply Reqb_true in Hb. subst b.
      assert (Hc : c <> 0%R) by (destruct Hout as [?|[?|?]]; auto; lra).
      unfold dot, norm2. cbn [dx dy dz]. at_R.
      repeat split; try (field; exact Hc).
      * intro Hz. apply sumsq_zero in Hz. lra.
      * intros l Hz. apply sumsq_zero in Hz. lra.
    + apply Reqb_false in Hb.
      unfold dot, norm2. cbn [dx dy dz]. at_R.
      repeat split; try (field; exact Hb).
      * intro Hz. apply sumsq_zero in Hz. lra.
      * intros l Hz. apply sumsq_zero in Hz. lra.
  - apply Reqb_false in Ha.
    unfold dot, norm2. cbn [dx dy dz]. at_R.
    repeat split; try (field; exact Ha).
    + intro Hz. apply sumsq_zero in Hz. lra.
    + intros l Hz. apply sumsq_zero in Hz. lra.
Qed.

Lemma normalize_dot (w v : direction R) :
  dot w v = 0%R -> dot (normalize w) v = 0%R.
Proof.
  intro Hwv. destruct w as [a b c], v as [a' b' c'].
  unfold normalize, dot in *. cbn [dx dy dz] in *. at_R.
  set (N := norm _).
  replace (a / N * a' + b / N * b' + c / N * c')%R
    with ((a * a' + b * b' + c * c') * / N)%R by (unfold Rdiv; ring).
  rewrite Hwv. ring.
Qed.

Lemma dot_comm (v w : direction R) : dot v w = dot w v.
Proof. unfold dot. at_R. ring. Qed.

(** The basis [reflect] derives from the pair. *)
Definition fanBasis (out : direction R) : direction R * direction R :=
  let '(n1dir, n2dirTemp) := orthogonalPair out in
  let n1dir := normalize n1dir in
  let parallelComp := dot n1dir n2dirTemp in
  (n1dir,
   normalize (mkDirection (dx n2dirTemp - parallelComp * dx n1dir)
                          (dy n2dirTemp - parallelComp * dy n1dir)
                          (dz n2dirTemp - parallelComp * dz n1dir))%R)%R.

(** It is orthonormal and perpendicular to the reflected direction. *)
Lemma fanBasis_orthonormal (out : direction R) :
  norm2 out <> 0%R ->
  let '(n1, n2) := fanBasis out in
  dot n1 n1 = 1%R /\ dot n2 n2 = 1%R /\ dot n1 n2 = 0%R
  /\ dot n1 out = 0%R /\ dot n2 out = 0%R.
Proof.
  intro Hout. pose proof (orthogonalPair_spec out Hout) as Hp.
  unfold fanBasis. destruct (orthogonalPair out) as [n1raw t].
  destruct Hp as (H1o & Hto & H1 & Hind).
  pose proof (normalize_unit n1raw H1) as Hu.
  pose proof (normalize_dot n1raw out H1o) as Hn1o.
  pose proof (norm_pos n1raw H1) as HN.
  set (n1 := normalize n1raw) in *.
  set (pc := dot n1 t).
  set (g := (mkDirection (dx t - pc * dx n1) (dy t - pc * dy n1)
                         (dz t - pc * dz n1))%R).
  assert (Hg : norm2 g <> 0%R).
  { specialize (Hind (pc / norm n1raw)%R).
    replace g with
      (mkDirection (dx t - pc / norm n1raw * dx n1raw)
                   (dy t - pc / norm n1raw * dy n1raw)
                   (dz t - pc / norm n1raw * dz n1raw))%R; [exact Hind|].
    unfold g, n1, normalize. cbn [dx dy dz]. at_R.
    f_equal; field; lra. }
  assert (Hg1 : dot g n1 = 0%R).
  { unfold g, pc. destruct n1 as [a b c], t as [a' b' c'].
    unfold dot in *. cbn [dx dy dz] in *. at_R.
    replace ((a' - (a * a' + b * b' + c * c') * a) * a
             + (b' - (a * a' + b * b' + c * c') * b) * b
             + (c' - (a * a' + b * b' + c * c') * c) * c)%R
      with ((a * a' + b * b' + c * c') * (1 - (a * a + b * b + c * c)))%R
      by ring.
    rewrite Hu. ring. }
  assert (Hgo : dot g out = 0%R).
  { unfold g. destruct n1 as [a b c], t as [a' b' c'], out as [oa ob oc].
    unfold dot in *. cbn [dx dy dz] in *. at_R.
    replace ((a' - pc * a) * oa + (b' - pc * b) * ob + (c' - pc * c) * oc)%R
      with ((a' * oa + b' * ob + c' * oc)
            - pc * (a * oa + b * ob + c * oc))%R by ring.
    rewrite Hto, Hn1o. ring. }
  split; [exact Hu|]. split; [now apply normalize_unit|].
  split; [rewrite dot_comm; now apply normalize_dot|].
  split; [exact Hn1o|]. now apply normalize_dot.
Qed.

(** The direction scattered at [radius] and [angle] degrees: the reflected
    direction plus [radius |out| (cos(angle) n1 + sin(angle) n2)]. *)
Definition fanDir (out n1 n2 : direction R) (radius : R) (angle : Z)
  : direction R :=
  direction_add out
    (direction_scale
       (direction_add
          (direction_scale n1 (cos (IZR angle * (PI / 180))))
          (direction_scale n2 (sin (IZR angle * (PI / 180)))))
       (radius * norm out)%R).

Lemma scatter_fanDir (p : point R) (out n1 n2 : direction R) (radius : R)
      (angle : Z) :
  scatter p out n1 n2 radius angle = mkRay p (fanDir out n1 n2 radius angle).
Proof. reflexivity. Qed.

(** The fan has one ray per radius and angle. *)
Lemma fan_length (A B C : Type) (g : A -> B -> C) (radii : list A)
      (degrees : list B) :
  length (flat_map (fun radius0 => map (g radius0) degrees) radii)
  = (length degrees * length radii)%nat.
Proof.
  induction radii as [|radius0 radii IH]; cbn [flat_map length]; [lia|].
  rewrite length_app, length_map, IH. lia.
Qed.

(** The reflected direction of a hit is not zero. *)
Lemma mirror_nonzero (b : ball R) (r : ray R) (p : point R) :
  (0 < radius b)%R -> norm2 (dir r) <> 0%R -> ball_intersect b r = Some p ->
  norm2 (mirror (dir r) (normalize (point_to (center b) p))) <> 0%R.
Proof.
  intros Hrad Hdir Hhit.
  pose proof (intersect_on_sphere b r p Hdir Hhit) as Hon.
  unfold on_sphere in Hon.
  assert (Hw : norm2 (point_to (center b) p) <> 0%R) by nra.
  rewrite mirror_norm2; [exact Hdir|]. now apply normalize_unit.
Qed.

(** The outgoing rays, weights and colour of a rough hit, over [R]. *)
Lemma fan_shape (b : ball R) (r : ray R) (p : point R) :
  luminous (mat b) = false ->
  (0 < roughness (mat b))%R ->
  (0 < radius b)%R ->
  norm2 (dir r) <> 0%R ->
  ball_intersect b r = Some p ->
  let rough := Rmin (roughness (mat b)) 1 in
  let out := mirror (dir r) (normalize (point_to (center b) p)) in
  exists (n1 n2 : direction R) (K : nat),
    dot n1 n1 = 1%R /\ dot n2 n2 = 1%R /\ dot n1 n2 = 0%R
    /\ dot n1 out = 0%R /\ dot n2 out = 0%R
    /\ (forall k : nat,
          (k < K)%nat <-> (1 / 100 + 5 / 100 * INR k <= 5 * rough)%R)
    /\ let radii := map (fun k => (1 / 100 + 5 / 100 * INR k)%R) (seq 0 K) in
       let degrees := map (fun j => (5 * Z.of_nat j)%Z) (seq 0 72) in
       let fan :=
         flat_map (fun radius =>
                     map (fun angle => mkRay p (fanDir out n1 n2 radius angle))
                         degrees) radii in
       fst (ball_reflect b r p)
       = (mkRay p out :: fan, 1%R :: repeat (1 / 72)%R (72 * K), color (mat b)).
Proof.
  intros Hlum Hrough Hrad Hdir Hhit rough out.
  pose proof (mirror_nonzero b r p Hrad Hdir Hhit) as Hout. fold out in Hout.
  pose proof (fanBasis_orthonormal out Hout) as Hbasis.
  unfold ball_reflect. rewrite Hlum. cbn [negb]. at_R.
  replace (Rltb 0 (roughness (mat b))) with true
    by (symmetry; now apply Rltb_true).
  rewrite outgoingDir_mirror. fold out.
  unfold fanBasis in Hbasis.
  destruct (orthogonalPair out) as [n1raw t].
  destruct Hbasis as (H11 & H22 & H12 & H1o & H2o).
  set (n1 := normalize n1raw) in *.
  set (n2 := normalize (mkDirection _ _ _)) in *.
  assert (Hr : roughness (mat (if Rltb 1 (roughness (mat b))
                               then clampRoughness b else b)) = rough).
  { unfold rough, Rmin. destruct (Rltb 1 (roughness (mat b))) eqn:Hc.
    - apply Rltb_true in Hc. cbn. destruct (Rle_dec _ _); lra.
    - apply Rltb_false in Hc. destruct (Rle_dec _ _); lra. }
  assert (Hcol : color (mat (if Rltb 1 (roughness (mat b))
                             then clampRoughness b else b)) = color (mat b)).
  { now destruct (Rltb 1 (roughness (mat b))). }
  rewrite Hr, Hcol.
  destruct (radiusLoop_fuel (5 * rough)%R) as (K & _ & Hradii & HK).
  { unfold rough. pose proof (Rmin_r (roughness (mat b)) 1). lra. }
  at_R. rewrite Hradii, angles_eq.
  exists n1, n2, K.
  repeat (split; [assumption|]).
  cbv zeta. cbn [fst].
  rewrite map_const, fan_length, !length_map, !length_seq. reflexivity.
Qed.


(** With a roughness of 1 or more the fan is complete: 100 rings. *)
Lemma reflect_weights_full (b : ball R) (r : ray R) (p : point R) :
  luminous (mat b) = false ->
  (1 <= roughness (mat b))%R ->
  (0 < radius b)%R ->
  norm2 (dir r) <> 0%R ->
  ball_intersect b r = Some p ->
  snd (fst (fst (ball_reflect b r p))) = 1%R :: repeat (1 / 72)%R (72 * 100).
Proof.
  intros Hlum Hrough Hrad Hdir Hhit.
  destruct (fan_shape b r p Hlum ltac:(lra) Hrad Hdir Hhit)
    as (n1 & n2 & K & _ & _ & _ & _ & _ & HK & Heq).
  cbv zeta in Heq. rewrite Heq. cbn [fst snd].
  rewrite Rmin_right in HK by exact Hrough.
  assert (H99 : (99 < K)%nat)
    by (apply HK; rewrite INR_IZR_INZ; cbn; lra).
  assert (H100 : ~ (100 < K)%nat).
  { intro Hlt. apply HK in Hlt. rewrite INR_IZR_INZ in Hlt. cbn in Hlt. lra. }
  replace K with 100%nat by lia. reflexivity.
Qed.

(** C4, amended.  Over the reals (the arithmetic of float64 read as
    exact): on a non-luminous ball of roughness > 0 and positive radius, a
    hit at [p] by a ray of non-zero direction yields the ideal reflected ray
    with weight 1 followed by a fan fixed by the arithmetic alone: with the
    roughness taken as at most 1, for each radius 0.01 + 0.05 k that does
    not exceed 5 roughness, in increasing order, and each angle 0, 5, ...,
    355 degrees, one ray from [p] of direction
    [out + radius |out| (cos(angle) n1 + sin(angle) n2)], where [n1], [n2]
    are orthonormal and perpendicular to the reflected direction [out] and
    [|out|] is its Euclidean length; each of these rays has weight 1/72.
    (In binary64 the radii are the running sums of the loop, which are not
    the decimals 0.01 + 0.05 k, and the number of rings can differ.) *)
Theorem reflect_fan (b : ball R) (r : ray R) (p : point R) :
  luminous (mat b) = false ->
  (0 < roughness (mat b))%R ->
  (0 < radius b)%R ->
  norm2 (dir r) <> 0%R ->
  ball_intersect b r = Some p ->
  let rough := Rmin (roughness (mat b)) 1 in
  let out := mirror (dir r) (normalize (point_to (center b) p)) in
  norm out = sqrt (dx out * dx out + dy out * dy out + dz out * dz out)%R
  /\ exists (n1 n2 : direction R) (K : nat),
    dot n1 n1 = 1%R /\ dot n2 n2 = 1%R /\ dot n1 n2 = 0%R
    /\ dot n1 out = 0%R /\ dot n2 out = 0%R
    /\ (forall k : nat,
          (k < K)%nat <-> (1 / 100 + 5 / 100 * INR k <= 5 * rough)%R)
    /\ let radii := map (fun k => (1 / 100 + 5 / 100 * INR k)%R) (seq 0 K) in
       let degrees := map (fun j => (5 * Z.of_nat j)%Z) (seq 0 72) in
       let fan :=
         flat_map (fun radius =>
                     map (fun angle => mkRay p (fanDir out n1 n2 radius angle))
                         degrees) radii in
       fst (ball_reflect b r p)
       = (mkRay p out :: fan, 1%R :: repeat (1 / 72)%R (72 * K), color (mat b)).
Proof.
  intros Hlum Hrough Hrad Hdir Hhit rough out.
  split; [reflexivity|].
  exact (fan_shape b r p Hlum Hrough Hrad Hdir Hhit).
Qed.

Lemma reflect_fan_witness :
  luminous (mat (unitBall (matte 1))) = false
  /\ (0 < roughness (mat (unitBall (matte 1))))%R
  /\ (0 < radius (unitBall (matte 1)))%R
  /\ norm2 (dir zRay) <> 0%R
  /\ ball_intersect (unitBall (matte 1)) zRay = Some zHit
  /\ snd (fst (fst (ball_reflect (unitBall (matte 1)) zRay zHit)))
     = 1%R :: repeat (1 / 72)%R (72 * 100).
Proof.
  assert (H1 : luminous (mat (unitBall (matte 1))) = false) by reflexivity.
  assert (H2 : (0 < roughness (mat (unitBall (matte 1))))%R) by (cbn; lra).
  assert (H3 : (0 < radius (unitBall (matte 1)))%R) by (cbn; lra).
  repeat (split; [first [exact H1 | exact H2 | exact H3 | exact zRay_dir
                        | apply zRay_hit]|]).
  destruct (reflect_fan (unitBall (matte 1)) zRay zHit H1 H2 H3 zRay_dir
                        (zRay_hit _))
    as (_ & n1 & n2 & K & _ & _ & _ & _ & _ & HK & Heq).
  cbv zeta in Heq. rewrite Heq. cbn [fst snd].
  assert (HK100 : K = 100%nat).
  { assert (Hmin : Rmin (roughness (mat (unitBall (matte 1)))) 1 = 1%R)
      by (cbn; apply Rmin_left; lra).
    rewrite Hmin in HK.
    assert (H99 : (99 < K)%nat)
      by (apply HK; rewrite INR_IZR_INZ; cbn; lra).
    assert (H100 : ~ (100 < K)%nat).
    { intro Hlt. apply HK in Hlt. rewrite INR_IZR_INZ in Hlt. cbn in Hlt. lra. }
    lia. }
  rewrite HK100. reflexivity.
Defined.

(** ** Blending *)

Section Blend.
Context {F : Type} `{Float64 F}.

(** The outgoing rays shaded one after the other, [rec] being [getColor]:
    their colours, and the scene the calls leave. *)
Fixpoint shadeAll (rec : scene F -> ray F -> option (RGBA * scene F))
         (outgoing : list (ray F)) (s : scene F)
  : option (list RGBA * scene F) :=
  match outgoing with
  | [] => Some ([], s)
  | outgoingRay :: outgoing' =>
      match rec s outgoingRay with
      | None => None
      | Some (nc, s1) =>
          match shadeAll rec outgoing' s1 with
          | None => None
          | Some (ncs, s2) => Some (nc :: ncs, s2)
          end
      end
  end.

(** The accumulation of the shading loop alone, over the colours paired
    with their weights. *)
Definition accumulateAll (rgb : Z * Z * Z) (pairs : list (RGBA * F))
           (acc : accum) : accum :=
  fold_left (fun acc p => accumulate rgb acc (fst p) (snd p)) pairs acc.

(** The shading loop is the calls followed by the accumulation. *)
Lemma shadeLoop_split (rec : scene F -> ray F -> option (RGBA * scene F))
      (rgb : Z * Z * Z) :
  forall outgoing weights acc s,
    length weights = length outgoing ->
    shadeLoop rec rgb outgoing weights acc s
    = match shadeAll rec outgoing s with
      | None => None
      | Some (ncs, s') => Some (accumulateAll rgb (combine ncs weights) acc, s')
      end.
Proof.
  induction outgoing as [|o outgoing IH]; intros weights acc s Hlen.
  - reflexivity.
  - destruct weights as [|w weights]; [discriminate|].
    cbn [shadeLoop shadeAll]. destruct (rec s o) as [[nc s1]|]; [|reflexivity].
    rewrite IH by (cbn in Hlen; lia).
    destruct (shadeAll rec outgoing s1) as [[ncs s2]|]; reflexivity.
Qed.
End Blend.

(** The sum of a list of reals. *)
Definition Rsum (l : list R) : R := fold_right Rplus 0%R l.

(** The channel [sel] contributed by a ray shaded [nc] to a hit on the base
    colour [cc]: the channel of [nc] over the alpha of [nc], times the
    channel of [cc] (channels as [RGBA()] widens them). *)
Definition contribution (sel : RGBA -> Z) (cc nc : RGBA) : R :=
  (IZR (widen (sel nc)) / IZR (widen (cA nc)) * IZR (widen (sel cc)))%R.

(** The weighted average [sum (w_i * channel_i) / sum w_i]. *)
Definition weightedAverage (sel : RGBA -> Z) (cc : RGBA)
           (pairs : list (RGBA * R)) : R :=
  (Rsum (map (fun p => snd p * contribution sel cc (fst p)) pairs)
   / Rsum (map snd pairs))%R.

(** The average scaled by the alpha of the base colour into 0..255. *)
Definition blendChannel (sel : RGBA -> Z) (cc : RGBA)
           (pairs : list (RGBA * R)) : Z :=
  to_uint8 (weightedAverage sel cc pairs / IZR (widen (cA cc)) * 255)%R.

Definition blend (cc : RGBA) (pairs : list (RGBA * R)) : RGBA :=
  mkRGBA (blendChannel cR cc pairs) (blendChannel cG cc pairs)
         (blendChannel cB cc pairs) 255.

Lemma Rsum_nonneg (l : list R) :
  Forall (fun w => 0 <= w)%R l -> (0 <= Rsum l)%R.
Proof.
  unfold Rsum. induction 1 as [|w ws Hw _ IH]; cbn; lra.
Qed.

Lemma Rsum_perm (l l' : list R) : Permutation l l' -> Rsum l = Rsum l'.
Proof.
  unfold Rsum.
  induction 1 as [|a l l' _ IH|a b l|l l' l'' _ IH1 _ IH2]; cbn.
  - reflexivity.
  - now rewrite IH.
  - ring.
  - congruence.
Qed.

Lemma accumulateAll_R (cc : RGBA) (pairs : list (RGBA * R)) :
  forall tw fr fg fb : R,
    accumulateAll (widen (cR cc), widen (cG cc), widen (cB cc)) pairs
                  (tw, fr, fg, fb)
    = (tw + Rsum (map snd pairs),
       fr + Rsum (map (fun p => snd p * contribution cR cc (fst p)) pairs),
       fg + Rsum (map (fun p => snd p * contribution cG cc (fst p)) pairs),
       fb + Rsum (map (fun p => snd p * contribution cB cc (fst p)) pairs))%R.
Proof.
  unfold accumulateAll.
  induction pairs as [|[nc w] pairs IH]; intros tw fr fg fb.
  - cbn. apply f_equal2; [apply f_equal2; [apply f_equal2|]|]; ring.
  - cbn [fold_left map Rsum fold_right fst snd]. unfold accumulate at 2.
    cbn [RGBA_RGBA]. at_R. rewrite IH. unfold contribution, Rsum.
    apply f_equal2; [apply f_equal2; [apply f_equal2|]|]; ring.
Qed.

Lemma finish_R (cc : RGBA) (pairs : list (RGBA * R)) :
  finish (widen (cA cc))
         (accumulateAll (widen (cR cc), widen (cG cc), widen (cB cc)) pairs
                        (0, 0, 0, 0)%R)
  = blend cc pairs.
Proof.
  rewrite accumulateAll_R. unfold finish, blend, blendChannel, weightedAverage.
  at_R. rewrite !Rplus_0_l. reflexivity.
Qed.

Lemma blend_perm (cc : RGBA) (pairs pairs' : list (RGBA * R)) :
  Permutation pairs pairs' -> blend cc pairs = blend cc pairs'.
Proof.
  intro Hp. unfold blend, blendChannel, weightedAverage.
  rewrite (Rsum_perm (map snd pairs) (map snd pairs'))
    by (now apply Permutation_map).
  rewrite (Rsum_perm (map (fun p => snd p * contribution cR cc (fst p))%R pairs)
                     (map (fun p => snd p * contribution cR cc (fst p))%R pairs'))
    by (now apply Permutation_map).
  rewrite (Rsum_perm (map (fun p => snd p * contribution cG cc (fst p))%R pairs)
                     (map (fun p => snd p * contribution cG cc (fst p))%R pairs'))
    by (now apply Permutation_map).
  rewrite (Rsum_perm (map (fun p => snd p * contribution cB cc (fst p))%R pairs)
                     (map (fun p => snd p * contribution cB cc (fst p))%R pairs'))
    by (now apply Permutation_map).
  reflexivity.
Qed.

Lemma shadeAll_length (F : Type) (A : Float64 F)
      (rec : scene F -> ray F -> option (RGBA * scene F)) :
  forall outgoing s ncs s',
    shadeAll rec outgoing s = Some (ncs, s') -> length ncs = length outgoing.
Proof.
  induction outgoing as [|o outgoing IH]; intros s ncs s' Hrun; cbn in Hrun.
  - now injection Hrun as <- _.
  - destruct (rec s o) as [[nc s1]|]; [|discriminate].
    destruct (shadeAll rec outgoing s1) as [[ncs' s2]|] eqn:E; [|discriminate].
    injection Hrun as <- _. cbn. f_equal. eapply IH. eassumption.
Qed.

Lemma map_snd_combine (A B : Type) (l : list A) (l' : list B) :
  length l = length l' -> map snd (combine l l') = l'.
Proof.
  revert l'. induction l as [|a l IH]; intros [|b l'] Hlen; cbn in *;
    try discriminate; [reflexivity|].
  f_equal. apply IH. lia.
Qed.

(** Shading a hit with outgoing rays: the colours of the recursive calls,
    blended. *)
Lemma shadeHit_blend
      (rec : scene R -> ray R -> option (RGBA * scene R))
      (s : scene R) (r : ray R) (minI : nat) (o : ball R) (ipnt : point R)
      (outgoing : list (ray R)) (weights : list R) (cc : RGBA) (o' : ball R)
      (ncs : list RGBA) (s' : scene R) :
  ball_reflect o r ipnt = (outgoing, weights, cc, o') ->
  outgoing <> [] ->
  shadeAll rec outgoing
           (mkScene (setObject (objects s) minI o') (background s))
  = Some (ncs, s') ->
  shadeHit rec s r minI o ipnt = Some (blend cc (combine ncs weights), s').
Proof.
  intros Hreflect Hne Hall.
  pose proof (reflect_weights o r ipnt) as Hw. rewrite Hreflect in Hw.
  destruct Hw as (Hlen & _ & _).
  unfold shadeHit. rewrite Hreflect.
  destruct outgoing as [|o1 outgoing]; [now elim Hne|].
  cbn [RGBA_RGBA]. rewrite shadeLoop_split by exact Hlen.
  rewrite Hall. now rewrite finish_R.
Qed.

(** *** Evaluating a colour over [R] *)

Lemma to_uint8_R (v : R) (n : Z) :
  (0 <= n < 256)%Z -> (IZR n <= v < IZR n + 1)%R -> to_uint8 v = n.
Proof.
  intros Hn Hv. unfold to_uint8. at_R. unfold Rtrunc.
  assert (H0 : (0 <= v)%R).
  { destruct Hn as [Hn _]. apply IZR_le in Hn. lra. }
  destruct (Rle_dec 0 v) as [_|Hneg]; [|contradiction].
  rewrite <- (Int_part_spec v n) by lra.
  apply Z.mod_small. exact Hn.
Qed.

Ltac eval_widen :=
  repeat match goal with
         | |- context [widen ?c] =>
             let v := eval vm_compute in (widen c) in change (widen c) with v
         end.

Definition grey : RGBA := mkRGBA 32 32 32 255.

Lemma zHit_on_sphere (m : material R) : on_sphere (unitBall m) zHit.
Proof. unfold on_sphere, unitBall, zHit. geom. ring. Qed.

(** *** A complete run over [R] that overwrites a roughness

    A ball of roughness 2 alone in a grey scene.  The ray enters at [zHit];
    the reflected ray and the 7200 rays of the fan leave from the surface
    and meet nothing, so each is shaded grey. *)

Definition roughScene (rough : R) : scene R :=
  mkScene [unitBall (matte rough)] grey.

Lemma reflect_nonempty (b : ball R) (r : ray R) (p : point R) :
  luminous (mat b) = false -> fst (fst (fst (ball_reflect b r p))) <> [].
Proof.
  intro Hlum. unfold ball_reflect. rewrite Hlum. cbn [negb].
  destruct (fltb (fofZ 0) (roughness (mat b))).
  - destruct (orthogonalPair _) as [n1dir n2dirTemp]. discriminate.
  - discriminate.
Qed.

Lemma fanDir_nonzero (out n1 n2 : direction R) (radius : R) (angle : Z) :
  norm2 out <> 0%R -> dot n1 out = 0%R -> dot n2 out = 0%R ->
  norm2 (fanDir out n1 n2 radius angle) <> 0%R.
Proof.
  intros Hout H1 H2 Hz. apply Hout.
  assert (Hdot : dot (fanDir out n1 n2 radius angle) out = norm2 out).
  { destruct out as [a b c], n1 as [a1 b1 c1], n2 as [a2 b2 c2].
    unfold fanDir, dot, norm2 in *. geom.
    set (k := (radius * sqrt (a * a + b * b + c * c))%R).
    set (cs := cos _). set (sn := sin _).
    replace ((a + k * (cs * a1 + sn * a2)) * a
             + (b + k * (cs * b1 + sn * b2)) * b
             + (c + k * (cs * c1 + sn * c2)) * c)%R
      with (a * a + b * b + c * c
            + k * cs * (a1 * a + b1 * b + c1 * c)
            + k * sn * (a2 * a + b2 * b + c2 * c))%R by ring.
    rewrite H1, H2. ring. }
  rewrite <- Hdot. unfold norm2 in Hz. at_R.
  apply sumsq_zero in Hz as (Hx & Hy & Hz). unfold dot. at_R.
  rewrite Hx, Hy, Hz. ring.
Qed.

(** Every ray [reflect] returns for a hit starts at the hit point and has a
    direction that is not zero. *)
Lemma reflect_outgoing (b : ball R) (r : ray R) (p : point R) :
  (0 < radius b)%R -> norm2 (dir r) <> 0%R -> ball_intersect b r = Some p ->
  Forall (fun o => src o = p /\ norm2 (dir o) <> 0%R)
         (fst (fst (fst (ball_reflect b r p)))).
Proof.
  intros Hrad Hdir Hhit.
  pose proof (mirror_nonzero b r p Hrad Hdir Hhit) as Hout.
  unfold ball_reflect. destruct (luminous (mat b)); cbn [negb];
    [constructor|].
  rewrite outgoingDir_mirror.
  set (out := mirror _ _) in *.
  pose proof (fanBasis_orthonormal out Hout) as Hbasis.
  unfold fanBasis in Hbasis.
  destruct (fltb (fofZ 0) (roughness (mat b)));
    [|cbn [fst]; constructor; [now split|constructor]].
  destruct (orthogonalPair out) as [n1raw t].
  destruct Hbasis as (_ & _ & _ & H1o & H2o).
  cbn [fst]. constructor; [now split|].
  apply Forall_forall. intros o Ho.
  apply in_flat_map in Ho as (radius0 & _ & Ho).
  apply in_map_iff in Ho as (angle & <- & _).
  rewrite scatter_fanDir. cbn [src dir]. split; [reflexivity|].
  now apply fanDir_nonzero.
Qed.

Lemma shadeAll_miss (F : Type) (A : Float64 F) (T : Trig F)
      (s : scene F) (fuel : nat) (outgoing : list (ray F)) :
  Forall (fun o => forall b, In b (objects s) -> ball_intersect b o = None)
         outgoing ->
  shadeAll (scene_getColor (S fuel)) outgoing s
  = Some (repeat (background s) (length outgoing), s).
Proof.
  induction 1 as [|o outgoing Ho _ IH]; [reflexivity|].
  cbn [shadeAll length repeat].
  rewrite (getColor_miss s o fuel Ho), IH. reflexivity.
Qed.

(** Rays that all come back with one colour blend to that colour. *)
Lemma weightedAverage_uniform (sel : RGBA -> Z) (cc nc : RGBA)
      (weights : list R) :
  Rsum weights <> 0%R ->
  weightedAverage sel cc (combine (repeat nc (length weights)) weights)
  = contribution sel cc nc.
Proof.
  intro HW. unfold weightedAverage.
  rewrite map_snd_combine by apply repeat_length.
  assert (E : Rsum (map (fun p => snd p * contribution sel cc (fst p))%R
                        (combine (repeat nc (length weights)) weights))
              = (Rsum weights * contribution sel cc nc)%R).
  { clear HW. unfold Rsum. induction weights as [|w ws IH]; cbn.
    - ring.
    - rewrite IH. ring. }
  rewrite E. field. exact HW.
Qed.

Lemma reflect_clamps :
  snd (ball_reflect (unitBall (matte 2)) zRay zHit) = unitBall (matte 1).
Proof.
  rewrite reflect_ball. cbn [unitBall matte mat luminous roughness negb].
  at_R.
  replace (Rltb 0 2) with true by (symmetry; apply Rltb_true; lra).
  replace (Rltb 1 2) with true by (symmetry; apply Rltb_true; lra).
  reflexivity.
Qed.

Lemma rough_run :
  scene_getColor 2 (roughScene 2) zRay
  = Some (mkRGBA 25 12 6 255, roughScene 1).
Proof.
  assert (Hnear : findNearestHit (roughScene 2) zRay
                  = (hitDist zRay zHit, 0%Z, zHit)).
  { unfold findNearestHit. cbn [roughScene objects hitLoop].
    rewrite zRay_hit. at_R.
    replace (Rltb (-1) 0) with true by (symmetry; apply Rltb_true; lra).
    reflexivity. }
  rewrite (getColor_hit _ _ 1 (unitBall (matte 2)) _ _ _ Hnear)
    by (discriminate || reflexivity).
  cbn [Z.to_nat].
  pose proof (reflect_weights (unitBall (matte 2)) zRay zHit) as Hw.
  pose proof (reflect_nonempty (unitBall (matte 2)) zRay zHit eq_refl) as Hne.
  pose proof (reflect_outgoing (unitBall (matte 2)) zRay zHit
                ltac:(cbn; lra) zRay_dir (zRay_hit _)) as Hout.
  pose proof (reflect_color (unitBall (matte 2)) zRay zHit) as Hcol.
  pose proof reflect_clamps as Hball.
  destruct (ball_reflect (unitBall (matte 2)) zRay zHit)
    as [[[outgoing weights] cc] o'] eqn:Hreflect.
  cbn [fst snd] in *. subst cc o'.
  destruct Hw as (Hlen & Hpos & Hone). destruct (Hone Hne) as [ws Hws].
  assert (HW : (0 < Rsum weights)%R).
  { rewrite Hws in Hpos |- *. inversion Hpos; subst.
    pose proof (Rsum_nonneg ws ltac:(assumption)).
    unfold Rsum in *. cbn [fold_right]. lra. }
  rewrite (shadeHit_blend _ _ _ _ _ _ _ _ _ _
             (repeat grey (length outgoing)) (roughScene 1) Hreflect Hne).
  - rewrite <- Hlen. unfold blend, blendChannel.
    rewrite !weightedAverage_uniform by lra.
    unfold contribution, grey, matte. cbn [color cR cG cB cA]. eval_widen.
    repeat f_equal; apply to_uint8_R; try lia; lra.
  - cbn [objects setObject background]. fold (roughScene 1).
    apply (shadeAll_miss R _ _ (roughScene 1) 0).
    apply Forall_impl with (2 := Hout). intros o [Hsrc Hdir] b [<-|[]].
    apply on_sphere_src_miss; [|exact Hdir].
    rewrite Hsrc. apply zHit_on_sphere.
Qed.

(** C8, as stated, fails: [reflect] on a non-luminous ball of roughness 2
    leaves the ball with roughness 1, and shading one ray in a scene made of
    that ball leaves the scene with the ball so changed. *)
Lemma reflect_mutates_counterexample :
  snd (ball_reflect (unitBall (matte 2)) zRay zHit) = unitBall (matte 1)
  /\ roughness (mat (snd (ball_reflect (unitBall (matte 2)) zRay zHit)))
     <> roughness (mat (unitBall (matte 2)))
  /\ scene_getColor 2 (roughScene 2) zRay
     = Some (mkRGBA 25 12 6 255, roughScene 1)
  /\ roughScene 1 <> roughScene 2.
Proof.
  split; [exact reflect_clamps|]. split; [rewrite reflect_clamps; cbn; lra|].
  split; [exact rough_run|].
  intro E. apply (f_equal (fun s => map (fun b => roughness (mat b)) (objects s)))
    in E.
  cbn in E. injection E as E. lra.
Qed.

(** ** The same runs in binary64

    Inputs that binary64 represents exactly, evaluated with the program's own
    arithmetic; [math.Cos] and [math.Sin] are left open, none of these runs
    depends on them. *)

Definition unitBall64 (lum : bool) (rough : float) : ball float :=
  (mkBall (mkPoint 0 0 0) 1 (mkMaterial lum (mkRGBA 200 100 50 255) rough))%float.
Definition zRay64 : ray float :=
  (mkRay (mkPoint 0 0 (-3)) (mkDirection 0 0 1))%float.

Example intersect_f64 :
  ball_intersect (unitBall64 false 0) zRay64 = Some (mkPoint 0 0 (-1))%float.
Proof. vm_compute. reflexivity. Qed.

(** The mirror ball sends the ray straight back. *)
Example reflect_smooth_f64 (T : Trig float) :
  ball_reflect (unitBall64 false 0) zRay64 (mkPoint 0 0 (-1))%float
  = ([(mkRay (mkPoint 0 0 (-1)) (mkDirection 0 0 (-1)))%float],
     [1%float], mkRGBA 200 100 50 255, unitBall64 false 0).
Proof. vm_compute. reflexivity. Qed.

(** The mirror ball alone in the grey scene: the reflected ray meets
    nothing and the hit is shaded 32/255 of the ball's colour. *)
Example mirror_run_f64 (T : Trig float) :
  scene_getColor 2 (mkScene [unitBall64 false 0] grey) zRay64
  = Some (mkRGBA 25 12 6 255, mkScene [unitBall64 false 0] grey).
Proof. vm_compute. reflexivity. Qed.

(** A roughness above 1 is overwritten. *)
Example reflect_clamps_f64 (T : Trig float) :
  snd (ball_reflect (unitBall64 false 2) zRay64 (mkPoint 0 0 (-1))%float)
  = unitBall64 false 1.
Proof. rewrite reflect_ball. vm_compute. reflexivity. Qed.

(** The radius loop at its largest limit: 100 radii, the guard ends it. *)
Example radiusLoop_f64 :
  length (radiusLoop radiusFuel (fconst 1 100) (fofZ 5) : list float) = 100%nat
  /\ length (radiusLoop 101 (fconst 1 100) (fofZ 5) : list float) = 100%nat.
Proof. split; vm_compute; reflexivity. Qed.

(** The weights are the two constants 1 and 1/72, in every arithmetic. *)
Lemma reflect_weights_values (F : Type) (A : Float64 F) (T : Trig F)
      (b : ball F) (r : ray F) (p : point F) :
  Forall (fun w => w = fofZ 1 \/ w = fconst 1 72)
         (snd (fst (fst (ball_reflect b r p)))).
Proof.
  unfold ball_reflect. destruct (luminous (mat b)); cbn [negb];
    [constructor|].
  destruct (fltb (fofZ 0) (roughness (mat b))).
  - destruct (orthogonalPair _) as [n1dir n2dirTemp]. cbn [fst snd].
    constructor; [now left|]. apply Forall_map, Forall_forall.
    intros o _. now right.
  - cbn [fst snd]. constructor; [now left|constructor].
Qed.

Example weights_f64 :
  PrimFloat.ltb 0 (fofZ 1) = true /\ PrimFloat.ltb 0 (fconst 1 72) = true.
Proof. split; vm_compute; reflexivity. Qed.

(** * Further properties of the engine *)

(** ** The vector algebra *)

Lemma rotateAround_unfold (v nrm : direction R) :
  rotateAround v nrm
  = (mkDirection
       (2 * dot (normalize nrm) v * dx (normalize nrm) - dx v)
       (2 * dot (normalize nrm) v * dy (normalize nrm) - dy v)
       (2 * dot (normalize nrm) v * dz (normalize nrm) - dz v))%R.
Proof.
  unfold rotateAround, dot.
  destruct (normalize nrm) as [a b c], v as [vx vy vz].
  cbn [dx dy dz]. at_R. f_equal; ring.
Qed.

(** X1.  "rotate v 180 degrees around normal": doing it twice gives [v]
    back, whatever the length of the (non-zero) normal. *)
Theorem rotateAround_involutive (v nrm : direction R) :
  norm2 nrm <> 0%R ->
  rotateAround (rotateAround v nrm) nrm = v.
Proof.
  intro Hn. pose proof (normalize_unit nrm Hn) as Hu.
  rewrite !rotateAround_unfold. unfold dot in *.
  destruct (normalize nrm) as [a b c], v as [vx vy vz].
  cbn [dx dy dz] in *. at_R. f_equal; nsatz.
Qed.

Lemma rotateAround_involutive_witness :
  norm2 (mkDirection 0 0 2)%R <> 0%R
  /\ rotateAround (rotateAround (mkDirection 1 2 3)%R (mkDirection 0 0 2)%R)
                  (mkDirection 0 0 2)%R
     = (mkDirection 1 2 3)%R.
Proof.
  assert (H : norm2 (mkDirection 0 0 2)%R <> 0%R) by (geom; lra).
  split; [exact H|]. exact (rotateAround_involutive _ _ H).
Defined.

(** X2.  The half-turn is an isometry: it keeps dot products, hence
    lengths and angles. *)
Theorem rotateAround_dot (v w nrm : direction R) :
  norm2 nrm <> 0%R ->
  dot (rotateAround v nrm) (rotateAround w nrm) = dot v w
  /\ norm (rotateAround v nrm) = norm v.
Proof.
  intro Hn. pose proof (normalize_unit nrm Hn) as Hu.
  assert (Hd : forall u u' : direction R,
             dot (rotateAround u nrm) (rotateAround u' nrm) = dot u u').
  { intros u u'. rewrite !rotateAround_unfold. unfold dot in *.
    destruct (normalize nrm) as [a b c], u as [ux uy uz], u' as [wx wy wz].
    cbn [dx dy dz] in *. at_R. nsatz. }
  split; [apply Hd|].
  unfold norm. f_equal. specialize (Hd v v). unfold dot, norm2 in *. exact Hd.
Qed.

Lemma rotateAround_dot_witness :
  norm2 (mkDirection 0 0 2)%R <> 0%R
  /\ norm (rotateAround (mkDirection 1 2 3)%R (mkDirection 0 0 2)%R)
     = norm (mkDirection 1 2 3)%R.
Proof.
  assert (H : norm2 (mkDirection 0 0 2)%R <> 0%R) by (geom; lra).
  split; [exact H|]. exact (proj2 (rotateAround_dot _ (mkDirection 1 2 3)%R _ H)).
Defined.

(** X3.  The axis of the half-turn: a vector along the normal is kept, a
    vector perpendicular to it is negated. *)
Theorem rotateAround_axis (v nrm : direction R) :
  norm2 nrm <> 0%R ->
  (forall k : R, v = direction_scale nrm k -> rotateAround v nrm = v)
  /\ (dot nrm v = 0%R -> rotateAround v nrm = direction_flip v).
Proof.
  intro Hn. pose proof (norm_pos nrm Hn) as HN. pose proof (norm_sq nrm) as HNN.
  split.
  - intros k ->. rewrite rotateAround_unfold.
    destruct nrm as [a b c]. unfold normalize, dot, direction_scale in *.
    cbn [dx dy dz] in *. set (N := norm _) in *.
    unfold norm2 in HNN. cbn [dx dy dz] in HNN. at_R.
    assert (HN' : N <> 0%R) by lra.
    assert (Hdot : (a / N * (k * a) + b / N * (k * b) + c / N * (k * c)
                    = k * N)%R).
    { replace (a / N * (k * a) + b / N * (k * b) + c / N * (k * c))%R
        with (k * (a * a + b * b + c * c) / N)%R by (field; exact HN').
      rewrite <- HNN. field. exact HN'. }
    rewrite Hdot. f_equal; field; exact HN'.
  - intro Hperp. rewrite rotateAround_unfold.
    rewrite (normalize_dot nrm v Hperp).
    destruct v as [vx vy vz]. unfold direction_flip, direction_scale.
    cbn [dx dy dz]. at_R. f_equal; ring.
Qed.

Lemma rotateAround_axis_witness :
  norm2 (mkDirection 0 0 2)%R <> 0%R
  /\ rotateAround (mkDirection 0 0 6)%R (mkDirection 0 0 2)%R
     = (mkDirection 0 0 6)%R
  /\ rotateAround (mkDirection 1 2 0)%R (mkDirection 0 0 2)%R
     = direction_flip (mkDirection 1 2 0)%R.
Proof.
  assert (H : norm2 (mkDirection 0 0 2)%R <> 0%R) by (geom; lra).
  destruct (rotateAround_axis (mkDirection 0 0 6)%R _ H) as [Hal _].
  destruct (rotateAround_axis (mkDirection 1 2 0)%R _ H) as [_ Hperp].
  split; [exact H|]. split.
  - apply (Hal 3%R). unfold direction_scale. cbn. f_equal; lra.
  - apply Hperp. unfold dot. cbn. lra.
Defined.

Lemma norm_scale_sq (d : direction R) (k : R) :
  (norm (direction_scale d k) * norm (direction_scale d k)
   = k * k * (norm d * norm d))%R.
Proof.
  rewrite !norm_sq. destruct d as [a b c].
  unfold norm2, direction_scale. cbn [dx dy dz]. at_R. ring.
Qed.

Lemma norm2_scale (d : direction R) (k : R) :
  norm2 d <> 0%R -> k <> 0%R -> norm2 (direction_scale d k) <> 0%R.
Proof.
  intros Hd Hk. destruct d as [a b c].
  unfold norm2, direction_scale in *. cbn [dx dy dz] in *. at_R.
  replace (k * a * (k * a) + k * b * (k * b) + k * c * (k * c))%R
    with ((k * k) * (a * a + b * b + c * c))%R by ring.
  apply Rmult_integral_contrapositive. split; [nra|exact Hd].
Qed.

(** X4.  Only the line of the normal matters to the half-turn: scaling the
    normal by any non-zero factor, negative ones included, changes
    nothing. *)
Theorem rotateAround_normal_scale (v nrm : direction R) (k : R) :
  norm2 nrm <> 0%R -> k <> 0%R ->
  rotateAround v (direction_scale nrm k) = rotateAround v nrm.
Proof.
  intros Hn Hk.
  pose proof (norm_pos nrm Hn) as HN.
  pose proof (norm_pos _ (norm2_scale nrm k Hn Hk)) as HM.
  pose proof (norm_scale_sq nrm k) as HMM.
  rewrite !rotateAround_unfold. unfold normalize, dot.
  set (M := norm (direction_scale nrm k)) in *. set (N := norm nrm) in *.
  destruct nrm as [a b c], v as [vx vy vz].
  unfold direction_scale. cbn [dx dy dz]. at_R.
  assert (HK : (k * k / (M * M) = 1 / (N * N))%R).
  { rewrite HMM. field. split; lra. }
  assert (E : forall u : R,
             (2 * (k * a / M * vx + k * b / M * vy + k * c / M * vz)
                * (k * u / M) - 0
              = 2 * (a / N * vx + b / N * vy + c / N * vz) * (u / N))%R).
  { intro u.
    replace (2 * (k * a / M * vx + k * b / M * vy + k * c / M * vz)
               * (k * u / M) - 0)%R
      with (2 * (a * vx + b * vy + c * vz) * u * (k * k / (M * M)))%R
      by (field; lra).
    rewrite HK. field. lra. }
  f_equal.
  - pose proof (E a). lra.
  - pose proof (E b). lra.
  - pose proof (E c). lra.
Qed.

Lemma rotateAround_normal_scale_witness :
  norm2 (mkDirection 0 0 2)%R <> 0%R /\ (-3)%R <> 0%R
  /\ rotateAround (mkDirection 1 2 3)%R
                  (direction_scale (mkDirection 0 0 2)%R (-3)%R)
     = rotateAround (mkDirection 1 2 3)%R (mkDirection 0 0 2)%R.
Proof.
  assert (H : norm2 (mkDirection 0 0 2)%R <> 0%R) by (geom; lra).
  assert (Hk : (-3)%R <> 0%R) by lra.
  split; [exact H|]. split; [exact Hk|].
  exact (rotateAround_normal_scale _ _ _ H Hk).
Defined.

Lemma normalize_rescale (d : direction R) :
  norm2 d <> 0%R -> direction_scale (normalize d) (norm d) = d.
Proof.
  intro Hd. pose proof (norm_pos d Hd) as HN.
  unfold normalize, direction_scale. destruct d as [a b c].
  cbn [dx dy dz]. at_R. set (N := norm _) in *. f_equal; field; lra.
Qed.

(** X5.  [normalize] yields a vector of length 1 along the same half-line:
    normalising again changes nothing, and a positive multiple of a vector
    normalises to the same vector. *)
Theorem normalize_unit_length (d : direction R) :
  norm2 d <> 0%R ->
  norm (normalize d) = 1%R
  /\ normalize (normalize d) = normalize d
  /\ (forall k : R, (0 < k)%R ->
                    normalize (direction_scale d k) = normalize d)
  /\ direction_scale (normalize d) (norm d) = d.
Proof.
  intro Hd. pose proof (norm_pos d Hd) as HN.
  pose proof (normalize_unit d Hd) as Hu.
  assert (H1 : norm (normalize d) = 1%R).
  { unfold norm. at_R. apply sqrt_sq_abs; [lra|].
    unfold norm2, dot in *. lra. }
  split; [exact H1|]. split; [|split].
  - unfold normalize at 1. rewrite H1.
    destruct (normalize d) as [a b c]. cbn [dx dy dz]. at_R.
    f_equal; field.
  - intros k Hk.
    assert (HM : norm (direction_scale d k) = (k * norm d)%R).
    { unfold norm at 1. at_R. apply sqrt_sq_abs; [nra|].
      replace (k * norm d * (k * norm d))%R
        with (k * k * (norm d * norm d))%R by ring.
      rewrite norm_sq. destruct d as [a b c].
      unfold norm2, direction_scale. cbn [dx dy dz]. at_R. ring. }
    unfold normalize. rewrite HM. destruct d as [a b c].
    unfold direction_scale. cbn [dx dy dz]. at_R.
    set (N := norm _) in *. f_equal; field; split; lra.
  - now apply normalize_rescale.
Qed.

Lemma normalize_unit_length_witness :
  norm2 (mkDirection 3 0 4)%R <> 0%R
  /\ norm (normalize (mkDirection 3 0 4)%R) = 1%R.
Proof.
  assert (H : norm2 (mkDirection 3 0 4)%R <> 0%R) by (geom; lra).
  split; [exact H|]. exact (proj1 (normalize_unit_length _ H)).
Defined.

(** X6.  Flipping a ray twice gives the ray back, and a flipped ray runs
    through the same points with the parameter negated. *)
Theorem ray_flip_involutive (r : ray R) :
  ray_flip (ray_flip r) = r
  /\ forall t : R, ray_scale (ray_flip r) t = ray_scale r (- t)%R.
Proof.
  destruct r as [[sx sy sz] [a b c]]. split.
  - geom. f_equal. f_equal; ring.
  - intro t. geom. f_equal; ring.
Qed.

(** X7.  The ray [getRay src dst] starts at [src], reaches [dst] at
    parameter 1, and every ray is the ray from its source to its point at
    parameter 1. *)
Theorem getRay_endpoints :
  (forall a b : point R,
      ray_scale (getRay a b) 0%R = a /\ ray_scale (getRay a b) 1%R = b)
  /\ (forall r : ray R, getRay (src r) (ray_scale r 1%R) = r).
Proof.
  split.
  - intros [ax ay az] [bx0 by0 bz]. split; geom; f_equal; ring.
  - intros [[sx sy sz] [a b c]]. geom. f_equal. f_equal; ring.
Qed.

(** X8.  [shiftBy] keeps the source of the ray and adds to its direction:
    two shifts are one shift by the sum, and the point at parameter [t]
    moves by [t] times the shift. *)
Theorem ray_shiftBy_compose (r : ray R) (d1 d2 : direction R) :
  src (ray_shiftBy r d1) = src r
  /\ ray_shiftBy (ray_shiftBy r d1) d2 = ray_shiftBy r (direction_add d1 d2)
  /\ forall t : R,
       point_to (ray_scale r t) (ray_scale (ray_shiftBy r d1) t)
       = direction_scale d1 t.
Proof.
  destruct r as [[sx sy sz] [a b c]], d1 as [a1 b1 c1], d2 as [a2 b2 c2].
  split; [reflexivity|]. split.
  - unfold ray_shiftBy. geom. f_equal. f_equal; ring.
  - intro t. unfold ray_shiftBy. geom. f_equal; ring.
Qed.

(** ** More on intersection and reflection *)

Lemma entry_slope (b : ball R) (r : ray R) :
  quad_a r <> 0%R -> (0 <= discriminant b r)%R ->
  (2 * quad_a r * smaller_root b r + quad_b b r
   = - sqrt (discriminant b r))%R.
Proof.
  intros Ha Hd. unfold smaller_root. field. exact Ha.
Qed.

(** X9.  A hit is the first point of the whole line on the ball: every
    point of the ray before it, the origin of the ray included, lies
    strictly outside the ball, and the hit is at least [tolerance |dir|]
    away from the origin. *)
Theorem intersect_first (b : ball R) (r : ray R) (p : point R) :
  norm2 (dir r) <> 0%R ->
  ball_intersect b r = Some p ->
  exists t : R,
    p = ray_scale r t
    /\ (tolerance <= t)%R
    /\ on_sphere b p
    /\ hitDist r p = (t * norm (dir r))%R
    /\ (tolerance * norm (dir r) <= hitDist r p)%R
    /\ forall t' : R,
         (t' < t)%R ->
         (radius b * radius b
          < norm2 (point_to (center b) (ray_scale r t')))%R.
Proof.
  intros Ha Hhit.
  pose proof (intersect_on_sphere b r p Ha Hhit) as Hon.
  apply intersect_Some_inv in Hhit as (Hd & Ht & ->).
  pose proof (norm_pos _ Ha) as HN. pose proof (norm_sq (dir r)) as HNN.
  exists (smaller_root b r).
  assert (Hdist : hitDist r (ray_scale r (smaller_root b r))
                  = (smaller_root b r * norm (dir r))%R).
  { unfold hitDist, norm at 1. at_R. apply sqrt_sq_abs.
    - at_R. nra.
    - replace (smaller_root b r * norm (dir r)
               * (smaller_root b r * norm (dir r)))%R
        with (smaller_root b r * smaller_root b r
              * (norm (dir r) * norm (dir r)))%R by ring.
      rewrite HNN. destruct r as [[sx sy sz] [a0 b0 c0]].
      set (t := smaller_root _ _). geom. ring. }
  repeat (split; [first [reflexivity | assumption]|]).
  split; [rewrite Hdist; at_R; nra|].
  intros t' Hlt.
  pose proof (quadratic_at b r t') as Hq.
  pose proof (smaller_root_is_root b r Ha Hd) as Hroot.
  pose proof (entry_slope b r Ha Hd) as Hslope.
  pose proof (sqrt_pos (discriminant b r)) as Hs0.
  pose proof (norm2_nonneg (dir r)) as Ha0. fold (quad_a r) in Ha, Ha0.
  set (t := smaller_root b r) in *. set (s := sqrt _) in *.
  set (A := quad_a r) in *. set (B := quad_b b r) in *.
  set (C := quad_c b r) in *.
  assert (HA : (0 < A)%R) by lra.
  assert (E : (A * t' * t' + B * t' + C
               = (t - t') * (A * (t - t') + s))%R) by nsatz.
  assert (Hpos : (0 < (t - t') * (A * (t - t') + s))%R).
  { apply Rmult_lt_0_compat; nra. }
  lra.
Qed.

Lemma intersect_first_witness :
  norm2 (dir zRay) <> 0%R
  /\ ball_intersect (unitBall (matte 0)) zRay = Some zHit
  /\ exists t : R, zHit = ray_scale zRay t /\ (tolerance <= t)%R.
Proof.
  split; [exact zRay_dir|]. split; [apply zRay_hit|].
  destruct (intersect_first (unitBall (matte 0)) zRay zHit zRay_dir (zRay_hit _))
    as (t & Hp & Ht & _).
  exists t. split; assumption.
Defined.

(** X10.  At a hit the ray is going into the ball and the ray [reflect]
    returns first is going out of it: the incoming direction makes a
    non-positive dot product with the outward normal, the reflected one the
    opposite. *)
Theorem reflect_leaves (b : ball R) (r : ray R) (p : point R) :
  luminous (mat b) = false ->
  (0 < radius b)%R ->
  norm2 (dir r) <> 0%R ->
  ball_intersect b r = Some p ->
  (dot (dir r) (point_to (center b) p) <= 0)%R
  /\ exists (o : ray R) (rest : list (ray R)),
       fst (fst (fst (ball_reflect b r p))) = o :: rest
       /\ src o = p
       /\ dot (dir o) (point_to (center b) p)
          = (- dot (dir r) (point_to (center b) p))%R.
Proof.
  intros Hlum Hrad Ha Hhit.
  pose proof (intersect_on_sphere b r p Ha Hhit) as Hon.
  assert (Hin : (dot (dir r) (point_to (center b) p) <= 0)%R).
  { apply intersect_Some_inv in Hhit as (Hd & _ & ->).
    pose proof (entry_slope b r Ha Hd) as Hslope.
    pose proof (sqrt_pos (discriminant b r)) as Hs0.
    assert (E : (2 * dot (dir r)
                       (point_to (center b) (ray_scale r (smaller_root b r)))
                 = 2 * quad_a r * smaller_root b r + quad_b b r)%R).
    { unfold quad_a, quad_b, originOffset.
      destruct b as [[cx cy cz] rad m], r as [[sx sy sz] [a0 b0 c0]].
      set (t := smaller_root _ _). geom. ring. }
    lra. }
  split; [exact Hin|].
  unfold on_sphere in Hon.
  assert (Hw : norm2 (point_to (center b) p) <> 0%R) by nra.
  pose proof (normalize_unit _ Hw) as Hu.
  pose proof (norm_pos _ Hw) as HN.
  assert (Hout : dot (mirror (dir r) (normalize (point_to (center b) p)))
                     (point_to (center b) p)
                 = (- dot (dir r) (point_to (center b) p))%R).
  { pose proof (mirror_dot (dir r) _ Hu) as Hm.
    pose proof (normalize_rescale _ Hw) as Hback.
    set (n := normalize (point_to (center b) p)) in *.
    set (N := norm (point_to (center b) p)) in *.
    rewrite <- Hback.
    destruct (mirror (dir r) n) as [ox oy oz], n as [nx ny nz],
             (dir r) as [a0 b0 c0].
    unfold dot, direction_scale in *. cbn [dx dy dz] in *. at_R. nsatz. }
  unfold ball_reflect. rewrite Hlum. cbn [negb]. rewrite outgoingDir_mirror.
  destruct (fltb (fofZ 0) (roughness (mat b))).
  - destruct (orthogonalPair _) as [n1dir n2dirTemp]. cbn [fst].
    eexists. eexists. split; [reflexivity|]. split; [reflexivity|exact Hout].
  - cbn [fst]. eexists. eexists.
    split; [reflexivity|]. split; [reflexivity|exact Hout].
Qed.

Lemma reflect_leaves_witness :
  luminous (mat (unitBall (matte 1))) = false
  /\ (0 < radius (unitBall (matte 1)))%R
  /\ norm2 (dir zRay) <> 0%R
  /\ ball_intersect (unitBall (matte 1)) zRay = Some zHit
  /\ (dot (dir zRay) (point_to (center (unitBall (matte 1))) zHit) <= 0)%R.
Proof.
  assert (H1 : luminous (mat (unitBall (matte 1))) = false) by reflexivity.
  assert (H2 : (0 < radius (unitBall (matte 1)))%R) by (cbn; lra).
  repeat (split; [first [exact H1 | exact H2 | exact zRay_dir
                        | apply zRay_hit]|]).
  exact (proj1 (reflect_leaves _ zRay zHit H1 H2 zRay_dir (zRay_hit _))).
Defined.

(** X11.  No ray that [reflect] returns for a hit meets the ball it leaves
    again, neither as it was nor as the call leaves it: a ball never
    shades itself. *)
Theorem reflect_no_self_hit (b : ball R) (r : ray R) (p : point R) :
  (0 < radius b)%R ->
  norm2 (dir r) <> 0%R ->
  ball_intersect b r = Some p ->
  Forall (fun o => ball_intersect b o = None
                   /\ ball_intersect (snd (ball_reflect b r p)) o = None)
         (fst (fst (fst (ball_reflect b r p)))).
Proof.
  intros Hrad Ha Hhit.
  pose proof (intersect_on_sphere b r p Ha Hhit) as Hon.
  pose proof (reflect_outgoing b r p Hrad Ha Hhit) as Hout.
  pose proof (reflect_clampedFrom b r p) as Hc.
  apply Forall_impl with (2 := Hout). intros o [Hsrc Hdir].
  split.
  - apply on_sphere_src_miss; [now rewrite Hsrc|exact Hdir].
  - apply on_sphere_src_miss; [|exact Hdir]. rewrite Hsrc.
    destruct Hc as [->|(-> & _)]; [exact Hon|exact Hon].
Qed.

Lemma reflect_no_self_hit_witness :
  (0 < radius (unitBall (matte 2)))%R
  /\ norm2 (dir zRay) <> 0%R
  /\ ball_intersect (unitBall (matte 2)) zRay = Some zHit
  /\ Forall (fun o => ball_intersect (unitBall (matte 2)) o = None
                      /\ ball_intersect
                           (snd (ball_reflect (unitBall (matte 2)) zRay zHit)) o
                         = None)
            (fst (fst (fst (ball_reflect (unitBall (matte 2)) zRay zHit)))).
Proof.
  assert (H2 : (0 < radius (unitBall (matte 2)))%R) by (cbn; lra).
  repeat (split; [first [exact H2 | exact zRay_dir | apply zRay_hit]|]).
  exact (reflect_no_self_hit _ zRay zHit H2 zRay_dir (zRay_hit _)).
Defined.

(** X12.  The scattered directions lie on cones around the reflected
    direction [out]: with the basis [reflect] builds, the ray scattered at
    [radius] keeps the component [out] along [out] and is longer than [out]
    by the factor [sqrt (1 + radius^2)], at every angle. *)
Theorem scatter_cone (p : point R) (out : direction R) (radius0 : R)
        (angle : Z) :
  norm2 out <> 0%R ->
  let '(n1, n2) := fanBasis out in
  let o := scatter p out n1 n2 radius0 angle in
  src o = p
  /\ dot (dir o) out = norm2 out
  /\ norm2 (dir o) = (norm2 out * (1 + radius0 * radius0))%R.
Proof.
  intro Hout. pose proof (fanBasis_orthonormal out Hout) as Hb.
  destruct (fanBasis out) as [n1 n2].
  destruct Hb as (H11 & H22 & H12 & H1o & H2o).
  pose proof (norm_sq out) as HNN.
  split; [reflexivity|].
  unfold scatter. cbn [dir]. at_R.
  pose proof (sin2_cos2 (IZR angle * (PI / 180))) as Htrig.
  unfold Rsqr in Htrig.
  set (cs := cos _) in *. set (sn := sin _) in *. set (N := norm out) in *.
  destruct out as [a b c], n1 as [a1 b1 c1], n2 as [a2 b2 c2].
  unfold dot, norm2 in *. cbn [dx dy dz] in *. at_R.
  split; nsatz.
Qed.

Lemma scatter_cone_witness :
  norm2 (mkDirection 0 0 (-1))%R <> 0%R
  /\ (let '(n1, n2) := fanBasis (mkDirection 0 0 (-1))%R in
      norm2 (dir (scatter zHit (mkDirection 0 0 (-1))%R n1 n2 2%R 45))
      = 5%R).
Proof.
  assert (H : norm2 (mkDirection 0 0 (-1))%R <> 0%R) by (geom; lra).
  split; [exact H|].
  pose proof (scatter_cone zHit _ 2%R 45 H) as Hc.
  destruct (fanBasis _) as [n1 n2]. destruct Hc as (_ & _ & ->).
  geom. lra.
Defined.

(** X13.  The size of what [reflect] returns, whatever the ray and the
    point: nothing for a luminous ball, otherwise one ray and 72 more per
    ring, at most 7201 in all; a roughness that is not positive, or below
    0.002, gives the reflected ray alone. *)
Theorem reflect_size (b : ball R) (r : ray R) (p : point R) :
  let outgoing := fst (fst (fst (ball_reflect b r p))) in
  (luminous (mat b) = true -> outgoing = [])
  /\ (luminous (mat b) = false ->
      exists K : nat,
        (K <= 100)%nat /\ length outgoing = (1 + 72 * K)%nat
        /\ ((roughness (mat b) < 1 / 500)%R -> K = 0%nat))
  /\ (length outgoing <= 1 + 72 * 100)%nat.
Proof.
  cbv zeta.
  assert (Hnl : luminous (mat b) = false ->
                exists K : nat,
                  (K <= 100)%nat
                  /\ length (fst (fst (fst (ball_reflect b r p))))
                     = (1 + 72 * K)%nat
                  /\ ((roughness (mat b) < 1 / 500)%R -> K = 0%nat)).
  { intro Hlum. unfold ball_reflect. rewrite Hlum. cbn [negb]. at_R.
    destruct (Rltb 0 (roughness (mat b))) eqn:Hpos.
    - destruct (orthogonalPair _) as [n1dir n2dirTemp].
      set (b' := if Rltb 1 (roughness (mat b)) then clampRoughness b else b).
      assert (Hr : roughness (mat b') = Rmin (roughness (mat b)) 1).
      { unfold b', Rmin. destruct (Rltb 1 (roughness (mat b))) eqn:Hc.
        - apply Rltb_true in Hc. cbn. destruct (Rle_dec _ _); lra.
        - apply Rltb_false in Hc. destruct (Rle_dec _ _); lra. }
      pose proof (Rmin_r (roughness (mat b)) 1) as Hle1.
      pose proof (Rmin_l (roughness (mat b)) 1) as Hle2.
      destruct (radiusLoop_fuel (5 * roughness (mat b'))%R)
        as (K & _ & Hradii & HK); [rewrite Hr; lra|].
      at_R. rewrite Hradii. cbn [fst length].
      rewrite fan_length, !length_map, length_seq.
      exists K. split; [|split].
      + destruct (Nat.le_gt_cases K 100) as [Hle|Hgt]; [exact Hle|].
        assert (H100 : (100 < K)%nat) by lia.
        apply HK in H100. rewrite INR_IZR_INZ in H100. cbn in H100. lra.
      + unfold angles. cbn [length angleLoop]. reflexivity.
      + intro Hsmall. destruct K as [|K]; [reflexivity|].
        assert (H0 : (0 < S K)%nat) by lia.
        apply HK in H0. cbn in H0. lra.
    - cbn [fst length]. exists 0%nat. repeat split; lia. }
  split; [|split].
  - intro Hlum. now rewrite (reflect_luminous b r p Hlum).
  - exact Hnl.
  - destruct (luminous (mat b)) eqn:Hlum.
    + rewrite (reflect_luminous b r p Hlum). cbn. lia.
    + destruct (Hnl eq_refl) as (K & HK & -> & _). lia.
Qed.

(** ** What [getColor] never does, in every arithmetic *)

Section Safety.
Context {F : Type} `{Float64 F} `{Trig F}.

(** After the balls [seen] the scan holds no index, or the index of a ball
    among them that the ray meets at the point it holds. *)
Definition indexed (seen : list (ball F)) (r : ray F)
           (st : F * Z * point F) : Prop :=
  let '(_, minI, ipnt) := st in
  minI = (-1)%Z
  \/ exists (k : nat) (o : ball F),
       minI = Z.of_nat k /\ nth_error seen k = Some o
       /\ ball_intersect o r = Some ipnt.

Lemma hitLoop_indexed (objs seen : list (ball F)) (r : ray F)
      (st : F * Z * point F) :
  indexed seen r st ->
  indexed (seen ++ objs) r (hitLoop objs (Z.of_nat (length seen)) r st).
Proof.
  revert seen st. induction objs as [|o rest IH]; intros seen st Inv.
  - rewrite app_nil_r. exact Inv.
  - cbn [hitLoop]. destruct st as [[minDist minI] ipnt].
    replace (seen ++ o :: rest) with ((seen ++ [o]) ++ rest)
      by (now rewrite <- app_assoc).
    replace (Z.of_nat (length seen) + 1)%Z
      with (Z.of_nat (length (seen ++ [o])))
      by (rewrite length_app; cbn; lia).
    apply IH.
    assert (Old : indexed (seen ++ [o]) r (minDist, minI, ipnt)).
    { destruct Inv as [->|(k & ok & -> & Hk & Hok)]; [now left|].
      right. exists k, ok. repeat split; trivial.
      rewrite nth_error_app1; [exact Hk|].
      apply nth_error_Some. congruence. }
    destruct (ball_intersect o r) as [p|] eqn:Ho; [|exact Old].
    cbv zeta. destruct (_ || _)%bool; [|exact Old].
    right. exists (length seen), o. repeat split; trivial.
    rewrite nth_error_app2 by lia. now rewrite Nat.sub_diag.
Qed.

Lemma findNearestHit_indexed (s : scene F) (r : ray F) :
  indexed (objects s) r (findNearestHit s r).
Proof.
  unfold findNearestHit. apply (hitLoop_indexed (objects s) [] r). now left.
Qed.

Lemma reflect_lengths (b : ball F) (r : ray F) (p : point F) :
  length (snd (fst (fst (ball_reflect b r p))))
  = length (fst (fst (fst (ball_reflect b r p)))).
Proof.
  unfold ball_reflect. destruct (luminous (mat b)); cbn [negb];
    [reflexivity|].
  destruct (fltb (fofZ 0) (roughness (mat b))); [|reflexivity].
  destruct (orthogonalPair _) as [n1dir n2dirTemp].
  cbn [fst snd length]. now rewrite length_map.
Qed.

(** A shading loop that does not return has made a call that did not: on
    one of its rays, in the scene as the calls before it left it. *)
Lemma shadeLoop_None_call
      (rec : scene F -> ray F -> option (RGBA * scene F)) (rgb : Z * Z * Z) :
  (forall s r c s', rec s r = Some (c, s') -> evolves s s') ->
  forall outgoing weights acc s,
    length weights = length outgoing ->
    shadeLoop rec rgb outgoing weights acc s = None ->
    exists q s1, In q outgoing /\ evolves s s1 /\ rec s1 q = None.
Proof.
  intro Hrec.
  induction outgoing as [|o outgoing IH]; intros weights acc s Hlen Hrun.
  - discriminate.
  - destruct weights as [|w weights]; [discriminate|]. cbn in Hrun.
    destruct (rec s o) as [[nc s1]|] eqn:Ho.
    + destruct (IH weights _ s1 ltac:(cbn in Hlen; lia) Hrun)
        as (q & s2 & Hq & Hev & Hnone).
      exists q, s2. split; [now right|]. split; [|exact Hnone].
      eapply evolves_trans; [eapply Hrec; eassumption|exact Hev].
    + exists o, s. split; [now left|]. split; [apply evolves_refl|exact Ho].
Qed.

(** A ball on which [reflect] writes nothing. *)
Definition stable (b : ball F) : Prop :=
  (negb (luminous (mat b))
   && fltb (fofZ 0) (roughness (mat b))
   && fltb (fofZ 1) (roughness (mat b)))%bool = false.

Lemma setObject_stable (objs : list (ball F)) (i : nat) (o : ball F)
      (r : ray F) (p : point F) :
  nth_error objs i = Some o -> stable o ->
  setObject objs i (snd (ball_reflect o r p)) = objs.
Proof.
  intros Ho Hst. rewrite reflect_ball. unfold stable in Hst. rewrite Hst.
  now apply setObject_same.
Qed.

Lemma shadeLoop_same (rec : scene F -> ray F -> option (RGBA * scene F))
      (s : scene F) :
  (forall r c s', rec s r = Some (c, s') -> s' = s) ->
  forall rgb outgoing weights acc acc' s',
    shadeLoop rec rgb outgoing weights acc s = Some (acc', s') -> s' = s.
Proof.
  intros Hrec rgb outgoing.
  induction outgoing as [|o outgoing IH]; intros weights acc acc' s' Hrun.
  - cbn in Hrun. now injection Hrun as _ <-.
  - destruct weights as [|w weights]; cbn in Hrun; [discriminate|].
    destruct (rec s o) as [[nc s1]|] eqn:Ho; [|discriminate].
    apply Hrec in Ho. subst s1. eapply IH; eassumption.
Qed.

Lemma getColor_stable (fuel : nat) (s : scene F) :
  Forall stable (objects s) ->
  forall (r : ray F) (c : RGBA) (s' : scene F),
    scene_getColor fuel s r = Some (c, s') -> s' = s.
Proof.
  intro Hst. induction fuel as [|fuel IH]; intros r c s' Hrun; [discriminate|].
  cbn [scene_getColor] in Hrun.
  destruct (findNearestHit s r) as [[minDist minI] ipnt].
  destruct (negb (minI =? -1)%Z); [|now injection Hrun as _ <-].
  destruct (nth_error (objects s) (Z.to_nat minI)) as [o|] eqn:Ho;
    [|discriminate].
  assert (Hso : stable o).
  { apply nth_error_In in Ho. rewrite Forall_forall in Hst. now apply Hst. }
  unfold shadeHit in Hrun.
  pose proof (setObject_stable _ _ _ r ipnt Ho Hso) as Hset.
  destruct (ball_reflect o r ipnt) as [[[outgoing weights] cc] o'].
  cbn [snd] in Hset. rewrite Hset in Hrun.
  replace (mkScene (objects s) (background s)) with s in Hrun
    by (now destruct s).
  destruct outgoing as [|o1 outgoing]; [now injection Hrun as _ <-|].
  destruct (RGBA_RGBA cc) as [[[cr cg] cb] ca].
  destruct (shadeLoop _ _ _ _ _ _) as [[acc s2]|] eqn:Hloop; [|discriminate].
  injection Hrun as _ <-.
  eapply shadeLoop_same; [|exact Hloop]. exact IH.
Qed.
End Safety.

(** X14.  [getColor] indexes within bounds, in binary64 as over the reals:
    the scan ends with -1 or with the index of a ball of the scene, one the
    ray does meet at the point kept; [reflect] returns as many weights as
    rays; so a call can fail to return only through a recursive call that
    does: the call has found a ball that is not luminous, and its call of
    [getColor] on one of the rays [reflect] returned for that hit, in the
    scene as the calls before it left it, has not returned. *)
Theorem getColor_in_bounds (F : Type) (A : Float64 F) (T : Trig F)
        (s : scene F) (r : ray F) (fuel : nat) :
  (let '(_, minI, ipnt) := findNearestHit s r in
   minI = (-1)%Z
   \/ exists o : ball F,
        (0 <= minI < Z.of_nat (length (objects s)))%Z
        /\ nth_error (objects s) (Z.to_nat minI) = Some o
        /\ ball_intersect o r = Some ipnt)
  /\ (forall (b : ball F) (p : point F),
         length (snd (fst (fst (ball_reflect b r p))))
         = length (fst (fst (fst (ball_reflect b r p)))))
  /\ (scene_getColor (S fuel) s r = None ->
      let '(_, minI, ipnt) := findNearestHit s r in
      exists (k : nat) (o : ball F) (q : ray F) (s1 : scene F),
        minI = Z.of_nat k
        /\ nth_error (objects s) k = Some o
        /\ ball_intersect o r = Some ipnt
        /\ luminous (mat o) = false
        /\ In q (fst (fst (fst (ball_reflect o r ipnt))))
        /\ evolves s s1
        /\ scene_getColor fuel s1 q = None).
Proof.
  pose proof (findNearestHit_indexed s r) as Inv.
  split; [|split].
  - destruct (findNearestHit s r) as [[minDist minI] ipnt].
    destruct Inv as [->|(k & o & -> & Hk & Ho)]; [now left|].
    right. exists o. rewrite Nat2Z.id. repeat split; trivial; try lia.
    apply Nat2Z.inj_lt, nth_error_Some. congruence.
  - intros b p. apply reflect_lengths.
  - cbn [scene_getColor].
    destruct (findNearestHit s r) as [[minDist minI] ipnt].
    destruct Inv as [->|(k & o & -> & Hk & Ho)]; [discriminate|].
    replace (Z.of_nat k =? -1)%Z with false
      by (symmetry; apply Z.eqb_neq; lia).
    cbn [negb]. rewrite Nat2Z.id, Hk. unfold shadeHit.
    destruct (luminous (mat o)) eqn:Hlum.
    { rewrite (reflect_luminous o r ipnt Hlum). discriminate. }
    pose proof (reflect_lengths o r ipnt) as Hlen.
    pose proof (reflect_clampedFrom o r ipnt) as Hc.
    destruct (ball_reflect o r ipnt) as [[[outgoing weights] cc] o'] eqn:Hre.
    cbn [fst snd] in Hlen, Hc |- *.
    destruct outgoing as [|o1 outgoing]; [discriminate|].
    destruct (RGBA_RGBA cc) as [[[cr cg] cb] ca].
    destruct (shadeLoop _ _ _ _ _ _) as [[acc s2]|] eqn:Hloop;
      [discriminate|].
    intros _.
    destruct (shadeLoop_None_call _ _ (getColor_evolves fuel) _ _ _ _
                                  Hlen Hloop)
      as (q & s1 & Hq & Hev & Hnone).
    exists k, o, q, s1. rewrite Hre. cbn [fst].
    do 5 (split; [first [reflexivity | assumption]|]).
    split; [|exact Hnone].
    eapply evolves_trans; [|exact Hev].
    split; [reflexivity|]. cbn [objects].
    now apply setObject_clampedFrom with o.
Qed.

(** X15.  Shading writes to the scene only through the clamp: on a scene
    in which every ball is luminous or has a roughness that is not above 1,
    a call of [getColor] that returns leaves the scene exactly as it
    found it. *)
Theorem getColor_reads_only (F : Type) (A : Float64 F) (T : Trig F)
        (fuel : nat) (s : scene F) (r : ray F) (c : RGBA) (s' : scene F) :
  Forall stable (objects s) ->
  scene_getColor fuel s r = Some (c, s') ->
  s' = s.
Proof. intros Hst Hrun. exact (getColor_stable fuel s Hst r c s' Hrun). Qed.

Lemma mainScene_stable : Forall stable (objects (@mainScene R _)).
Proof.
  repeat constructor; unfold stable; cbn [greenBall whiteBall mat luminous
    roughness negb andb]; at_R.
  apply andb_false_intro2. apply Rltb_false. lra.
Qed.

Lemma getColor_reads_only_witness :
  Forall stable (objects (@mainScene R _))
  /\ scene_getColor 1 mainScene whiteRay
     = Some (mkRGBA 255 255 255 255, mainScene)
  /\ forall c s', scene_getColor 1 mainScene whiteRay = Some (c, s') ->
                  s' = mainScene.
Proof.
  split; [exact mainScene_stable|]. split.
  - apply (getColor_luminous mainScene whiteRay 0 whiteBall _ _ _
                             whiteRay_nearest); [discriminate|reflexivity..].
  - intros c s'.
    exact (getColor_reads_only R _ _ 1 mainScene whiteRay c s' mainScene_stable).
Defined.

(** ** Termination *)

(** X16.  In a scene of luminous balls only, every ray is shaded without a
    recursive call, in every arithmetic: the result is the background or
    the colour of a ball the ray meets, and the scene is kept. *)
Theorem getColor_all_luminous (F : Type) (A : Float64 F) (T : Trig F)
        (s : scene F) (r : ray F) :
  Forall (fun b => luminous (mat b) = true) (objects s) ->
  exists c : RGBA,
    scene_getColor 1 s r = Some (c, s)
    /\ (c = background s
        \/ exists (b : ball F) (p : point F),
             In b (objects s) /\ ball_intersect b r = Some p
             /\ c = color (mat b)).
Proof.
  intro Hlum. pose proof (findNearestHit_indexed s r) as Inv.
  destruct (findNearestHit s r) as [[minDist minI] ipnt] eqn:E.
  destruct Inv as [->|(k & o & -> & Hk & Ho)].
  - exists (background s). split; [|now left].
    cbn [scene_getColor]. now rewrite E.
  - exists (color (mat o)). pose proof (nth_error_In _ _ Hk) as Hin.
    split; [|right; exists o, ipnt; auto].
    apply (getColor_luminous s r 0 o minDist (Z.of_nat k) ipnt E).
    + lia.
    + now rewrite Nat2Z.id.
    + rewrite Forall_forall in Hlum. now apply Hlum.
Qed.

Lemma getColor_all_luminous_witness :
  Forall (fun b => luminous (mat b) = true)
         (objects (mkScene [@whiteBall R _] grey))
  /\ exists c : RGBA,
       scene_getColor 1 (mkScene [@whiteBall R _] grey) whiteRay
       = Some (c, mkScene [@whiteBall R _] grey).
Proof.
  assert (H : Forall (fun b => luminous (mat b) = true)
                     (objects (mkScene [@whiteBall R _] grey)))
    by (repeat constructor).
  split; [exact H|].
  destruct (getColor_all_luminous R _ _ _ whiteRay H) as (c & Hc & _).
  now exists c.
Defined.

Lemma nth_error_setObject_same (F : Type) (objs : list (ball F)) (i : nat)
      (o b : ball F) :
  nth_error objs i = Some o -> nth_error (setObject objs i b) i = Some b.
Proof.
  revert i. induction objs as [|a rest IH]; intros [|i] Hi; cbn in *;
    try discriminate; [reflexivity|now apply IH].
Qed.

Lemma nth_error_setObject_other (F : Type) (objs : list (ball F)) (i j : nat)
      (b : ball F) :
  i <> j -> nth_error (setObject objs i b) j = nth_error objs j.
Proof.
  revert i j. induction objs as [|a rest IH]; intros [|i] [|j] Hne; cbn;
    try reflexivity; try lia.
  apply IH. lia.
Qed.

Lemma shadeAll_total (F : Type) (A : Float64 F)
      (rec : scene F -> ray F -> option (RGBA * scene F)) (s : scene F)
      (outgoing : list (ray F)) :
  Forall (fun o => exists c, rec s o = Some (c, s)) outgoing ->
  exists ncs, shadeAll rec outgoing s = Some (ncs, s).
Proof.
  induction 1 as [|o outgoing (c & Hc) _ (ncs & IH)].
  - now exists [].
  - exists (c :: ncs). cbn [shadeAll]. now rewrite Hc, IH.
Qed.

(** Two levels of calls are enough when one ball at most is not luminous. *)
Lemma getColor_depth2 (s : scene R) (r : ray R) :
  (forall i j bi bj,
      nth_error (objects s) i = Some bi -> nth_error (objects s) j = Some bj ->
      luminous (mat bi) = false -> luminous (mat bj) = false -> i = j) ->
  (forall b, In b (objects s) -> luminous (mat b) = false ->
             (0 < radius b)%R) ->
  norm2 (dir r) <> 0%R ->
  exists (c : RGBA) (s' : scene R),
    scene_getColor 2 s r = Some (c, s')
    /\ background s' = background s
    /\ Forall2 clampedFrom (objects s) (objects s').
Proof.
  intros Hone Hrad Hdir.
  assert (Hsome : exists c s', scene_getColor 2 s r = Some (c, s')).
  { pose proof (findNearestHit_indexed s r) as Inv.
    destruct (findNearestHit s r) as [[minDist minI] ipnt] eqn:E.
    destruct Inv as [->|(k & o & -> & Hk & Ho)].
    { exists (background s), s. cbn [scene_getColor]. now rewrite E. }
    rewrite (getColor_hit s r 1 o _ _ _ E) by (lia || now rewrite Nat2Z.id).
    rewrite Nat2Z.id.
    destruct (luminous (mat o)) eqn:Hlum.
    { exists (color (mat o)), s. unfold shadeHit.
      rewrite (reflect_luminous o r ipnt Hlum).
      rewrite (setObject_same _ _ _ Hk). now destruct s. }
    pose proof (Hrad o (nth_error_In _ _ Hk) Hlum) as Hro.
    pose proof (reflect_nonempty o r ipnt Hlum) as Hne.
    pose proof (reflect_outgoing o r ipnt Hro Hdir Ho) as Hout.
    pose proof (reflect_clampedFrom o r ipnt) as Hc.
    pose proof (intersect_on_sphere o r ipnt Hdir Ho) as Hon.
    destruct (ball_reflect o r ipnt) as [[[outgoing weights] cc] o'] eqn:Hre.
    cbn [fst snd] in *.
    set (s1 := mkScene (setObject (objects s) k o') (background s)).
    assert (Hself : forall q, src q = ipnt -> norm2 (dir q) <> 0%R ->
                              ball_intersect o' q = None).
    { intros q Hsrc Hq. apply on_sphere_src_miss; [|exact Hq]. rewrite Hsrc.
      destruct Hc as [->|(-> & _)]; exact Hon. }
    assert (Hall : Forall (fun q => exists c, scene_getColor 1 s1 q
                                              = Some (c, s1)) outgoing).
    { apply Forall_impl with (2 := Hout). intros q [Hsrc Hq].
      pose proof (findNearestHit_indexed s1 q) as Inv.
      destruct (findNearestHit s1 q) as [[d1 i1] p1] eqn:E1.
      destruct Inv as [->|(j & oj & -> & Hj & Hoj)].
      { exists (background s1). cbn [scene_getColor]. now rewrite E1. }
      exists (color (mat oj)).
      apply (getColor_luminous s1 q 0 oj d1 (Z.of_nat j) p1 E1);
        [lia|now rewrite Nat2Z.id|].
      cbn [s1 objects] in Hj.
      destruct (Nat.eq_dec k j) as [<-|Hkj].
      - rewrite (nth_error_setObject_same _ _ _ _ _ Hk) in Hj.
        injection Hj as <-. rewrite (Hself q Hsrc Hq) in Hoj. discriminate.
      - rewrite nth_error_setObject_other in Hj by exact Hkj.
        destruct (luminous (mat oj)) eqn:Hlj; [reflexivity|].
        elim Hkj. exact (Hone k j o oj Hk Hj Hlum Hlj). }
    destruct (shadeAll_total R _ _ s1 outgoing Hall) as (ncs & Hncs).
    exists (blend cc (combine ncs weights)), s1.
    exact (shadeHit_blend _ s r k o ipnt _ _ _ _ _ _ Hre Hne Hncs). }
  destruct Hsome as (c & s' & Hrun). exists c, s'.
  split; [exact Hrun|]. exact (getColor_evolves 2 s r c s' Hrun).
Qed.

(** X17.  A scene with at most one ball that is not luminous, such as the
    scene of [main], is shaded in two levels of calls: over the reals
    [getColor] returns for every ray of non-zero direction, because the rays
    leaving that ball cannot meet it again and every other ball ends the
    recursion. *)
Theorem getColor_terminates (s : scene R) (r : ray R) :
  (forall i j bi bj,
      nth_error (objects s) i = Some bi -> nth_error (objects s) j = Some bj ->
      luminous (mat bi) = false -> luminous (mat bj) = false -> i = j) ->
  (forall b, In b (objects s) -> luminous (mat b) = false ->
             (0 < radius b)%R) ->
  norm2 (dir r) <> 0%R ->
  exists (c : RGBA) (s' : scene R),
    scene_getColor 2 s r = Some (c, s')
    /\ background s' = background s
    /\ Forall2 clampedFrom (objects s) (objects s').
Proof. apply getColor_depth2. Qed.

Lemma mainScene_one_matte :
  (forall i j (bi bj : ball R),
      nth_error (objects mainScene) i = Some bi ->
      nth_error (objects mainScene) j = Some bj ->
      luminous (mat bi) = false -> luminous (mat bj) = false -> i = j)
  /\ (forall b : ball R, In b (objects mainScene) ->
                         luminous (mat b) = false -> (0 < radius b)%R).
Proof.
  split.
  - intros [|[|i]] [|[|j]] bi bj Hi Hj Hli Hlj; cbn in Hi, Hj;
      try reflexivity;
      try (injection Hi as <-; discriminate Hli);
      try (injection Hj as <-; discriminate Hlj);
      try (now destruct i); now destruct j.
  - intros b [<-|[<-|[]]] Hl; [cbn; lra|discriminate Hl].
Qed.

Lemma whiteRay_dir : norm2 (dir whiteRay) <> 0%R.
Proof. unfold whiteRay, cameraRay. geom. lra. Qed.

Lemma getColor_terminates_witness :
  (forall i j (bi bj : ball R),
      nth_error (objects mainScene) i = Some bi ->
      nth_error (objects mainScene) j = Some bj ->
      luminous (mat bi) = false -> luminous (mat bj) = false -> i = j)
  /\ (forall b : ball R, In b (objects mainScene) ->
                         luminous (mat b) = false -> (0 < radius b)%R)
  /\ norm2 (dir whiteRay) <> 0%R
  /\ exists (c : RGBA) (s' : scene R),
       scene_getColor 2 mainScene whiteRay = Some (c, s').
Proof.
  destruct mainScene_one_matte as [H1 H2].
  repeat (split; [first [exact H1 | exact H2 | exact whiteRay_dir]|]).
  destruct (getColor_terminates mainScene whiteRay H1 H2 whiteRay_dir)
    as (c & s' & Hrun & _).
  now exists c, s'.
Defined.

(** ** Shading one ray does not change how another is shaded *)

(** Two balls that differ at most in how far above 1 their roughness is. *)
Definition sameLook (b b' : ball R) : Prop :=
  center b = center b' /\ radius b = radius b'
  /\ luminous (mat b) = luminous (mat b')
  /\ color (mat b) = color (mat b')
  /\ Rmin (roughness (mat b)) 1 = Rmin (roughness (mat b')) 1.

Definition sameScene (s s' : scene R) : Prop :=
  background s = background s'
  /\ Forall2 sameLook (objects s) (objects s').

Lemma Rmin_one_pos (a b : R) :
  Rmin a 1 = Rmin b 1 -> Rltb 0 a = Rltb 0 b.
Proof.
  unfold Rmin. intro E.
  destruct (Rltb 0 a) eqn:Ha, (Rltb 0 b) eqn:Hb; try reflexivity;
    first [apply Rltb_true in Ha | apply Rltb_false in Ha];
    first [apply Rltb_true in Hb | apply Rltb_false in Hb];
    destruct (Rle_dec a 1), (Rle_dec b 1); lra.
Qed.

Lemma clamped_roughness (b : ball R) :
  roughness (mat (if Rltb 1 (roughness (mat b)) then clampRoughness b else b))
  = Rmin (roughness (mat b)) 1.
Proof.
  unfold Rmin. destruct (Rltb 1 (roughness (mat b))) eqn:Hc.
  - apply Rltb_true in Hc. cbn. destruct (Rle_dec _ _); lra.
  - apply Rltb_false in Hc. destruct (Rle_dec _ _); lra.
Qed.

Lemma clamped_color (b : ball R) :
  color (mat (if Rltb 1 (roughness (mat b)) then clampRoughness b else b))
  = color (mat b).
Proof. now destruct (Rltb 1 (roughness (mat b))). Qed.

Lemma sameLook_intersect (b b' : ball R) (r : ray R) :
  sameLook b b' -> ball_intersect b r = ball_intersect b' r.
Proof.
  intros (Hc & Hr & _). unfold ball_intersect. now rewrite Hc, Hr.
Qed.

Lemma sameLook_reflect (b b' : ball R) (r : ray R) (p : point R) :
  sameLook b b' ->
  fst (ball_reflect b r p) = fst (ball_reflect b' r p)
  /\ sameLook (snd (ball_reflect b r p)) (snd (ball_reflect b' r p)).
Proof.
  intros (Hc & Hr & Hl & Hcol & Hrough). split.
  - unfold ball_reflect. rewrite <- Hl, <- Hc.
    destruct (luminous (mat b)); cbn [negb]; [cbn [fst]; now rewrite Hcol|].
    at_R. rewrite <- (Rmin_one_pos _ _ Hrough).
    destruct (Rltb 0 (roughness (mat b))); [|cbn [fst]; now rewrite Hcol].
    destruct (orthogonalPair _) as [n1dir n2dirTemp].
    rewrite !clamped_roughness, !clamped_color, <- Hrough, <- Hcol.
    reflexivity.
  - rewrite !reflect_ball. at_R. rewrite <- Hl, <- (Rmin_one_pos _ _ Hrough).
    destruct (negb (luminous (mat b)) && Rltb 0 (roughness (mat b)))%bool;
      cbn [andb]; [|repeat split; assumption].
    unfold Rmin in Hrough.
    destruct (Rltb 1 (roughness (mat b))) eqn:H1,
             (Rltb 1 (roughness (mat b'))) eqn:H2;
      first [apply Rltb_true in H1 | apply Rltb_false in H1];
      first [apply Rltb_true in H2 | apply Rltb_false in H2];
      (repeat split; cbn; try assumption);
      unfold Rmin; cbn;
      destruct (Rle_dec (roughness (mat b)) 1),
               (Rle_dec (roughness (mat b')) 1);
      repeat destruct (Rle_dec _ _); lra.
Qed.

Lemma sameLook_hitLoop (objs objs' : list (ball R)) :
  Forall2 sameLook objs objs' ->
  forall i r st, hitLoop objs i r st = hitLoop objs' i r st.
Proof.
  induction 1 as [|b b' l l' Hb _ IH]; intros i r st; [reflexivity|].
  cbn [hitLoop]. destruct st as [[minDist minI] ipnt].
  rewrite (sameLook_intersect b b' r Hb). apply IH.
Qed.

Lemma sameLook_nth (objs objs' : list (ball R)) (k : nat) :
  Forall2 sameLook objs objs' ->
  match nth_error objs k, nth_error objs' k with
  | Some o, Some o' => sameLook o o'
  | None, None => True
  | _, _ => False
  end.
Proof.
  intro H. revert k. induction H as [|b b' l l' Hb _ IH]; intros [|k]; cbn;
    [exact I|exact I|exact Hb|apply IH].
Qed.

Lemma sameLook_setObject (objs objs' : list (ball R)) (k : nat)
      (o o' : ball R) :
  Forall2 sameLook objs objs' -> sameLook o o' ->
  Forall2 sameLook (setObject objs k o) (setObject objs' k o').
Proof.
  intros H Ho. revert k. induction H as [|b b' l l' Hb Hl IH]; intros [|k];
    cbn; constructor; auto.
Qed.

(** Two results of [getColor]: both missing, or the same colour and scenes
    that look the same. *)
Definition sameResult (a a' : option (RGBA * scene R)) : Prop :=
  match a, a' with
  | Some (c, s), Some (c', s') => c = c' /\ sameScene s s'
  | None, None => True
  | _, _ => False
  end.

Lemma sameScene_shadeLoop
      (rec rec' : scene R -> ray R -> option (RGBA * scene R)) :
  (forall s s' r, sameScene s s' -> sameResult (rec s r) (rec' s' r)) ->
  forall rgb outgoing weights acc s s',
    sameScene s s' ->
    match shadeLoop rec rgb outgoing weights acc s,
          shadeLoop rec' rgb outgoing weights acc s' with
    | Some (a, t), Some (a', t') => a = a' /\ sameScene t t'
    | None, None => True
    | _, _ => False
    end.
Proof.
  intros Hrec rgb outgoing.
  induction outgoing as [|o outgoing IH]; intros weights acc s s' Hs.
  - cbn. auto.
  - destruct weights as [|w weights]; cbn [shadeLoop]; [exact I|].
    pose proof (Hrec s s' o Hs) as Ho. unfold sameResult in Ho.
    destruct (rec s o) as [[nc t]|], (rec' s' o) as [[nc' t']|];
      try contradiction; [|exact I].
    destruct Ho as [<- Ht]. now apply IH.
Qed.

Lemma sameScene_getColor (fuel : nat) :
  forall s s' r,
    sameScene s s' ->
    sameResult (scene_getColor fuel s r) (scene_getColor fuel s' r).
Proof.
  induction fuel as [|fuel IH]; intros s s' r [Hbg Hobjs]; [exact I|].
  cbn [scene_getColor]. unfold findNearestHit.
  rewrite (sameLook_hitLoop _ _ Hobjs).
  destruct (hitLoop (objects s') 0 r _) as [[minDist minI] ipnt].
  destruct (negb (minI =? -1)%Z); [|cbn; split; [exact Hbg|now split]].
  pose proof (sameLook_nth _ _ (Z.to_nat minI) Hobjs) as Hnth.
  destruct (nth_error (objects s) (Z.to_nat minI)) as [o|],
           (nth_error (objects s') (Z.to_nat minI)) as [o'|];
    try contradiction; [|exact I].
  unfold shadeHit.
  destruct (sameLook_reflect o o' r ipnt Hnth) as [Hfst Hsnd].
  destruct (ball_reflect o r ipnt) as [[[outgoing weights] cc] o1].
  destruct (ball_reflect o' r ipnt) as [[[outgoing' weights'] cc'] o1'].
  cbn [fst snd] in Hfst, Hsnd. injection Hfst as <- <- <-.
  assert (Hs1 : sameScene
                  (mkScene (setObject (objects s) (Z.to_nat minI) o1)
                           (background s))
                  (mkScene (setObject (objects s') (Z.to_nat minI) o1')
                           (background s'))).
  { split; [exact Hbg|]. cbn [objects]. now apply sameLook_setObject. }
  destruct outgoing as [|q outgoing]; [cbn; now split|].
  destruct (RGBA_RGBA cc) as [[[cr cg] cb] ca].
  pose proof (sameScene_shadeLoop _ _ IH (cr, cg, cb) (q :: outgoing) weights
                                  (fofZ 0, fofZ 0, fofZ 0, fofZ 0) _ _ Hs1) as Hl.
  destruct (shadeLoop _ _ _ _ _ _) as [[acc t]|],
           (shadeLoop _ _ _ _ _ _) as [[acc' t']|];
    try contradiction; [|exact I].
  destruct Hl as [<- Ht]. cbn. now split.
Qed.

Lemma clampedFrom_sameLook (b b' : ball R) :
  clampedFrom b b' -> sameLook b b'.
Proof.
  intros [->|(-> & Hl & Hr)].
  - repeat split.
  - at_R. apply Rltb_true in Hr. repeat split. cbn.
    unfold Rmin. destruct (Rle_dec (roughness (mat b)) 1),
                          (Rle_dec 1 1); lra.
Qed.

Lemma evolves_sameScene (s s' : scene R) : evolves s s' -> sameScene s s'.
Proof.
  intros [Hbg H]. split; [now symmetry|].
  induction H; constructor; auto using clampedFrom_sameLook.
Qed.

(** X19.  What shading writes is never seen: over the reals, a ray is
    shaded the same colour (or fails to return alike) in the scene as it
    was and in the scene as any earlier call of [getColor] has left it.  The
    order in which [render] shades the pixels is therefore immaterial to
    the image. *)
Theorem getColor_order_free (fuel fuel' : nat) (s s1 : scene R)
        (r1 r : ray R) (c1 : RGBA) :
  scene_getColor fuel' s r1 = Some (c1, s1) ->
  option_map fst (scene_getColor fuel s1 r)
  = option_map fst (scene_getColor fuel s r).
Proof.
  intro Hrun. pose proof (getColor_evolves fuel' s r1 c1 s1 Hrun) as Hev.
  pose proof (sameScene_getColor fuel s s1 r (evolves_sameScene _ _ Hev)) as H.
  unfold sameResult in H.
  destruct (scene_getColor fuel s r) as [[c t]|],
           (scene_getColor fuel s1 r) as [[c' t']|];
    try contradiction; [|reflexivity].
  destruct H as [<- _]. reflexivity.
Qed.

Lemma getColor_order_free_witness :
  scene_getColor 2 (roughScene 2) zRay
  = Some (mkRGBA 25 12 6 255, roughScene 1)
  /\ option_map fst (scene_getColor 2 (roughScene 1) zRay)
     = Some (mkRGBA 25 12 6 255).
Proof.
  split; [exact rough_run|].
  rewrite (getColor_order_free 2 2 _ _ zRay zRay _ rough_run).
  now rewrite rough_run.
Defined.

(** ** The weighted average *)

(** A colour as image/color keeps it: 8-bit channels, premultiplied by an
    alpha that is not zero. *)
Definition validColour (c : RGBA) : Prop :=
  (0 < cA c <= 255)%Z /\ (0 <= cR c <= cA c)%Z
  /\ (0 <= cG c <= cA c)%Z /\ (0 <= cB c <= cA c)%Z.

(** [RGBA()] multiplies an 8-bit channel by 257. *)
Lemma widen_257 (v : Z) : (0 <= v <= 255)%Z -> widen v = (257 * v)%Z.
Proof.
  intro Hv.
  assert (H : forallb (fun k => widen k =? 257 * k)%Z
                      (map Z.of_nat (seq 0 256)) = true)
    by (vm_compute; reflexivity).
  rewrite forallb_forall in H. apply Z.eqb_eq, H, in_map_iff.
  exists (Z.to_nat v). split; [lia|]. apply in_seq. lia.
Qed.

Lemma contribution_bounds (sel : RGBA -> Z) (cc nc : RGBA) :
  (0 < cA nc <= 255)%Z -> (0 <= sel nc <= cA nc)%Z -> (0 <= sel cc <= 255)%Z ->
  (0 <= contribution sel cc nc <= IZR (widen (sel cc)))%R.
Proof.
  intros Ha Hn Hc. unfold contribution.
  rewrite !widen_257 by lia. rewrite !mult_IZR.
  assert (H1 : (0 < IZR (cA nc))%R) by (apply IZR_lt; lia).
  assert (H2 : (0 <= IZR (sel nc) <= IZR (cA nc))%R)
    by (split; apply IZR_le; lia).
  assert (H3 : (0 <= IZR (sel cc))%R) by (apply IZR_le; lia).
  replace (257 * IZR (sel nc) / (257 * IZR (cA nc)))%R
    with (IZR (sel nc) / IZR (cA nc))%R by (field; lra).
  set (q := (IZR (sel nc) / IZR (cA nc))%R).
  assert (Hq : (q * IZR (cA nc) = IZR (sel nc))%R) by (unfold q; field; lra).
  assert (Hq01 : (0 <= q <= 1)%R) by (split; nra).
  nra.
Qed.

Lemma weightedAverage_bounds (sel : RGBA -> Z) (cc : RGBA)
      (pairs : list (RGBA * R)) (M : R) :
  Forall (fun p => (0 <= snd p)%R
                   /\ (0 <= contribution sel cc (fst p) <= M)%R) pairs ->
  (0 < Rsum (map snd pairs))%R ->
  (0 <= weightedAverage sel cc pairs <= M)%R.
Proof.
  intros Hall HW. unfold weightedAverage.
  set (S := Rsum (map (fun p => snd p * contribution sel cc (fst p))%R pairs)).
  set (W := Rsum (map snd pairs)) in *.
  assert (HS : (0 <= S <= W * M)%R).
  { unfold S, W. clear HW S W. unfold Rsum.
    induction Hall as [|p pairs [Hw Hc] _ IH]; cbn [map fold_right]; [lra|].
    nra. }
  assert (Hq : (S / W * W = S)%R) by (field; lra).
  split; nra.
Qed.

(** The conversion to [uint8] of a value within 0..255 is its integer part. *)
Lemma to_uint8_floor (v : R) :
  (0 <= v <= 255)%R ->
  (0 <= to_uint8 v <= 255)%Z /\ (IZR (to_uint8 v) <= v < IZR (to_uint8 v) + 1)%R.
Proof.
  intros [H0 H255]. unfold to_uint8. at_R. unfold Rtrunc.
  destruct (Rle_dec 0 v) as [_|Hneg]; [|contradiction].
  destruct (base_Int_part v) as [Hlo Hhi].
  assert (Hn0 : (0 <= Int_part v)%Z).
  { assert (H : (-1 < Int_part v)%Z) by (apply lt_IZR; lra). lia. }
  assert (Hn255 : (Int_part v <= 255)%Z) by (apply le_IZR; lra).
  rewrite Z.mod_small by lia. split; [lia|lra].
Qed.

(** A channel value that does not exceed the channel of the base colour is
    scaled into 0..255. *)
Lemma scaled_bounds (sel : RGBA -> Z) (cc : RGBA) (a : R) :
  (0 < cA cc <= 255)%Z -> (0 <= sel cc <= cA cc)%Z ->
  (0 <= a <= IZR (widen (sel cc)))%R ->
  (0 <= a / IZR (widen (cA cc)) * 255 <= 255)%R.
Proof.
  intros Ha Hc Hav.
  rewrite !widen_257 in * by lia. rewrite mult_IZR in *.
  assert (H1 : (0 < IZR (cA cc))%R) by (apply IZR_lt; lia).
  assert (H2 : (0 <= IZR (sel cc) <= IZR (cA cc))%R)
    by (split; apply IZR_le; lia).
  set (q := (a / (257 * IZR (cA cc)))%R).
  assert (Hq : (q * (257 * IZR (cA cc)) = a)%R) by (unfold q; field; lra).
  assert (Hq01 : (0 <= q <= 1)%R) by (split; nra).
  lra.
Qed.

Lemma blendChannel_floor (sel : RGBA -> Z) (cc : RGBA)
      (pairs : list (RGBA * R)) :
  (0 < cA cc <= 255)%Z -> (0 <= sel cc <= cA cc)%Z ->
  Forall (fun p => (0 <= snd p)%R /\ (0 < cA (fst p) <= 255)%Z
                   /\ (0 <= sel (fst p) <= cA (fst p))%Z) pairs ->
  (0 < Rsum (map snd pairs))%R ->
  (0 <= blendChannel sel cc pairs <= 255)%Z
  /\ (IZR (blendChannel sel cc pairs)
      <= weightedAverage sel cc pairs / IZR (widen (cA cc)) * 255
      < IZR (blendChannel sel cc pairs) + 1)%R.
Proof.
  intros Ha Hc Hall HW. unfold blendChannel.
  apply to_uint8_floor, (scaled_bounds sel); [exact Ha|exact Hc|].
  apply weightedAverage_bounds; [|exact HW].
  apply Forall_impl with (2 := Hall). intros p (Hw & Hpa & Hps).
  split; [exact Hw|]. apply contribution_bounds; lia.
Qed.

(** *** The order of evaluation *)

Lemma sameLook_refl (b : ball R) : sameLook b b.
Proof. repeat split. Qed.

Lemma sameLook_trans (b b' b'' : ball R) :
  sameLook b b' -> sameLook b' b'' -> sameLook b b''.
Proof.
  intros (H1 & H2 & H3 & H4 & H5) (K1 & K2 & K3 & K4 & K5).
  repeat split; congruence.
Qed.

Lemma sameScene_refl (s : scene R) : sameScene s s.
Proof.
  split; [reflexivity|].
  induction (objects s); constructor; auto using sameLook_refl.
Qed.

Lemma sameScene_trans (s s' s'' : scene R) :
  sameScene s s' -> sameScene s' s'' -> sameScene s s''.
Proof.
  intros [Hb H1] [Hb' H2]. split; [congruence|].
  revert H2. generalize (objects s''). induction H1 as [|b b' l l' Hc _ IH];
    intros l'' H2; inversion H2; subst; constructor.
  - eapply sameLook_trans; eassumption.
  - now apply IH.
Qed.

(** The colour [getColor] gives a ray in the scene [s]. *)
Definition colourOf (fuel : nat) (s : scene R) (q : ray R) : RGBA :=
  match scene_getColor fuel s q with
  | Some (c, _) => c
  | None => mkRGBA 0 0 0 0
  end.

(** The calls of a shading loop that starts in a scene looking like [s]
    return the colours the rays have in [s]. *)
Lemma shadeAll_colours (fuel : nat) (s : scene R) :
  forall outgoing t ncs t',
    sameScene s t ->
    shadeAll (scene_getColor fuel) outgoing t = Some (ncs, t') ->
    ncs = map (colourOf fuel s) outgoing
    /\ Forall (fun q => scene_getColor fuel s q <> None) outgoing.
Proof.
  induction outgoing as [|q outgoing IH]; intros t ncs t' Hs Hrun;
    cbn [shadeAll] in Hrun.
  - injection Hrun as <- _. split; [reflexivity|constructor].
  - pose proof (sameScene_getColor fuel s t q Hs) as Hq.
    unfold sameResult in Hq.
    destruct (scene_getColor fuel t q) as [[nc t1]|] eqn:Et; [|discriminate].
    destruct (shadeAll (scene_getColor fuel) outgoing t1) as [[ncs1 t2]|] eqn:E1;
      [|discriminate].
    injection Hrun as <- _.
    assert (Ht1 : sameScene s t1).
    { eapply sameScene_trans; [exact Hs|].
      apply evolves_sameScene. exact (getColor_evolves fuel t q nc t1 Et). }
    destruct (IH t1 ncs1 t2 Ht1 E1) as [-> Hall].
    destruct (scene_getColor fuel s q) as [[c u]|] eqn:Es; [|contradiction].
    destruct Hq as [-> _]. split.
    + cbn [map]. f_equal. unfold colourOf. now rewrite Es.
    + constructor; [rewrite Es; discriminate|exact Hall].
Qed.

(** They return whenever each ray has a colour in [s]. *)
Lemma shadeAll_defined (fuel : nat) (s : scene R) :
  forall outgoing t,
    sameScene s t ->
    Forall (fun q => scene_getColor fuel s q <> None) outgoing ->
    exists ncs t', shadeAll (scene_getColor fuel) outgoing t = Some (ncs, t').
Proof.
  induction outgoing as [|q outgoing IH]; intros t Hs Hall.
  - now exists [], t.
  - inversion Hall as [|q0 l Hq Hrest]; subst.
    pose proof (sameScene_getColor fuel s t q Hs) as Hst.
    unfold sameResult in Hst. cbn [shadeAll].
    destruct (scene_getColor fuel s q) as [[c u]|]; [|now elim Hq].
    destruct (scene_getColor fuel t q) as [[nc t1]|] eqn:Et; [|contradiction].
    assert (Ht1 : sameScene s t1).
    { eapply sameScene_trans; [exact Hs|].
      apply evolves_sameScene. exact (getColor_evolves fuel t q nc t1 Et). }
    destruct (IH t1 Ht1 Hrest) as (ncs & t' & ->). now exists (nc :: ncs), t'.
Qed.

Lemma combine_colours (f : ray R -> RGBA) (outgoing : list (ray R)) :
  forall weights : list R,
    combine (map f outgoing) weights
    = map (fun qw => (f (fst qw), snd qw)) (combine outgoing weights).
Proof.
  induction outgoing as [|q outgoing IH]; intros [|w weights]; cbn;
    try reflexivity.
  now rewrite IH.
Qed.

Lemma in_outgoing_weighted (outgoing : list (ray R)) :
  forall (weights : list R) (q : ray R),
    length weights = length outgoing -> In q outgoing ->
    exists w, In (q, w) (combine outgoing weights).
Proof.
  induction outgoing as [|q0 outgoing IH]; intros [|w weights] q Hlen Hin;
    cbn in *; try contradiction; try discriminate.
  destruct Hin as [->|Hin].
  - exists w. now left.
  - destruct (IH weights q ltac:(lia) Hin) as (w' & Hw'). exists w'. now right.
Qed.

(** The shading loop run on the rays in another order, each with its
    weight: the calls return and the colour is the same. *)
Lemma shadeLoop_reorder (fuel : nat) (s1 : scene R) (cc : RGBA)
      (outgoing outgoing' : list (ray R)) (weights weights' : list R)
      (ncs : list RGBA) (s' : scene R) :
  length weights' = length outgoing' ->
  shadeAll (scene_getColor fuel) outgoing s1 = Some (ncs, s') ->
  Permutation (combine outgoing weights) (combine outgoing' weights') ->
  exists acc s'',
    shadeLoop (scene_getColor fuel)
              (widen (cR cc), widen (cG cc), widen (cB cc))
              outgoing' weights' (0, 0, 0, 0)%R s1 = Some (acc, s'')
    /\ finish (widen (cA cc)) acc = blend cc (combine ncs weights).
Proof.
  intros Hlen' Hall Hperm.
  destruct (shadeAll_colours fuel s1 _ _ _ _ (sameScene_refl s1) Hall)
    as [-> Hsome].
  assert (Hsome' : Forall (fun q => scene_getColor fuel s1 q <> None) outgoing').
  { apply Forall_forall. intros q Hq.
    destruct (in_outgoing_weighted outgoing' weights' q Hlen' Hq) as (w & Hw).
    apply (Permutation_in _ (Permutation_sym Hperm)) in Hw.
    apply in_combine_l in Hw. rewrite Forall_forall in Hsome. now apply Hsome. }
  destruct (shadeAll_defined fuel s1 outgoing' s1 (sameScene_refl s1) Hsome')
    as (ncs' & s'' & Hall').
  destruct (shadeAll_colours fuel s1 _ _ _ _ (sameScene_refl s1) Hall')
    as [-> _].
  exists (accumulateAll (widen (cR cc), widen (cG cc), widen (cB cc))
                        (combine (map (colourOf fuel s1) outgoing') weights')
                        (0, 0, 0, 0)%R), s''.
  split.
  - rewrite shadeLoop_split by exact Hlen'. now rewrite Hall'.
  - rewrite finish_R. apply blend_perm. rewrite !combine_colours.
    apply Permutation_map, Permutation_sym, Hperm.
Qed.

(** A complete run with many rays: the ball of roughness 2 alone in the
    grey scene, hit by [zRay]. *)
Lemma rough_reflect :
  ball_reflect (unitBall (matte 2)) zRay zHit
  = (fst (fst (fst (ball_reflect (unitBall (matte 2)) zRay zHit))),
     snd (fst (fst (ball_reflect (unitBall (matte 2)) zRay zHit))),
     mkRGBA 200 100 50 255, unitBall (matte 1)).
Proof.
  pose proof (reflect_color (unitBall (matte 2)) zRay zHit) as Hcol.
  pose proof reflect_clamps as Hball.
  destruct (ball_reflect (unitBall (matte 2)) zRay zHit)
    as [[[outgoing weights] cc] o'].
  cbn [fst snd] in *. now subst cc o'.
Qed.

Lemma rough_weights :
  snd (fst (fst (ball_reflect (unitBall (matte 2)) zRay zHit)))
  = 1%R :: repeat (1 / 72)%R (72 * 100).
Proof.
  apply reflect_weights_full;
    [reflexivity | cbn; lra | cbn; lra | exact zRay_dir | apply zRay_hit].
Qed.

Lemma rough_shadeAll :
  shadeAll (scene_getColor 1)
           (fst (fst (fst (ball_reflect (unitBall (matte 2)) zRay zHit))))
           (mkScene (setObject (objects (roughScene 2)) 0 (unitBall (matte 1)))
                    (background (roughScene 2)))
  = Some (repeat grey
            (length (fst (fst (fst (ball_reflect (unitBall (matte 2))
                                                 zRay zHit))))),
          roughScene 1).
Proof.
  pose proof (reflect_outgoing (unitBall (matte 2)) zRay zHit
                ltac:(cbn; lra) zRay_dir (zRay_hit _)) as Hout.
  cbn [objects setObject background roughScene]. fold (roughScene 1).
  apply (shadeAll_miss R _ _ (roughScene 1) 0).
  apply Forall_impl with (2 := Hout). intros o [Hsrc Hdir] b [<-|[]].
  apply on_sphere_src_miss; [|exact Hdir].
  rewrite Hsrc. apply zHit_on_sphere.
Qed.

Lemma grey_valid (n : nat) : Forall validColour (repeat grey n).
Proof.
  apply Forall_forall. intros c Hc. apply repeat_spec in Hc. subst c.
  unfold validColour, grey. cbn. lia.
Qed.

Lemma floor_unique (v : R) (n k : Z) :
  (IZR n <= v < IZR n + 1)%R -> (IZR k <= v < IZR k + 1)%R -> n = k.
Proof.
  intros Hn Hk.
  assert (H1 : (n < k + 1)%Z) by (apply lt_IZR; rewrite plus_IZR; lra).
  assert (H2 : (k < n + 1)%Z) by (apply lt_IZR; rewrite plus_IZR; lra).
  lia.
Qed.

(** C3, amended.  Over the reals (the arithmetic of float64 read as exact),
    take a hit whose [reflect] returns outgoing rays, of weights [w_i];
    let [nc_i] be the colours the recursive calls of [getColor] return for
    them, in turn; let the base colour and every [nc_i] have 8-bit channels
    premultiplied by an alpha that is not zero.  Then the sum [W] of the
    weights is positive, and the colour returned has alpha 255 and, in each
    channel, the integer part, which lies within 0..255, of the weighted
    average [sum (w_i * channel_i) / W] scaled by 255 over the (widened)
    alpha of the base colour, [channel_i] being the channel of [nc_i] over
    the alpha of [nc_i] times the channel of the base colour.  Running the
    loop of [getColor] on the outgoing rays taken in any other order, each
    with its weight, returns as well and gives the same colour. *)
Theorem weighted_average
        (fuel : nat) (s : scene R) (r : ray R) (minI : nat) (o : ball R)
        (ipnt : point R) (outgoing : list (ray R)) (weights : list R)
        (cc : RGBA) (o' : ball R) (ncs : list RGBA) (s' : scene R) :
  let s1 := mkScene (setObject (objects s) minI o') (background s) in
  ball_reflect o r ipnt = (outgoing, weights, cc, o') ->
  outgoing <> [] ->
  shadeAll (scene_getColor fuel) outgoing s1 = Some (ncs, s') ->
  validColour cc ->
  Forall validColour ncs ->
  let pairs := combine ncs weights in
  let value := fun sel : RGBA -> Z =>
    (weightedAverage sel cc pairs / IZR (widen (cA cc)) * 255)%R in
  length ncs = length weights
  /\ map snd pairs = weights
  /\ (0 < Rsum weights)%R
  /\ exists cr cg cb : Z,
       shadeHit (scene_getColor fuel) s r minI o ipnt
       = Some (mkRGBA cr cg cb 255, s')
       /\ ((0 <= cr <= 255)%Z /\ (IZR cr <= value cR < IZR cr + 1)%R)
       /\ ((0 <= cg <= 255)%Z /\ (IZR cg <= value cG < IZR cg + 1)%R)
       /\ ((0 <= cb <= 255)%Z /\ (IZR cb <= value cB < IZR cb + 1)%R)
       /\ forall (outgoing' : list (ray R)) (weights' : list R),
            length weights' = length outgoing' ->
            Permutation (combine outgoing weights)
                        (combine outgoing' weights') ->
            exists (acc : R * R * R * R) (s'' : scene R),
              shadeLoop (scene_getColor fuel)
                        (widen (cR cc), widen (cG cc), widen (cB cc))
                        outgoing' weights' (0, 0, 0, 0)%R s1
              = Some (acc, s'')
              /\ finish (widen (cA cc)) acc = mkRGBA cr cg cb 255.
Proof.
  intros s1 Hreflect Hne Hall Hcc Hncs pairs value.
  pose proof (reflect_weights o r ipnt) as Hw. rewrite Hreflect in Hw.
  destruct Hw as (Hlen & Hpos & Hone).
  pose proof (shadeAll_length R _ _ _ _ _ _ Hall) as Hl.
  assert (Hsnd : map snd pairs = weights)
    by (apply map_snd_combine; congruence).
  assert (HW : (0 < Rsum weights)%R).
  { destruct (Hone Hne) as [ws ->].
    inversion Hpos as [|w ws' Hw1 Hws]; subst.
    pose proof (Rsum_nonneg ws Hws) as H0.
    unfold Rsum in *. cbn [fold_right]. lra. }
  assert (Hpairs : forall sel : RGBA -> Z,
             (forall c, validColour c -> (0 <= sel c <= cA c)%Z) ->
             Forall (fun p => (0 <= snd p)%R /\ (0 < cA (fst p) <= 255)%Z
                              /\ (0 <= sel (fst p) <= cA (fst p))%Z) pairs).
  { intros sel Hsel. apply Forall_forall. intros [nc w] Hin. cbn [fst snd].
    pose proof (in_combine_l _ _ _ _ Hin) as Hnc.
    pose proof (in_combine_r _ _ _ _ Hin) as Hwin.
    rewrite Forall_forall in Hncs, Hpos.
    pose proof (Hncs nc Hnc) as Hv.
    split; [now apply Hpos|]. split; [apply Hv|now apply Hsel]. }
  assert (Hch : forall sel : RGBA -> Z,
             (forall c, validColour c -> (0 <= sel c <= cA c)%Z) ->
             (0 <= blendChannel sel cc pairs <= 255)%Z
             /\ (IZR (blendChannel sel cc pairs) <= value sel
                 < IZR (blendChannel sel cc pairs) + 1)%R).
  { intros sel Hsel. apply blendChannel_floor.
    - apply Hcc.
    - now apply Hsel.
    - now apply Hpairs.
    - now rewrite Hsnd. }
  split; [congruence|]. split; [exact Hsnd|]. split; [exact HW|].
  exists (blendChannel cR cc pairs), (blendChannel cG cc pairs),
         (blendChannel cB cc pairs).
  split; [exact (shadeHit_blend _ s r minI o ipnt _ _ _ _ _ _
                                Hreflect Hne Hall)|].
  split; [apply Hch; intros c Hc; apply Hc|].
  split; [apply Hch; intros c Hc; apply Hc|].
  split; [apply Hch; intros c Hc; apply Hc|].
  intros outgoing' weights' Hlen' Hperm.
  destruct (shadeLoop_reorder fuel s1 cc _ _ _ _ _ _ Hlen' Hall Hperm)
    as (acc & s'' & Hrun & Hfin).
  exists acc, s''. split; [exact Hrun|]. exact Hfin.
Qed.

Lemma weighted_average_witness :
  let outgoing :=
    fst (fst (fst (ball_reflect (unitBall (matte 2)) zRay zHit))) in
  let weights :=
    snd (fst (fst (ball_reflect (unitBall (matte 2)) zRay zHit))) in
  ball_reflect (unitBall (matte 2)) zRay zHit
  = (outgoing, weights, mkRGBA 200 100 50 255, unitBall (matte 1))
  /\ outgoing <> []
  /\ shadeAll (scene_getColor 1) outgoing
              (mkScene (setObject (objects (roughScene 2)) 0
                                  (unitBall (matte 1)))
                       (background (roughScene 2)))
     = Some (repeat grey (length outgoing), roughScene 1)
  /\ validColour (mkRGBA 200 100 50 255)
  /\ Forall validColour (repeat grey (length outgoing))
  /\ weights = 1%R :: repeat (1 / 72)%R (72 * 100)
  /\ shadeHit (scene_getColor 1) (roughScene 2) zRay 0 (unitBall (matte 2))
              zHit
     = Some (mkRGBA 25 12 6 255, roughScene 1).
Proof.
  intros outgoing weights.
  assert (H1 : ball_reflect (unitBall (matte 2)) zRay zHit
               = (outgoing, weights, mkRGBA 200 100 50 255,
                  unitBall (matte 1))) by exact rough_reflect.
  assert (H2 : outgoing <> []) by (now apply reflect_nonempty).
  assert (H3 : shadeAll (scene_getColor 1) outgoing
                 (mkScene (setObject (objects (roughScene 2)) 0
                                     (unitBall (matte 1)))
                          (background (roughScene 2)))
               = Some (repeat grey (length outgoing), roughScene 1))
    by exact rough_shadeAll.
  assert (H4 : validColour (mkRGBA 200 100 50 255))
    by (unfold validColour; cbn; lia).
  assert (H5 : Forall validColour (repeat grey (length outgoing)))
    by apply grey_valid.
  assert (H6 : weights = 1%R :: repeat (1 / 72)%R (72 * 100))
    by exact rough_weights.
  repeat (split; [first [exact H1 | exact H2 | exact H3 | exact H4
                        | exact H5 | exact H6]|]).
  destruct (weighted_average 1 (roughScene 2) zRay 0 (unitBall (matte 2)) zHit
              outgoing weights _ _ _ _ H1 H2 H3 H4 H5)
    as (Hlen & _ & HW & cr & cg & cb & Hrun & [_ Hr] & [_ Hg] & [_ Hb] & _).
  rewrite Hrun. rewrite repeat_length in Hlen. rewrite Hlen in Hr, Hg, Hb.
  rewrite weightedAverage_uniform in Hr, Hg, Hb by lra.
  unfold contribution, grey in Hr, Hg, Hb. cbn [cR cG cB cA] in Hr, Hg, Hb.
  assert (Ew : widen 255 = 65535%Z /\ widen 32 = 8224%Z /\ widen 200 = 51400%Z
               /\ widen 100 = 25700%Z /\ widen 50 = 12850%Z)
    by (repeat split; vm_compute; reflexivity).
  destruct Ew as (E255 & E32 & E200 & E100 & E50).
  rewrite E255, E32 in Hr, Hg, Hb.
  rewrite E200 in Hr. rewrite E100 in Hg. rewrite E50 in Hb.
  rewrite (floor_unique _ cr 25 Hr) by lra.
  rewrite (floor_unique _ cg 12 Hg) by lra.
  rewrite (floor_unique _ cb 6 Hb) by lra.
  reflexivity.
Defined.

(** ** Blending, continued *)

(** X18.  Over the reals, for colours of 8-bit channels premultiplied by a
    non-zero alpha: a hit whose outgoing rays all come back with one colour
    [nc] is shaded with alpha 255 and, in each channel, with the integer
    part, within 0..255, of the channel of [nc] over the alpha of [nc]
    times the channel of the base colour over the alpha of the base colour,
    scaled by 255: how many rays there are and what they weigh does not
    matter, so in uniform surroundings a rough ball and a mirror look the
    same. *)
Theorem shadeHit_uniform
        (rec : scene R -> ray R -> option (RGBA * scene R))
        (s : scene R) (r : ray R) (minI : nat) (o : ball R) (ipnt : point R)
        (outgoing : list (ray R)) (weights : list R) (cc : RGBA) (o' : ball R)
        (nc : RGBA) (s' : scene R) :
  ball_reflect o r ipnt = (outgoing, weights, cc, o') ->
  outgoing <> [] ->
  shadeAll rec outgoing
           (mkScene (setObject (objects s) minI o') (background s))
  = Some (repeat nc (length outgoing), s') ->
  validColour cc ->
  validColour nc ->
  let value := fun sel : RGBA -> Z =>
    (IZR (widen (sel nc)) / IZR (widen (cA nc)) * IZR (widen (sel cc))
     / IZR (widen (cA cc)) * 255)%R in
  exists cr cg cb : Z,
    shadeHit rec s r minI o ipnt = Some (mkRGBA cr cg cb 255, s')
    /\ ((0 <= cr <= 255)%Z /\ (IZR cr <= value cR < IZR cr + 1)%R)
    /\ ((0 <= cg <= 255)%Z /\ (IZR cg <= value cG < IZR cg + 1)%R)
    /\ ((0 <= cb <= 255)%Z /\ (IZR cb <= value cB < IZR cb + 1)%R).
Proof.
  intros Hre Hne Hall Hcc Hnc value.
  rewrite (shadeHit_blend rec s r minI o ipnt _ _ _ _ _ _ Hre Hne Hall).
  pose proof (reflect_weights o r ipnt) as Hw. rewrite Hre in Hw.
  destruct Hw as (Hlen & Hpos & Hone). destruct (Hone Hne) as [ws Hws].
  assert (HW : (0 < Rsum weights)%R).
  { rewrite Hws in Hpos |- *. inversion Hpos; subst.
    pose proof (Rsum_nonneg ws ltac:(assumption)).
    unfold Rsum in *. cbn [fold_right]. lra. }
  rewrite <- Hlen. unfold blend, blendChannel.
  rewrite !weightedAverage_uniform by lra.
  assert (Hch : forall sel : RGBA -> Z,
             (forall c, validColour c -> (0 <= sel c <= cA c)%Z) ->
             (0 <= to_uint8 (contribution sel cc nc / IZR (widen (cA cc)) * 255)%R
              <= 255)%Z
             /\ (IZR (to_uint8 (contribution sel cc nc
                                / IZR (widen (cA cc)) * 255)%R)
                 <= value sel
                 < IZR (to_uint8 (contribution sel cc nc
                                  / IZR (widen (cA cc)) * 255)%R) + 1)%R).
  { intros sel Hsel. apply to_uint8_floor, (scaled_bounds sel).
    - apply Hcc.
    - now apply Hsel.
    - pose proof (Hsel cc Hcc). pose proof (Hsel nc Hnc).
      destruct Hcc as (Hacc & _), Hnc as (Hanc & _).
      apply contribution_bounds; lia. }
  eexists _, _, _. split; [reflexivity|].
  repeat split; apply Hch; intros c Hc; apply Hc.
Qed.

Lemma shadeHit_uniform_witness :
  let outgoing :=
    fst (fst (fst (ball_reflect (unitBall (matte 2)) zRay zHit))) in
  let weights :=
    snd (fst (fst (ball_reflect (unitBall (matte 2)) zRay zHit))) in
  ball_reflect (unitBall (matte 2)) zRay zHit
  = (outgoing, weights, mkRGBA 200 100 50 255, unitBall (matte 1))
  /\ outgoing <> []
  /\ shadeAll (scene_getColor 1) outgoing
              (mkScene (setObject (objects (roughScene 2)) 0
                                  (unitBall (matte 1)))
                       (background (roughScene 2)))
     = Some (repeat grey (length outgoing), roughScene 1)
  /\ validColour (mkRGBA 200 100 50 255)
  /\ validColour grey
  /\ weights = 1%R :: repeat (1 / 72)%R (72 * 100)
  /\ shadeHit (scene_getColor 1) (roughScene 2) zRay 0 (unitBall (matte 2))
              zHit
     = Some (mkRGBA 25 12 6 255, roughScene 1).
Proof.
  intros outgoing weights.
  assert (H2 : outgoing <> []) by (now apply reflect_nonempty).
  assert (H4 : validColour (mkRGBA 200 100 50 255))
    by (unfold validColour; cbn; lia).
  assert (H5 : validColour grey) by (unfold validColour, grey; cbn; lia).
  repeat (split; [first [exact rough_reflect | exact H2 | exact rough_shadeAll
                        | exact H4 | exact H5 | exact rough_weights]|]).
  destruct (shadeHit_uniform _ _ _ _ _ _ _ _ _ _ _ _
                             rough_reflect H2 rough_shadeAll H4 H5)
    as (cr & cg & cb & Hrun & [_ Hr] & [_ Hg] & [_ Hb]).
  rewrite Hrun. unfold grey in Hr, Hg, Hb. cbn [cR cG cB cA] in Hr, Hg, Hb.
  assert (Ew : widen 255 = 65535%Z /\ widen 32 = 8224%Z /\ widen 200 = 51400%Z
               /\ widen 100 = 25700%Z /\ widen 50 = 12850%Z)
    by (repeat split; vm_compute; reflexivity).
  destruct Ew as (E255 & E32 & E200 & E100 & E50).
  rewrite E255, E32 in Hr, Hg, Hb.
  rewrite E200 in Hr. rewrite E100 in Hg. rewrite E50 in Hb.
  rewrite (floor_unique _ cr 25 Hr) by lra.
  rewrite (floor_unique _ cg 12 Hg) by lra.
  rewrite (floor_unique _ cb 6 Hb) by lra.
  reflexivity.
Defined.

(** * The claims that rounding refutes

    The program runs on binary64.  Each of the following evaluates the
    embedding at its binary64 instance on inputs that binary64 represents
    exactly, and sets the result beside what the claim promises. *)

(** C1, as stated, fails.  The mirror ball at the origin is hit by the ray
    from (0,0,-3) of direction (0,0,1+2^-52): the direction returned is
    (0,0,-1), not the mirror image (0,0,-(1+2^-52)), because [flip] goes
    through [src - dir], which is rounded.  With the direction (0,0,2^-56)
    the hit is at (0,0,-1) and the direction returned is (0,0,0). *)
Lemma reflect_rounds_counterexample :
  (let r : ray float :=
     (mkRay (mkPoint 0 0 (-3)) (mkDirection 0 0 0x1.0000000000001p+0))%float in
   let p : point float := (mkPoint 0 0 (-0x1.0000000000002p+0))%float in
   ball_intersect (unitBall64 false 0) r = Some p
   /\ dir (ray_flip r) = (mkDirection 0 0 (-1))%float
   /\ (forall T : Trig float,
          ball_reflect (unitBall64 false 0) r p
          = ([mkRay p (mkDirection 0 0 (-1))%float], [1%float],
             mkRGBA 200 100 50 255, unitBall64 false 0))
   /\ PrimFloat.eqb (-1) (- dz (dir r)) = false)
  /\
  (let r : ray float :=
     (mkRay (mkPoint 0 0 (-3)) (mkDirection 0 0 0x1p-56))%float in
   let p : point float := (mkPoint 0 0 (-1))%float in
   ball_intersect (unitBall64 false 0) r = Some p
   /\ dir (ray_flip r) = (mkDirection 0 0 0)%float
   /\ forall T : Trig float,
        ball_reflect (unitBall64 false 0) r p
        = ([mkRay p (mkDirection 0 0 0)%float], [1%float],
           mkRGBA 200 100 50 255, unitBall64 false 0))
  /\
  (let d : direction R := (mkDirection 0 0 (1 + / 2 ^ 52))%R in
   let n : direction R := (mkDirection 0 0 (-1))%R in
   mirror d n = (mkDirection 0 0 (- (1 + / 2 ^ 52)))%R).
Proof.
  split; [|split].
  - cbv zeta. repeat split; try (intro T); vm_compute; reflexivity.
  - cbv zeta. repeat split; try (intro T); vm_compute; reflexivity.
  - cbv zeta. unfold mirror, dot. cbn [dx dy dz]. at_R. f_equal; ring.
Qed.

(** A ray that passes the unit ball at distance 1+2^-52 from its centre is
    reported as a hit in binary64. *)
Example intersect_grazing_f64 :
  ball_intersect (unitBall64 false 0)
    (mkRay (mkPoint 0x1.0000000000001p+0 0 (-3)) (mkDirection 0 0 1))%float
  = Some (mkPoint 0x1.0000000000001p+0 0 0)%float.
Proof. vm_compute. reflexivity. Qed.

(** The 73 weights of a hit with one ring. *)
Definition ringWeights {F : Type} `{Float64 F} : list F :=
  fofZ 1 :: repeat (fconst 1 72) 72.

(** C3, as stated, fails.  The loop of [getColor] is run on 73 outgoing
    rays of weights 1, 1/72, ..., 1/72, every one of them shaded white, for
    the base colour (11,22,31,255).  Every [channel_i] is the channel of the
    base colour and so is the weighted average: the colour promised is
    (11,22,31,255).  In binary64 the loop returns (10,21,31,255); on the
    same rays in the opposite order it returns (11,22,31,255). *)
Lemma average_rounds_counterexample :
  let white := mkRGBA 255 255 255 255 in
  let base := mkRGBA 11 22 31 255 in
  let rgb := (widen (cR base), widen (cG base), widen (cB base)) in
  (let rec := fun (s : scene float) (_ : ray float) => Some (white, s) in
   let outgoing := repeat zRay64 73 in
   let s := mkScene [] white in
   option_map (fun p => finish (widen (cA base)) (fst p))
              (shadeLoop rec rgb outgoing ringWeights (0, 0, 0, 0)%float s)
   = Some (mkRGBA 10 21 31 255)
   /\ option_map (fun p => finish (widen (cA base)) (fst p))
                 (shadeLoop rec rgb (rev outgoing) (rev ringWeights)
                            (0, 0, 0, 0)%float s)
      = Some (mkRGBA 11 22 31 255))
  /\ blend base (combine (repeat white 73) ringWeights) = mkRGBA 11 22 31 255.
Proof.
  cbv zeta. split; [split; vm_compute; reflexivity|].
  unfold blend, blendChannel.
  change 73%nat with (length (@ringWeights R _)).
  assert (HW : Rsum (@ringWeights R _) <> 0%R).
  { unfold ringWeights. at_R. unfold fconst. at_R.
    assert (H : (0 <= Rsum (repeat (1 / 72) 72))%R).
    { apply Rsum_nonneg, Forall_forall. intros w Hw.
      apply repeat_spec in Hw. subst w. lra. }
    unfold Rsum in *. cbn [fold_right]. lra. }
  rewrite !weightedAverage_uniform by exact HW.
  unfold contribution. cbn [cR cG cB cA]. eval_widen.
  repeat f_equal; apply to_uint8_R; try lia; lra.
Qed.

(** The binary64 value nearest 0.012, as a fraction. *)
Definition roughness012 {F : Type} `{Float64 F} : F :=
  fconst 3458764513820541 (2 ^ 58).

(** C4, as stated, fails.  With the roughness 3458764513820541 / 2^58 (the
    binary64 value nearest 0.012), the radius 0.06 does not exceed
    5 roughness, so the claim has two rings, 145 rays.  The loop of the
    program adds 0.05 to 0.01 in binary64, finds the sum above its limit and
    stops after one ring: 73 rays. *)
Lemma reflect_rings_counterexample :
  (radiusLoop radiusFuel (fconst 1 100) (fofZ 5 * roughness012)%f64
   = [(fconst 1 100 : float)]
   /\ PrimFloat.leb (fconst 1 100 + fconst 5 100)%f64
                    (fofZ 5 * roughness012)%f64 = false
   /\ forall T : Trig float,
        ball_intersect (unitBall64 false roughness012) zRay64
        = Some (mkPoint 0 0 (-1))%float
        /\ length (fst (fst (fst (ball_reflect (unitBall64 false roughness012)
                                               zRay64
                                               (mkPoint 0 0 (-1))%float))))
           = 73%nat)
  /\ (1 / 100 + 5 / 100 * 1 <= 5 * roughness012)%R
  /\ length (fst (fst (fst (ball_reflect (unitBall (matte roughness012))
                                         zRay zHit))))
     = 145%nat.
Proof.
  split; [|split].
  - repeat split; try (intro T); try split; vm_compute; reflexivity.
  - unfold roughness012, fconst. at_R. lra.
  - assert (Hr : (0 < @roughness012 R _ < 1)%R)
      by (unfold roughness012, fconst; at_R; lra).
    destruct (fan_shape (unitBall (matte roughness012)) zRay zHit
                eq_refl (proj1 Hr) ltac:(cbn; lra) zRay_dir (zRay_hit _))
      as (n1 & n2 & K & _ & _ & _ & _ & _ & HK & Heq).
    cbv zeta in Heq.
    rewrite <- reflect_lengths, Heq. cbn [fst snd length].
    rewrite repeat_length.
    cbn [unitBall matte mat roughness] in HK.
    rewrite Rmin_left in HK by lra.
    assert (H1 : (1 < K)%nat).
    { apply HK. unfold roughness012, fconst. at_R. cbn. lra. }
    assert (H2 : ~ (2 < K)%nat).
    { intro Hlt. apply HK in Hlt. unfold roughness012, fconst in Hlt.
      revert Hlt. at_R. cbn. lra. }
    replace K with 2%nat by lia. reflexivity.
Qed.

(** Two hit points that binary64 represents exactly. *)
Definition hitA {F : Type} `{Float64 F} : point F :=
  mkPoint (fofZ 0) (fopp (fconst 3 4)) (fofZ 6).
Definition hitB {F : Type} `{Float64 F} : point F :=
  mkPoint (fofZ 0)
          (fopp (fconst 6755399441055743 9007199254740992))
          (fconst 6755399441055743 1125899906842624).

(** C5, as stated, fails.  The ray from the origin along (0,-1/8,1) meets
    a first ball at [hitA] and a second one, 2^-50 nearer, at [hitB].
    [hitB] is strictly nearer to the origin than [hitA], but the two
    distances round to the same binary64 value and the scan keeps the first
    ball.  And a hit whose distance is not a number is kept whatever comes
    after it: behind a ball at (2^600,0,0), which the ray along (1,0,1)
    misses by far, the ball that ray does hit is ignored. *)
Lemma nearest_rounds_counterexample :
  (let lum : material float := mkMaterial true (mkRGBA 255 255 255 255) 0%float in
   let ballA : ball float := (mkBall (mkPoint 0.5 (-0.5) 6.5) 0.75 lum)%float in
   let ballB : ball float :=
     mkBall (mkPoint 0.5 (-0.5) (fconst 7318349394477055 1125899906842624))%float
            0.75%float lum in
   let r : ray float := (mkRay (mkPoint 0 0 0) (mkDirection 0 (-0.125) 1))%float in
   ball_intersect ballA r = Some hitA
   /\ ball_intersect ballB r = Some hitB
   /\ snd (fst (findNearestHit (mkScene [ballA; ballB] (mkRGBA 0 0 0 255)) r))
      = 0%Z
   /\ snd (findNearestHit (mkScene [ballA; ballB] (mkRGBA 0 0 0 255)) r) = hitA
   /\ norm (point_to (src r) hitA) = norm (point_to (src r) hitB))
  /\ (let r : ray R := (mkRay (mkPoint 0 0 0) (mkDirection 0 (- (1 / 8)) 1))%R in
      (hitDist r hitB < hitDist r hitA)%R)
  /\
  (let lum : material float := mkMaterial true (mkRGBA 255 255 255 255) 0%float in
   let far : ball float := (mkBall (mkPoint 0x1p+600 0 0) 1 lum)%float in
   let near : ball float := (mkBall (mkPoint 5 0 5) 1 lum)%float in
   let r : ray float := (mkRay (mkPoint 0 0 0) (mkDirection 1 0 1))%float in
   let s : scene float := mkScene [far; near] (mkRGBA 0 0 0 255) in
   (exists p, ball_intersect near r = Some p
              /\ PrimFloat.ltb (norm (point_to (src r) p)) 7 = true)
   /\ snd (fst (findNearestHit s r)) = 0%Z
   /\ PrimFloat.is_nan (fst (fst (findNearestHit s r))) = true).
Proof.
  split; [|split].
  - cbv zeta. repeat split; vm_compute; reflexivity.
  - cbv zeta. unfold hitDist, hitA, hitB, norm, norm2, point_to, fconst.
    cbn [src x y z dx dy dz]. at_R.
    apply sqrt_lt_1_alt. split; [nra|lra].
  - cbv zeta. split; [|split; vm_compute; reflexivity].
    eexists. split; vm_compute; reflexivity.
Qed.

(** * The render driver

    [render] cuts the image into square tiles and starts one goroutine per
    tile; a goroutine shades the pixels of its tile and stores each colour
    in the image under a lock.  The embedding keeps the pixels a run
    computes and the colours it stores; the goroutines are run one after the
    other, tile by tile (the order is shown below not to matter to the
    image).  The image encoder and the file
    are left out. *)

(** [for i := i0; i < limit; i += step]: the values [i] takes, [None] when
    [fuel] rounds do not reach the end of the loop. *)
Fixpoint stepLoop (fuel : nat) (i limit step : Z) : option (list Z) :=
  match fuel with
  | O => None
  | S fuel' =>
      if (i <? limit)%Z
      then option_map (cons i) (stepLoop fuel' (i + step) limit step)
      else Some []
  end.

(** [for i := lo; i < lo + n; i++], a loop that always ends. *)
Definition forRange (lo n : Z) : list Z :=
  map (fun k => (lo + Z.of_nat k)%Z) (seq 0 (Z.to_nat n)).

(** The column loop, run once for each row of tiles: the corners
    [(row, col)] of the tiles, in the order the goroutines are started. *)
Fixpoint tilesOf (fuel : nat) (width granularity : Z) (rows : list Z)
  : option (list (Z * Z)) :=
  match rows with
  | [] => Some []
  | row :: rows' =>
      match stepLoop fuel 0 width granularity with
      | None => None
      | Some cols =>
          option_map (app (map (pair row) cols))
                     (tilesOf fuel width granularity rows')
      end
  end.

Definition tiles (fuel : nat) (width height granularity : Z)
  : option (list (Z * Z)) :=
  match stepLoop fuel 0 height granularity with
  | None => None
  | Some rows => tilesOf fuel width granularity rows
  end.

(** The pixels [(c, r)] of the goroutine started with [(initr, initc)]. *)
Definition tilePixels (granularity : Z) (tile : Z * Z) : list (Z * Z) :=
  let '(initr, initc) := tile in
  flat_map (fun r => map (fun c => (c, r)) (forRange initc granularity))
           (forRange initr granularity).

(** All the pixels a run of [render] computes. *)
Definition renderJobs (fuel : nat) (width height granularity : Z)
  : option (list (Z * Z)) :=
  option_map (flat_map (tilePixels granularity))
             (tiles fuel width height granularity).

Section Render.
Context {F : Type} `{Float64 F} `{Trig F}.
Local Open Scope f64_scope.

Definition xMin : F := - fconst 1 2.
Definition xMax : F := fconst 1 2.
Definition yMin : F := - fconst 1 4.
Definition yMax : F := fconst 1 4.

(** The ray through pixel [(c, r)] of an image of [width] by [height]. *)
Definition pixelRay (width height c r : Z) : ray F :=
  let x0 := xMin + fofZ c * (xMax - xMin) / fofZ width in
  let y0 := yMin + fofZ r * (yMax - yMin) / fofZ height in
  getRay (mkPoint (fofZ 0) (fofZ 0) (fofZ 0)) (mkPoint x0 y0 (fofZ 1)).

(** The pixels shaded one after the other: the colours stored, in order,
    and the scene the calls leave. *)
Fixpoint shadeJobs (fuel : nat) (width height : Z) (s : scene F)
         (jobs : list (Z * Z)) : option (list (Z * Z * RGBA) * scene F) :=
  match jobs with
  | [] => Some ([], s)
  | (c, r) :: jobs' =>
      match scene_getColor fuel s (pixelRay width height c r) with
      | None => None
      | Some (color0, s1) =>
          match shadeJobs fuel width height s1 jobs' with
          | None => None
          | Some (img, s2) => Some ((c, r, color0) :: img, s2)
          end
      end
  end.

(** [render], with the constants of the source. *)
Definition scene_render (loopFuel fuel : nat) (s : scene F)
  : option (list (Z * Z * RGBA) * scene F) :=
  match renderJobs loopFuel 2000 1000 200 with
  | None => None
  | Some jobs => shadeJobs fuel 2000 1000 s jobs
  end.
End Render.

(** ** The tile loops *)

Lemma stepLoop_ends (step : Z) :
  (0 < step)%Z ->
  forall (fuel : nat) (i limit : Z),
    (Z.max 0 (limit - i) < Z.of_nat fuel)%Z ->
    exists l : list Z,
      stepLoop fuel i limit step = Some l
      /\ NoDup l
      /\ forall v : Z, In v l <-> (i <= v < limit)%Z /\ (step | v - i)%Z.
Proof.
  intro Hstep. induction fuel as [|fuel IH]; intros i limit Hfuel; [lia|].
  cbn [stepLoop]. destruct (i <? limit)%Z eqn:Hi.
  - apply Z.ltb_lt in Hi.
    destruct (IH (i + step)%Z limit) as (l & -> & Hnd & Hin); [lia|].
    exists (i :: l). split; [reflexivity|]. split.
    + constructor; [|exact Hnd]. intro Hil. apply Hin in Hil. lia.
    + intro v. cbn [In]. rewrite Hin. split.
      * intros [<-|[Hv [k Hk]]].
        -- split; [lia|]. exists 0%Z. lia.
        -- split; [lia|]. exists (k + 1)%Z. lia.
      * intros [Hv [k Hk]].
        destruct (Z.eq_dec k 0) as [->|Hk0]; [left; lia|].
        right. assert (0 < k)%Z by nia. split; [nia|].
        exists (k - 1)%Z. lia.
  - apply Z.ltb_ge in Hi. exists []. split; [reflexivity|].
    split; [constructor|]. intro v. cbn [In]. split; [tauto|lia].
Qed.

Lemma stepLoop_diverges (step : Z) :
  (step <= 0)%Z ->
  forall (fuel : nat) (i limit : Z),
    (i < limit)%Z -> stepLoop fuel i limit step = None.
Proof.
  intro Hstep. induction fuel as [|fuel IH]; intros i limit Hi; [reflexivity|].
  cbn [stepLoop]. replace (i <? limit)%Z with true
    by (symmetry; apply Z.ltb_lt; lia).
  rewrite IH by lia. reflexivity.
Qed.

Lemma forRange_spec (lo n v : Z) :
  In v (forRange lo n) <-> (lo <= v < lo + n)%Z.
Proof.
  unfold forRange. rewrite in_map_iff. split.
  - intros (k & <- & Hk). apply in_seq in Hk. lia.
  - intro Hv. exists (Z.to_nat (v - lo)). split; [lia|].
    apply in_seq. lia.
Qed.

Lemma forRange_NoDup (lo n : Z) : NoDup (forRange lo n).
Proof.
  unfold forRange. apply Finite.Injective_map_NoDup; [|apply seq_NoDup].
  intros j k Hjk. lia.
Qed.

Lemma NoDup_flat_map_disjoint (A B : Type) (f : A -> list B) (l : list A) :
  NoDup l ->
  (forall a, In a l -> NoDup (f a)) ->
  (forall a a' v, In a l -> In a' l -> In v (f a) -> In v (f a') -> a = a') ->
  NoDup (flat_map f l).
Proof.
  intros Hl Hf Hdis. induction Hl as [|a l Ha Hl IH]; cbn [flat_map];
    [constructor|].
  apply NoDup_app.
  - apply Hf. now left.
  - apply IH.
    + intros a' Ha'. apply Hf. now right.
    + intros a1 a2 v H1 H2. apply Hdis; now right.
  - intros v Hv Hv'. apply in_flat_map in Hv' as (a' & Ha' & Hv').
    assert (a = a') by (apply (Hdis a a' v); auto; [now left|now right]).
    subst a'. contradiction.
Qed.

Lemma tilesOf_product (fuel : nat) (width granularity : Z) (cols : list Z) :
  stepLoop fuel 0 width granularity = Some cols ->
  forall rows,
    tilesOf fuel width granularity rows
    = Some (flat_map (fun row => map (pair row) cols) rows).
Proof.
  intros Hcols rows. induction rows as [|row rows IH]; [reflexivity|].
  cbn [tilesOf flat_map]. now rewrite Hcols, IH.
Qed.

(** The corner of the tile a coordinate falls in. *)
Lemma tile_corner (g corner v : Z) :
  (0 < g)%Z -> (g | corner)%Z -> (corner <= v < corner + g)%Z ->
  corner = (g * (v / g))%Z.
Proof.
  intros Hg [k ->] Hv.
  assert (E : (v / g = k)%Z)
    by (symmetry; apply (Z.div_unique v g k (v - k * g)); lia).
  rewrite E. lia.
Qed.

Lemma corner_exists (g limit v : Z) :
  (0 < g)%Z ->
  (exists corner, ((0 <= corner < limit)%Z /\ (g | corner - 0)%Z)
                  /\ (corner <= v < corner + g)%Z)
  <-> (0 <= v)%Z /\ (g * (v / g) < limit)%Z.
Proof.
  intro Hg. split.
  - intros (corner & [Hc Hdiv] & Hv). rewrite Z.sub_0_r in Hdiv.
    rewrite <- (tile_corner g corner v Hg Hdiv Hv). lia.
  - intros [Hv Hlim]. exists (g * (v / g))%Z.
    pose proof (Z.div_pos v g Hv Hg). pose proof (Z.mod_pos_bound v g Hg).
    pose proof (Z.div_mod v g ltac:(lia)).
    repeat split; try nia. exists (v / g)%Z. lia.
Qed.

Lemma below_multiple (g k v : Z) :
  (0 < g)%Z -> (g * (v / g) < k * g)%Z -> (v < k * g)%Z.
Proof.
  intros Hg Hlt.
  pose proof (Z.mod_pos_bound v g Hg). pose proof (Z.div_mod v g ltac:(lia)).
  assert (v / g < k)%Z by nia. nia.
Qed.

(** The pixels of a run, for a positive granularity. *)
Lemma renderJobs_cover (fuel : nat) (width height granularity : Z) :
  (0 < granularity)%Z ->
  (width + granularity < 2 ^ 63)%Z ->
  (height + granularity < 2 ^ 63)%Z ->
  (Z.max 0 width < Z.of_nat fuel)%Z ->
  (Z.max 0 height < Z.of_nat fuel)%Z ->
  exists jobs : list (Z * Z),
    renderJobs fuel width height granularity = Some jobs
    /\ NoDup jobs
    /\ (forall c r : Z,
           In (c, r) jobs
           <-> (0 <= c)%Z /\ (0 <= r)%Z
               /\ (granularity * (c / granularity) < width)%Z
               /\ (granularity * (r / granularity) < height)%Z)
    /\ (forall c r : Z,
           (0 <= c < width)%Z -> (0 <= r < height)%Z -> In (c, r) jobs)
    /\ ((granularity | width)%Z -> (granularity | height)%Z ->
        forall c r : Z,
          In (c, r) jobs -> (0 <= c < width)%Z /\ (0 <= r < height)%Z).
Proof.
  intros Hg _ _ Hw Hh.
  destruct (stepLoop_ends granularity Hg fuel 0 height)
    as (rows & Hrows & Hrnd & Hrin); [lia|].
  destruct (stepLoop_ends granularity Hg fuel 0 width)
    as (cols & Hcols & Hcnd & Hcin); [lia|].
  set (tl := flat_map (fun row => map (pair row) cols) rows).
  assert (Htiles : tiles fuel width height granularity = Some tl).
  { unfold tiles. rewrite Hrows. now apply tilesOf_product. }
  assert (Htin : forall row col, In (row, col) tl <-> In row rows /\ In col cols).
  { intros row col. unfold tl. rewrite in_flat_map. split.
    - intros (row' & Hr' & Hin). apply in_map_iff in Hin as (col' & E & Hc').
      injection E as -> ->. now split.
    - intros [Hr Hc]. exists row. split; [exact Hr|]. now apply in_map. }
  assert (Htnd : NoDup tl).
  { unfold tl. apply NoDup_flat_map_disjoint; [exact Hrnd| |].
    - intros row _. apply Finite.Injective_map_NoDup; [|exact Hcnd].
      intros c1 c2 E. now injection E.
    - intros row row' [row0 col0] _ _ H1 H2.
      apply in_map_iff in H1 as (c1 & E1 & _).
      apply in_map_iff in H2 as (c2 & E2 & _). congruence. }
  assert (Hpin : forall row col c r,
             In (c, r) (tilePixels granularity (row, col))
             <-> (row <= r < row + granularity)%Z
                 /\ (col <= c < col + granularity)%Z).
  { intros row col c r. cbn [tilePixels]. rewrite in_flat_map. split.
    - intros (r' & Hr' & Hin). apply in_map_iff in Hin as (c' & E & Hc').
      injection E as -> ->. apply forRange_spec in Hr', Hc'. now split.
    - intros [Hr Hc]. exists r. split; [now apply forRange_spec|].
      apply in_map_iff. exists c. split; [reflexivity|].
      now apply forRange_spec. }
  set (jobs := flat_map (tilePixels granularity) tl).
  assert (Hjin : forall c r,
             In (c, r) jobs
             <-> (0 <= c)%Z /\ (0 <= r)%Z
                 /\ (granularity * (c / granularity) < width)%Z
                 /\ (granularity * (r / granularity) < height)%Z).
  { intros c r. unfold jobs. rewrite in_flat_map.
    pose proof (corner_exists granularity height r Hg) as Hrow.
    pose proof (corner_exists granularity width c Hg) as Hcol.
    split.
    - intros ([row col] & Ht & Hp). apply Htin in Ht as [Hr Hc].
      apply Hpin in Hp as [Hpr Hpc]. apply Hrin in Hr. apply Hcin in Hc.
      assert (Hr' : (0 <= r)%Z /\ (granularity * (r / granularity) < height)%Z)
        by (apply Hrow; exists row; auto).
      assert (Hc' : (0 <= c)%Z /\ (granularity * (c / granularity) < width)%Z)
        by (apply Hcol; exists col; auto).
      tauto.
    - intros (Hc0 & Hr0 & Hcw & Hrh).
      destruct (proj2 Hrow (conj Hr0 Hrh)) as (row & Hr & Hpr).
      destruct (proj2 Hcol (conj Hc0 Hcw)) as (col & Hc & Hpc).
      exists (row, col). split.
      + apply Htin. split; [now apply Hrin|now apply Hcin].
      + now apply Hpin. }
  exists jobs. split; [unfold renderJobs; now rewrite Htiles|].
  split; [|split; [exact Hjin|split]].
  - unfold jobs. apply NoDup_flat_map_disjoint; [exact Htnd| |].
    + intros [row col] _. cbn [tilePixels].
      apply NoDup_flat_map_disjoint; [apply forRange_NoDup| |].
      * intros r _. apply Finite.Injective_map_NoDup; [|apply forRange_NoDup].
        intros c1 c2 E. now injection E.
      * intros r1 r2 [c0 r0] _ _ H1 H2.
        apply in_map_iff in H1 as (c1 & E1 & _).
        apply in_map_iff in H2 as (c2 & E2 & _). congruence.
    + intros [row col] [row' col'] [c r] Ht Ht' Hp Hp'.
      apply Htin in Ht as [Hr Hc]. apply Htin in Ht' as [Hr' Hc'].
      apply Hpin in Hp as [Hpr Hpc]. apply Hpin in Hp' as [Hpr' Hpc'].
      apply Hrin in Hr, Hr'. apply Hcin in Hc, Hc'.
      rewrite Z.sub_0_r in *.
      rewrite (tile_corner granularity row r), (tile_corner granularity row' r),
        (tile_corner granularity col c), (tile_corner granularity col' c);
        tauto.
  - intros c r Hc Hr. apply Hjin.
    pose proof (Z.mul_div_le c granularity Hg).
    pose proof (Z.mul_div_le r granularity Hg). lia.
  - intros [kw Hkw] [kh Hkh] c r Hin. apply Hjin in Hin.
    destruct Hin as (Hc0 & Hr0 & Hcw & Hrh). subst width height.
    split; split; try assumption; now apply below_multiple.
Qed.

(** X20.  The tile loops of [render], for a positive granularity (and
    sizes with which the loop counters stay within a 64-bit int, as [Z]
    stands for [int] here): they end, and the pixels the goroutines
    compute are pairwise distinct and are exactly the pixels of the tiles
    whose corner lies in the image.  So every pixel of the image is
    computed exactly once; and when the granularity divides the width and
    the height ("should divide width and height"), no other pixel is. *)
Theorem render_covers (fuel : nat) (width height granularity : Z) :
  (0 < granularity)%Z ->
  (width + granularity < 2 ^ 63)%Z ->
  (height + granularity < 2 ^ 63)%Z ->
  (Z.max 0 width < Z.of_nat fuel)%Z ->
  (Z.max 0 height < Z.of_nat fuel)%Z ->
  exists jobs : list (Z * Z),
    renderJobs fuel width height granularity = Some jobs
    /\ NoDup jobs
    /\ (forall c r : Z,
           In (c, r) jobs
           <-> (0 <= c)%Z /\ (0 <= r)%Z
               /\ (granularity * (c / granularity) < width)%Z
               /\ (granularity * (r / granularity) < height)%Z)
    /\ (forall c r : Z,
           (0 <= c < width)%Z -> (0 <= r < height)%Z -> In (c, r) jobs)
    /\ ((granularity | width)%Z -> (granularity | height)%Z ->
        forall c r : Z,
          In (c, r) jobs -> (0 <= c < width)%Z /\ (0 <= r < height)%Z).
Proof. apply renderJobs_cover. Qed.

Lemma render_covers_witness :
  (0 < 200)%Z
  /\ (2000 + 200 < 2 ^ 63)%Z
  /\ (1000 + 200 < 2 ^ 63)%Z
  /\ (Z.max 0 2000 < Z.of_nat 2001)%Z
  /\ (Z.max 0 1000 < Z.of_nat 2001)%Z
  /\ exists jobs : list (Z * Z),
       renderJobs 2001 2000 1000 200 = Some jobs
       /\ NoDup jobs
       /\ forall c r : Z,
            In (c, r) jobs <-> (0 <= c < 2000)%Z /\ (0 <= r < 1000)%Z.
Proof.
  assert (H1 : (0 < 200)%Z) by lia.
  assert (Hi : (2000 + 200 < 2 ^ 63)%Z) by lia.
  assert (Hi' : (1000 + 200 < 2 ^ 63)%Z) by lia.
  assert (H2 : (Z.max 0 2000 < Z.of_nat 2001)%Z) by lia.
  assert (H3 : (Z.max 0 1000 < Z.of_nat 2001)%Z) by lia.
  repeat (split; [first [exact H1 | exact Hi | exact Hi' | exact H2
                        | exact H3]|]).
  destruct (render_covers 2001 2000 1000 200 H1 Hi Hi' H2 H3)
    as (jobs & Hj & Hnd & _ & Hin & Hout).
  exists jobs. split; [exact Hj|]. split; [exact Hnd|].
  intros c r. split.
  - apply Hout; [exists 10%Z|exists 5%Z]; reflexivity.
  - intros [Hc Hr]. now apply Hin.
Defined.

(** X21.  With granularity 0 [render] never reaches its pixels: for a
    positive height the row loop does not end, however long it is run. *)
Theorem render_diverges (fuel : nat) (width height : Z) :
  (0 < height)%Z ->
  renderJobs fuel width height 0 = None.
Proof.
  intros Hh. unfold renderJobs, tiles.
  now rewrite (stepLoop_diverges 0 (Z.le_refl 0) fuel 0 height Hh).
Qed.

Lemma render_diverges_witness :
  (0 < 1000)%Z /\ renderJobs 5000 2000 1000 0 = None.
Proof.
  assert (H2 : (0 < 1000)%Z) by lia.
  split; [exact H2|]. exact (render_diverges 5000 2000 1000 H2).
Defined.

(** ** The camera rays *)

Lemma frac_bounds (a w : R) : (0 <= a < w)%R -> (0 <= a / w < 1)%R.
Proof.
  intros [Ha Hw]. assert (H0 : (0 < w)%R) by lra.
  pose proof (Rinv_0_lt_compat w H0) as Hi.
  pose proof (Rinv_r w ltac:(lra)) as Hone.
  unfold Rdiv. split; nra.
Qed.

Lemma pixelRay_R (width height c r : Z) :
  pixelRay width height c r
  = mkRay (mkPoint 0 0 0)%R
          (mkDirection
             (- (1 / 2) + IZR c * (1 / 2 - - (1 / 2)) / IZR width - 0)
             (- (1 / 4) + IZR r * (1 / 4 - - (1 / 4)) / IZR height - 0)
             (1 - 0))%R.
Proof. reflexivity. Qed.

(** X22.  The ray [render] casts through a pixel starts at the origin and
    has direction [(x, y, 1)]: never zero.  For a pixel of the image,
    [x = c/width - 1/2] lies in [-1/2, 1/2) and [y = r/(2 height) - 1/4]
    in [-1/4, 1/4), and two pixels of the image give two different rays. *)
Theorem pixelRay_window (width height c r : Z) :
  (0 <= c < width)%Z -> (0 <= r < height)%Z ->
  src (pixelRay width height c r) = (mkPoint 0 0 0)%R
  /\ dz (dir (pixelRay width height c r)) = 1%R
  /\ norm2 (dir (pixelRay width height c r)) <> 0%R
  /\ dx (dir (pixelRay width height c r))
     = (IZR c / IZR width - 1 / 2)%R
  /\ dy (dir (pixelRay width height c r))
     = (IZR r / (2 * IZR height) - 1 / 4)%R
  /\ (- (1 / 2) <= dx (dir (pixelRay width height c r)) < 1 / 2)%R
  /\ (- (1 / 4) <= dy (dir (pixelRay width height c r)) < 1 / 4)%R
  /\ forall c' r' : Z,
       (0 <= c' < width)%Z -> (0 <= r' < height)%Z ->
       @pixelRay R _ width height c r = pixelRay width height c' r' ->
       c = c' /\ r = r'.
Proof.
  intros Hc Hr.
  assert (HW : (0 < IZR width)%R) by (apply IZR_lt; lia).
  assert (HH : (0 < IZR height)%R) by (apply IZR_lt; lia).
  assert (HC : (0 <= IZR c < IZR width)%R)
    by (split; [apply IZR_le|apply IZR_lt]; lia).
  assert (HR : (0 <= IZR r < IZR height)%R)
    by (split; [apply IZR_le|apply IZR_lt]; lia).
  pose proof (frac_bounds _ _ HC) as HfC. pose proof (frac_bounds _ _ HR) as HfR.
  rewrite pixelRay_R. cbn [src dir dx dy dz].
  assert (Ex : (- (1 / 2) + IZR c * (1 / 2 - - (1 / 2)) / IZR width - 0
                = IZR c / IZR width - 1 / 2)%R) by (field; lra).
  assert (Ey : (- (1 / 4) + IZR r * (1 / 4 - - (1 / 4)) / IZR height - 0
                = IZR r / (2 * IZR height) - 1 / 4)%R) by (field; lra).
  assert (Ey' : (IZR r / (2 * IZR height) = IZR r / IZR height / 2)%R)
    by (field; lra).
  split; [reflexivity|]. split; [lra|]. split.
  { unfold norm2. cbn [dx dy dz]. at_R. intro Hz.
    apply sumsq_zero in Hz. lra. }
  split; [exact Ex|]. split; [exact Ey|].
  split; [rewrite Ex; lra|]. split; [rewrite Ey, Ey'; lra|].
  intros c' r' Hc' Hr' E. rewrite pixelRay_R in E. injection E as Edx Edy.
  assert (HC' : (0 <= IZR c' < IZR width)%R)
    by (split; [apply IZR_le|apply IZR_lt]; lia).
  assert (E1 : IZR c = IZR c').
  { assert (Hq : (IZR c / IZR width = IZR c' / IZR width)%R).
    { assert (Ex' : (- (1 / 2) + IZR c' * (1 / 2 - - (1 / 2)) / IZR width - 0
                     = IZR c' / IZR width - 1 / 2)%R) by (field; lra).
      lra. }
    apply (Rmult_eq_reg_r (/ IZR width)); [exact Hq|].
    apply Rinv_neq_0_compat. lra. }
  assert (E2 : IZR r = IZR r').
  { assert (Hq : (IZR r / IZR height = IZR r' / IZR height)%R).
    { assert (Ey2 : (- (1 / 4) + IZR r' * (1 / 4 - - (1 / 4)) / IZR height - 0
                     = IZR r' / IZR height / 2 - 1 / 4)%R) by (field; lra).
      lra. }
    apply (Rmult_eq_reg_r (/ IZR height)); [exact Hq|].
    apply Rinv_neq_0_compat. lra. }
  split; now apply eq_IZR.
Qed.

Lemma pixelRay_window_witness :
  (0 <= 500 < 2000)%Z /\ (0 <= 250 < 1000)%Z
  /\ dx (dir (pixelRay 2000 1000 500 250)) = (IZR 500 / IZR 2000 - 1 / 2)%R.
Proof.
  assert (H1 : (0 <= 500 < 2000)%Z) by lia.
  assert (H2 : (0 <= 250 < 1000)%Z) by lia.
  split; [exact H1|]. split; [exact H2|].
  exact (proj1 (proj2 (proj2 (proj2 (pixelRay_window 2000 1000 500 250 H1 H2))))).
Defined.

Lemma pixelRay_nonzero (width height c r : Z) :
  norm2 (dir (pixelRay width height c r : ray R)) <> 0%R.
Proof.
  rewrite pixelRay_R. unfold norm2. cbn [dir dx dy dz]. at_R. intro Hz.
  apply sumsq_zero in Hz. lra.
Qed.

(** ** A whole run of [render] *)

(** At most one ball of the scene is not luminous, and its radius is
    positive. *)
Definition oneMatte (s : scene R) : Prop :=
  (forall i j bi bj,
      nth_error (objects s) i = Some bi -> nth_error (objects s) j = Some bj ->
      luminous (mat bi) = false -> luminous (mat bj) = false -> i = j)
  /\ (forall b, In b (objects s) -> luminous (mat b) = false ->
                (0 < radius b)%R).

(** The colour of a pixel, as [getColor] gives it in the scene [s]. *)
Definition pixelColor (width height : Z) (s : scene R) (px : Z * Z) : RGBA :=
  match scene_getColor 2 s (pixelRay width height (fst px) (snd px)) with
  | Some (c, _) => c
  | None => background s
  end.

Lemma clampedFrom_nth (objs objs' : list (ball R)) (k : nat) (b' : ball R) :
  Forall2 clampedFrom objs objs' -> nth_error objs' k = Some b' ->
  exists b, nth_error objs k = Some b /\ clampedFrom b b'.
Proof.
  intro H. revert k. induction H as [|a a' l l' Ha _ IH]; intros [|k] Hk;
    cbn in *; try discriminate.
  - injection Hk as <-. now exists a.
  - now apply IH.
Qed.

Lemma clampedFrom_same (b b' : ball R) :
  clampedFrom b b' ->
  luminous (mat b') = luminous (mat b) /\ radius b' = radius b.
Proof. intros [->|(-> & _)]; now split. Qed.

Lemma oneMatte_evolves (s s' : scene R) :
  evolves s s' -> oneMatte s -> oneMatte s'.
Proof.
  intros [_ Hobjs] [Hone Hrad]. split.
  - intros i j bi bj Hi Hj Hli Hlj.
    destruct (clampedFrom_nth _ _ _ _ Hobjs Hi) as (ai & Hai & Hci).
    destruct (clampedFrom_nth _ _ _ _ Hobjs Hj) as (aj & Haj & Hcj).
    apply clampedFrom_same in Hci as [Eli _], Hcj as [Elj _].
    apply (Hone i j ai aj Hai Haj); congruence.
  - intros b' Hin Hl. apply In_nth_error in Hin as (k & Hk).
    destruct (clampedFrom_nth _ _ _ _ Hobjs Hk) as (a & Ha & Hc).
    apply clampedFrom_same in Hc as [El Er]. rewrite Er.
    apply Hrad; [eapply nth_error_In; eassumption|congruence].
Qed.

Lemma shadeJobs_total (width height : Z) (s0 : scene R) :
  oneMatte s0 ->
  forall (jobs : list (Z * Z)) (s : scene R),
    evolves s0 s ->
    exists s' : scene R,
      shadeJobs 2 width height s jobs
      = Some (map (fun px => (px, pixelColor width height s0 px)) jobs, s')
      /\ evolves s0 s'.
Proof.
  intro H0. induction jobs as [|[c r] jobs IH]; intros s Hev.
  - exists s. now split.
  - cbn [shadeJobs map].
    pose proof (oneMatte_evolves _ _ Hev H0) as [H1 H2].
    destruct (getColor_depth2 s (pixelRay width height c r) H1 H2
                              (pixelRay_nonzero width height c r))
      as (col & s1 & Hrun & Hbg & Hobjs).
    pose proof (sameScene_getColor 2 s0 s (pixelRay width height c r)
                                   (evolves_sameScene _ _ Hev)) as Hsame.
    rewrite Hrun in Hsame. unfold sameResult in Hsame.
    assert (Hcol : pixelColor width height s0 (c, r) = col).
    { unfold pixelColor. cbn [fst snd].
      destruct (scene_getColor 2 s0 (pixelRay width height c r))
        as [[c0 t0]|]; [|contradiction].
      now destruct Hsame. }
    assert (Hev1 : evolves s0 s1)
      by (eapply evolves_trans; [exact Hev|now split]).
    destruct (IH s1 Hev1) as (s' & Hjobs & Hev').
    exists s'. rewrite Hrun, Hjobs, Hcol. now split.
Qed.

Lemma shadeJobs_stable (fuel : nat) (width height : Z) (s : scene R) :
  Forall stable (objects s) ->
  forall jobs img s',
    shadeJobs fuel width height s jobs = Some (img, s') -> s' = s.
Proof.
  intro Hst. induction jobs as [|[c r] jobs IH]; intros img s' Hrun;
    cbn in Hrun.
  - now injection Hrun as _ <-.
  - destruct (scene_getColor fuel s _) as [[col s1]|] eqn:Hc; [|discriminate].
    apply (getColor_stable fuel s Hst) in Hc. subst s1.
    destruct (shadeJobs fuel width height s jobs) as [[img1 s2]|] eqn:Hj;
      [|discriminate].
    injection Hrun as _ <-. eapply IH. reflexivity.
Qed.

(** X23.  Over the reals, on a scene with at most one ball that is not
    luminous, [render] returns: its loops end, two levels of [getColor]
    shade every pixel, each of the 2000 by 1000 pixels is given a colour
    exactly once, and that colour is the one [getColor] gives the pixel's
    ray in the scene as [render] received it.  The scene is left as it was
    up to clamped roughnesses, and untouched when no roughness exceeds 1,
    as in the scene of [main]. *)
Theorem render_total (s : scene R) :
  oneMatte s ->
  exists (img : list (Z * Z * RGBA)) (s' : scene R),
    scene_render 2001 2 s = Some (img, s')
    /\ NoDup (map fst img)
    /\ (forall c r : Z,
           In (c, r) (map fst img) <-> (0 <= c < 2000)%Z /\ (0 <= r < 1000)%Z)
    /\ (forall (c r : Z) (col : RGBA),
           In (c, r, col) img ->
           option_map fst (scene_getColor 2 s (pixelRay 2000 1000 c r))
           = Some col)
    /\ background s' = background s
    /\ Forall2 clampedFrom (objects s) (objects s')
    /\ (Forall stable (objects s) -> s' = s).
Proof.
  intro H0.
  destruct (renderJobs_cover 2001 2000 1000 200)
    as (jobs & Hj & Hnd & _ & Hin & Hout); try lia.
  destruct (shadeJobs_total 2000 1000 s H0 jobs s (evolves_refl s))
    as (s' & Hrun & Hbg & Hobjs).
  assert (Hfst : map fst (map (fun px => (px, pixelColor 2000 1000 s px)) jobs)
                 = jobs).
  { rewrite map_map. cbn [fst]. apply map_id. }
  eexists. exists s'. unfold scene_render. rewrite Hj.
  split; [exact Hrun|]. rewrite Hfst.
  split; [exact Hnd|].
  split; [|split; [|split; [exact Hbg|split; [exact Hobjs|]]]].
  - intros c r. split.
    + apply Hout; [exists 10%Z|exists 5%Z]; reflexivity.
    + intros [Hc Hr]. now apply Hin.
  - intros c r col Hcol. apply in_map_iff in Hcol as ([c0 r0] & E & _).
    injection E as -> -> <-. unfold pixelColor. cbn [fst snd].
    destruct H0 as [H1 H2].
    destruct (getColor_depth2 s (pixelRay 2000 1000 c r) H1 H2
                              (pixelRay_nonzero 2000 1000 c r))
      as (col & s1 & -> & _).
    reflexivity.
  - intro Hst. exact (shadeJobs_stable 2 2000 1000 s Hst _ _ _ Hrun).
Qed.

Lemma render_total_witness :
  oneMatte mainScene
  /\ exists img : list (Z * Z * RGBA),
       scene_render 2001 2 mainScene = Some (img, mainScene).
Proof.
  split; [exact mainScene_one_matte|].
  destruct (render_total mainScene mainScene_one_matte)
    as (img & s' & Hr & _ & _ & _ & _ & _ & Hsame).
  rewrite (Hsame mainScene_stable) in Hr. now exists img.
Defined.

(** X24.  The image does not depend on the order in which the pixels are
    shaded: over the reals, on a scene with at most one ball that is not
    luminous, of positive radius, shading the same pixels in another order
    stores the same colour for every pixel. *)
Theorem shadeJobs_order_free (width height : Z) (s : scene R)
        (jobs jobs' : list (Z * Z)) :
  oneMatte s ->
  Permutation jobs jobs' ->
  exists (img img' : list (Z * Z * RGBA)) (s1 s2 : scene R),
    shadeJobs 2 width height s jobs = Some (img, s1)
    /\ shadeJobs 2 width height s jobs' = Some (img', s2)
    /\ Permutation img img'
    /\ forall px col, In (px, col) img <-> In (px, col) img'.
Proof.
  intros H0 Hperm.
  destruct (shadeJobs_total width height s H0 jobs s (evolves_refl s))
    as (s1 & Hrun & _).
  destruct (shadeJobs_total width height s H0 jobs' s (evolves_refl s))
    as (s2 & Hrun' & _).
  assert (Hp : Permutation
                 (map (fun px => (px, pixelColor width height s px)) jobs)
                 (map (fun px => (px, pixelColor width height s px)) jobs'))
    by (now apply Permutation_map).
  do 2 eexists. exists s1, s2.
  split; [exact Hrun|]. split; [exact Hrun'|]. split; [exact Hp|].
  intros px col. split; intro Hin.
  - eapply Permutation_in; eassumption.
  - eapply Permutation_in; [apply Permutation_sym|]; eassumption.
Qed.

Lemma shadeJobs_order_free_witness :
  oneMatte mainScene
  /\ Permutation [(0, 0); (1, 0)]%Z [(1, 0); (0, 0)]%Z
  /\ exists (img img' : list (Z * Z * RGBA)) (s1 s2 : scene R),
       shadeJobs 2 2000 1000 mainScene [(0, 0); (1, 0)]%Z = Some (img, s1)
       /\ shadeJobs 2 2000 1000 mainScene [(1, 0); (0, 0)]%Z = Some (img', s2)
       /\ Permutation img img'.
Proof.
  assert (Hp : Permutation [(0, 0); (1, 0)]%Z [(1, 0); (0, 0)]%Z)
    by apply perm_swap.
  split; [exact mainScene_one_matte|]. split; [exact Hp|].
  destruct (shadeJobs_order_free 2000 1000 mainScene _ _ mainScene_one_matte Hp)
    as (img & img' & s1 & s2 & H1 & H2 & H3 & _).
  now exists img, img', s1, s2.
Defined.

(** ** Points and directions *)

